(** * Traffic simulation (F10 / F11): parking admission, vehicle actors,
      telemetry frames and emergency preemption.

    Shallow embedding of the C++ sources
    (parking.cpp, vehicle.cpp, controller.cpp, visualizer.cpp,
    simulation_types.h and the monolithic simulation.cpp) together with
    the properties stated about them. *)

From Stdlib Require Import ZArith Lia Bool List.
From Stdlib Require Import Floats.SpecFloat.
From stdpp Require Import base option list gmap.

Open Scope Z_scope.

(* ===================================================================== *)
(** ** Machine integers and POSIX semaphores *)
(* ===================================================================== *)

(** [int] is a 32-bit two's complement integer.  Signed overflow is
    undefined in C++; on the targets the program is built for the
    increment wraps, which is what [int_wrap] writes out.  Under the lot
    invariant no counter ever comes near the bounds. *)
Definition INT_MIN : Z := - 2 ^ 31.
Definition INT_MAX : Z := 2 ^ 31 - 1.

Definition int_wrap (z : Z) : Z := (z + 2 ^ 31) mod 2 ^ 32 - 2 ^ 31.
Definition int_incr (z : Z) : Z := int_wrap (z + 1).
Definition int_decr (z : Z) : Z := int_wrap (z - 1).

Definition int_range (z : Z) : Prop := INT_MIN <= z <= INT_MAX.

(** A [sem_t] is modelled by its value. *)
Definition sem_t : Type := Z.
Definition SEM_VALUE_MAX : Z := 2 ^ 31 - 1.

(** [sem_trywait]: [None] is the EAGAIN return (value already zero). *)
Definition sem_trywait (s : sem_t) : option sem_t :=
  if 0 <? s then Some (s - 1) else None.

(** [sem_wait]: [None] means the caller is suspended, the semaphore is
    left as it is. *)
Definition sem_wait (s : sem_t) : option sem_t :=
  if 0 <? s then Some (s - 1) else None.

(** [sem_post]: at [SEM_VALUE_MAX] the call fails with EOVERFLOW and the
    value is unchanged (the sources ignore the return code). *)
Definition sem_post (s : sem_t) : sem_t :=
  if s <? SEM_VALUE_MAX then s + 1 else s.

(* ===================================================================== *)
(** ** parking.h / parking.cpp *)
(* ===================================================================== *)

Definition PARKING_CAPACITY : Z := 10.
Definition PARKING_QUEUE_SIZE : Z := 5.

Record ParkingLot : Type := mkParkingLot {
  spots : sem_t;
  queue : sem_t;
  occupiedSpots : Z;
  waitingCount : Z;
  spotOccupied : list bool;
  queueSlotOccupied : list bool
}.

(** [ParkingLot::ParkingLot()] *)
Definition ParkingLot_new : ParkingLot :=
  {| spots := PARKING_CAPACITY;
     queue := PARKING_QUEUE_SIZE;
     occupiedSpots := 0;
     waitingCount := 0;
     spotOccupied := replicate (Z.to_nat PARKING_CAPACITY) false;
     queueSlotOccupied := replicate (Z.to_nat PARKING_QUEUE_SIZE) false |}.

(** The first-fit loop shared by [enterQueue] and [waitForSpot]:
<<
    for (int i = 0; i < N; i++)
        if (!occ[i]) { occ[i] = true; idx = i; break; }
>>
    [n] is the number of iterations left, [i] the loop counter; the
    result is the updated array and [idx] (-1 when the loop ran out). *)
Fixpoint claim_first_free (n i : nat) (occ : list bool) : list bool * Z :=
  match n with
  | O => (occ, -1)
  | S n' =>
      match occ !! i with
      | Some false => (<[i:=true]> occ, Z.of_nat i)
      | _ => claim_first_free n' (S i) occ
      end
  end.

(** [occ[i] = false] behind the guard [i >= 0 && i < N]. *)
Definition clear_guarded (N : Z) (i : Z) (occ : list bool) : list bool :=
  if (0 <=? i) && (i <? N) then <[Z.to_nat i:=false]> occ else occ.

(** [ParkingLot::enterQueue].  The result is the returned index and the
    lot afterwards. *)
Definition enterQueue (l : ParkingLot) : Z * ParkingLot :=
  match sem_trywait (queue l) with
  | None => (-1, l)
  | Some q' =>
      let '(occ', queueIndex) :=
        claim_first_free (Z.to_nat PARKING_QUEUE_SIZE) 0 (queueSlotOccupied l) in
      (queueIndex,
       {| spots := spots l;
          queue := q';
          occupiedSpots := occupiedSpots l;
          waitingCount := int_incr (waitingCount l);
          spotOccupied := spotOccupied l;
          queueSlotOccupied := occ' |})
  end.

(** [ParkingLot::waitForSpot].  [None]: the caller is suspended in
    [sem_wait(&spots)], before any other statement of the function has
    run.  [Some (spotIndex, lot')]: the spot has been granted. *)
Definition waitForSpot (l : ParkingLot) (queueIndex : Z) : option (Z * ParkingLot) :=
  match sem_wait (spots l) with
  | None => None
  | Some s' =>
      let q' := sem_post (queue l) in
      let w' := int_decr (waitingCount l) in
      let qocc' := clear_guarded PARKING_QUEUE_SIZE queueIndex (queueSlotOccupied l) in
      let o' := int_incr (occupiedSpots l) in
      let '(socc', spotIndex) :=
        claim_first_free (Z.to_nat PARKING_CAPACITY) 0 (spotOccupied l) in
      Some (spotIndex,
            {| spots := s';
               queue := q';
               occupiedSpots := o';
               waitingCount := w';
               spotOccupied := socc';
               queueSlotOccupied := qocc' |})
  end.

(** [ParkingLot::leave] *)
Definition leave (l : ParkingLot) (spotIndex : Z) : ParkingLot :=
  {| spots := sem_post (spots l);
     queue := queue l;
     occupiedSpots := int_decr (occupiedSpots l);
     waitingCount := waitingCount l;
     spotOccupied := clear_guarded PARKING_CAPACITY spotIndex (spotOccupied l);
     queueSlotOccupied := queueSlotOccupied l |}.

Definition getOccupiedCount (l : ParkingLot) : Z := occupiedSpots l.
Definition getWaitingCount (l : ParkingLot) : Z := waitingCount l.

(** *** Invariants of a lot *)

Definition b2z (b : bool) : Z := if b then 1 else 0.

Fixpoint popcount (l : list bool) : Z :=
  match l with
  | [] => 0
  | b :: r => b2z b + popcount r
  end.

(** The invariant as the data model states it. *)
Definition lot_inv (l : ParkingLot) : Prop :=
  occupiedSpots l = popcount (spotOccupied l) /\
  waitingCount l = popcount (queueSlotOccupied l) /\
  0 <= occupiedSpots l <= PARKING_CAPACITY /\
  0 <= waitingCount l <= PARKING_QUEUE_SIZE.

(** The arrays have their declared sizes and each semaphore counts the
    free entries of its array. *)
Definition lot_coherent (l : ParkingLot) : Prop :=
  length (spotOccupied l) = Z.to_nat PARKING_CAPACITY /\
  length (queueSlotOccupied l) = Z.to_nat PARKING_QUEUE_SIZE /\
  occupiedSpots l = popcount (spotOccupied l) /\
  waitingCount l = popcount (queueSlotOccupied l) /\
  spots l = PARKING_CAPACITY - occupiedSpots l /\
  queue l = PARKING_QUEUE_SIZE - waitingCount l.

(** The queue half of [lot_coherent], all that [enterQueue] looks at. *)
Definition queue_coherent (l : ParkingLot) : Prop :=
  length (queueSlotOccupied l) = Z.to_nat PARKING_QUEUE_SIZE /\
  waitingCount l = popcount (queueSlotOccupied l) /\
  queue l = PARKING_QUEUE_SIZE - waitingCount l.

Definition queue_empty (l : ParkingLot) : Prop :=
  queueSlotOccupied l = replicate (Z.to_nat PARKING_QUEUE_SIZE) false /\
  waitingCount l = 0 /\
  queue l = PARKING_QUEUE_SIZE.

(** *** Sequences of operations on one lot *)

Inductive lot_op : Type :=
  | OpEnterQueue
  | OpWaitForSpot (queueIndex : Z)
  | OpLeave (spotIndex : Z).

(** One whole call.  A [waitForSpot] that would suspend does not
    complete and leaves the lot as it is. *)
Definition run_op (l : ParkingLot) (op : lot_op) : ParkingLot :=
  match op with
  | OpEnterQueue => snd (enterQueue l)
  | OpWaitForSpot q => match waitForSpot l q with Some (_, l') => l' | None => l end
  | OpLeave s => leave l s
  end.

(** The lot after each operation of the sequence, in order. *)
Fixpoint run_ops (l : ParkingLot) (ops : list lot_op) : list ParkingLot :=
  match ops with
  | [] => []
  | op :: r => run_op l op :: run_ops (run_op l op) r
  end.

(** The discipline the vehicle threads follow: [waitForSpot] is passed a
    queue slot that is taken (the one [enterQueue] returned), [leave] a
    spot that is taken (the one [waitForSpot] returned). *)
Definition op_permitted (l : ParkingLot) (op : lot_op) : Prop :=
  match op with
  | OpEnterQueue => True
  | OpWaitForSpot q =>
      0 <= q < PARKING_QUEUE_SIZE /\ queueSlotOccupied l !! Z.to_nat q = Some true
  | OpLeave s =>
      0 <= s < PARKING_CAPACITY /\ spotOccupied l !! Z.to_nat s = Some true
  end.

Fixpoint ops_permitted (l : ParkingLot) (ops : list lot_op) : Prop :=
  match ops with
  | [] => True
  | op :: r => op_permitted l op /\ ops_permitted (run_op l op) r
  end.

(** [n] calls of [enterQueue] in a row: the returned indices, in call
    order, and the lot afterwards. *)
Fixpoint enterQueue_n (n : nat) (l : ParkingLot) : list Z * ParkingLot :=
  match n with
  | O => ([], l)
  | S n' =>
      let '(i, l1) := enterQueue l in
      let '(rest, l2) := enterQueue_n n' l1 in
      (i :: rest, l2)
  end.

Definition count_accepted (rs : list Z) : nat := length (filter (fun r => 0 <= r) rs).
Definition count_rejected (rs : list Z) : nat := length (filter (fun r => r = -1) rs).

(** The lot after a whole sequence. *)
Definition exec_ops (l : ParkingLot) (ops : list lot_op) : ParkingLot :=
  fold_left run_op ops l.

(** A lot in which one vehicle has queued and been granted spot 0. *)
Definition lot_one_parked : ParkingLot :=
  exec_ops ParkingLot_new [OpEnterQueue; OpWaitForSpot 0].

(** *** The calls as sequences of atomic actions

    Between threads a call is not atomic: the semaphore operations and
    the section under [lock] are separate atomic actions, and another
    thread may run between them. *)

Definition set_queue_sem (l : ParkingLot) (q : sem_t) : ParkingLot :=
  mkParkingLot (spots l) q (occupiedSpots l) (waitingCount l)
               (spotOccupied l) (queueSlotOccupied l).

Definition set_spots_sem (l : ParkingLot) (s : sem_t) : ParkingLot :=
  mkParkingLot s (queue l) (occupiedSpots l) (waitingCount l)
               (spotOccupied l) (queueSlotOccupied l).

(** Where a thread is inside [enterQueue]. *)
Inductive enter_pc : Type :=
  | EnterTryWait                (* before sem_trywait(&queue) *)
  | EnterLocked                 (* before the section under lock *)
  | EnterReturned (queueIndex : Z).

Definition enterQueue_action (pc : enter_pc) (l : ParkingLot) : enter_pc * ParkingLot :=
  match pc with
  | EnterTryWait =>
      match sem_trywait (queue l) with
      | None => (EnterReturned (-1), l)
      | Some q' => (EnterLocked, set_queue_sem l q')
      end
  | EnterLocked =>
      let '(occ', queueIndex) :=
        claim_first_free (Z.to_nat PARKING_QUEUE_SIZE) 0 (queueSlotOccupied l) in
      (EnterReturned queueIndex,
       mkParkingLot (spots l) (queue l) (occupiedSpots l) (int_incr (waitingCount l))
                    (spotOccupied l) occ')
  | EnterReturned r => (EnterReturned r, l)
  end.

(** Where a thread is inside [waitForSpot]. *)
Inductive wait_pc : Type :=
  | WaitSemWait                 (* in sem_wait(&spots) *)
  | WaitSemPost                 (* before sem_post(&queue) *)
  | WaitLocked                  (* before the section under lock *)
  | WaitReturned (spotIndex : Z).

Definition waitForSpot_action (queueIndex : Z) (pc : wait_pc) (l : ParkingLot)
  : wait_pc * ParkingLot :=
  match pc with
  | WaitSemWait =>
      match sem_wait (spots l) with
      | None => (WaitSemWait, l)
      | Some s' => (WaitSemPost, set_spots_sem l s')
      end
  | WaitSemPost => (WaitLocked, set_queue_sem l (sem_post (queue l)))
  | WaitLocked =>
      let '(socc', spotIndex) :=
        claim_first_free (Z.to_nat PARKING_CAPACITY) 0 (spotOccupied l) in
      (WaitReturned spotIndex,
       mkParkingLot (spots l) (queue l) (int_incr (occupiedSpots l))
                    (int_decr (waitingCount l)) socc'
                    (clear_guarded PARKING_QUEUE_SIZE queueIndex (queueSlotOccupied l)))
  | WaitReturned r => (WaitReturned r, l)
  end.

(** Two threads on one lot: [A] inside [waitForSpot(queueIndex)], [B]
    inside [enterQueue]; a schedule says whose action runs next. *)
Inductive thread_id : Type := ThreadA | ThreadB.

Fixpoint interleave (queueIndex : Z) (sched : list thread_id)
  (a : wait_pc) (b : enter_pc) (l : ParkingLot) : wait_pc * enter_pc * ParkingLot :=
  match sched with
  | [] => (a, b, l)
  | ThreadA :: rest =>
      let '(a', l') := waitForSpot_action queueIndex a l in
      interleave queueIndex rest a' b l'
  | ThreadB :: rest =>
      let '(b', l') := enterQueue_action b l in
      interleave queueIndex rest a b' l'
  end.






(** A lot whose five queue slots have been taken by five [enterQueue]
    calls, with every spot still free. *)
Definition lot_queue_full : ParkingLot :=
  exec_ops ParkingLot_new
    [OpEnterQueue; OpEnterQueue; OpEnterQueue; OpEnterQueue; OpEnterQueue].

(* ===================================================================== *)
(** ** [float]: IEEE 754 binary32 *)
(* ===================================================================== *)

(** The sources compute positions in [float].  Every operation below is
    the correctly rounded binary32 one (round to nearest, ties to even),
    each C++ operator rounding on its own. *)
Definition float : Type := spec_float.
Definition prec32 : Z := 24.
Definition emax32 : Z := 128.

Definition fadd : float -> float -> float := SFadd prec32 emax32.
Definition fsub : float -> float -> float := SFsub prec32 emax32.
Definition fmul : float -> float -> float := SFmul prec32 emax32.
Definition fdiv : float -> float -> float := SFdiv prec32 emax32.
Definition fsqrt : float -> float := SFsqrt prec32 emax32.
Definition fltb : float -> float -> bool := SFltb.

(** Conversion [int -> float], also used for the literals ([300.0f]). *)
Definition float_of_int (z : Z) : float := binary_normalize prec32 emax32 z 0 false.

(** The exact value of a finite float, as a (numerator, binary exponent)
    pair [n * 2^e]. *)
Definition float_exact (f : float) : option (Z * Z) :=
  match f with
  | S754_zero _ => Some (0, 0)
  | S754_finite s m e => Some (cond_Zopp s (Zpos m), e)
  | _ => None
  end.

(* ===================================================================== *)
(** ** simulation_types.h *)
(* ===================================================================== *)

Definition VEHICLE_SPEED_MS : Z := 50.
Definition PARKING_DURATION_SECONDS : Z := 12.
Definition MSG_MAGIC : Z := 0xCAFEBABE.
Definition CMD_MAGIC : Z := 0xDEADBEEF.

Inductive VehicleType : Type :=
  | AMBULANCE | FIRETRUCK | BUS | CAR | BIKE | TRACTOR.

Inductive TrafficLightState : Type := RED | GREEN.

Inductive ScenarioCommand : Type :=
  | NONE | GREEN_WAVE | PARKING_FULL | GRIDLOCK.

Module VehicleState.
Record t : Type := mk {
  id : Z;
  x : float;
  y : float;
  colorR : Z;
  colorG : Z;
  colorB : Z;
  isActive : bool;
  isParked : bool;
  isInQueue : bool;
  queueIndex : Z;
  isLeftParking : bool;
  type : VehicleType
}.
End VehicleState.

Module TrafficLightUpdate.
Record t : Type := mk { intersectionId : Z; state : TrafficLightState }.
End TrafficLightUpdate.

Module ParkingUpdate.
Record t : Type := mk { intersectionId : Z; waitingCount : Z }.
End ParkingUpdate.

Module PipeMessage.
Inductive Type_ : Type := VEHICLE_UPDATE | LIGHT_UPDATE | PARKING_UPDATE.

(** The union [data], with the member that was written. *)
Inductive Data : Type :=
  | vehicle (v : VehicleState.t)
  | light (u : TrafficLightUpdate.t)
  | parking (p : ParkingUpdate.t).

Record t : Type := mk { magic : Z; type : Type_; data : Data }.
End PipeMessage.

Module CoordinationMessage.
Inductive Type_ : Type := EMERGENCY_APPROACHING | CLEAR_INTERSECTION.
Record t : Type := mk { type : Type_; sourceIntersection : Z }.
End CoordinationMessage.

Module CommandMessage.
Record t : Type := mk { magic : Z; command : ScenarioCommand }.
End CommandMessage.

Definition VehicleType_eqb (a b : VehicleType) : bool :=
  match a, b with
  | AMBULANCE, AMBULANCE | FIRETRUCK, FIRETRUCK | BUS, BUS
  | CAR, CAR | BIKE, BIKE | TRACTOR, TRACTOR => true
  | _, _ => false
  end.

(* ===================================================================== *)
(** ** vehicle.h / vehicle.cpp *)
(* ===================================================================== *)

(** A [ParkingLot*]: null, or the address of the one lot the spawning
    controller owns (the only lot a controller ever passes). *)
Inductive lot_ptr : Type := nullptr | controller_lot.

Module Vehicle.
Record t : Type := mk {
  id : Z;
  type : VehicleType;
  x : float;
  y : float;
  speed : float;
  pipeFd : Z;
  parkingLot : lot_ptr;
  active : bool;
  endX : Z;
  endY : Z;
  isInQueue : bool;
  queueIndex : Z;
  isLeftParking : bool
}.

Definition set_pos (v : t) (x' y' : float) : t :=
  mk (id v) (type v) x' y' (speed v) (pipeFd v) (parkingLot v) (active v)
     (endX v) (endY v) (isInQueue v) (queueIndex v) (isLeftParking v).

Definition set_end (v : t) (ex ey : Z) : t :=
  mk (id v) (type v) (x v) (y v) (speed v) (pipeFd v) (parkingLot v) (active v)
     ex ey (isInQueue v) (queueIndex v) (isLeftParking v).

Definition set_queue (v : t) (q : bool) (i : Z) : t :=
  mk (id v) (type v) (x v) (y v) (speed v) (pipeFd v) (parkingLot v) (active v)
     (endX v) (endY v) q i (isLeftParking v).

Definition set_active (v : t) (a : bool) : t :=
  mk (id v) (type v) (x v) (y v) (speed v) (pipeFd v) (parkingLot v) a
     (endX v) (endY v) (isInQueue v) (queueIndex v) (isLeftParking v).

Definition set_isLeftParking (v : t) (b : bool) : t :=
  mk (id v) (type v) (x v) (y v) (speed v) (pipeFd v) (parkingLot v) (active v)
     (endX v) (endY v) (isInQueue v) (queueIndex v) b.
End Vehicle.

Definition is_emergency (ty : VehicleType) : bool :=
  match ty with AMBULANCE | FIRETRUCK => true | _ => false end.

(** [Vehicle::Vehicle].  [endX], [endY] are left uninitialised by the
    constructor ([startX], [startY] too, and never read); every spawner
    assigns them before the thread starts, the model starts them at 0. *)
Definition Vehicle_new (id : Z) (type : VehicleType) (pipeFd : Z) (lot : lot_ptr)
  : Vehicle.t :=
  {| Vehicle.id := id;
     Vehicle.type := type;
     Vehicle.x := float_of_int 0;
     Vehicle.y := float_of_int 0;
     Vehicle.speed :=
       if is_emergency type then float_of_int 4
       else match type with TRACTOR => float_of_int 1 | _ => float_of_int 2 end;
     Vehicle.pipeFd := pipeFd;
     Vehicle.parkingLot := lot;
     Vehicle.active := true;
     Vehicle.endX := 0;
     Vehicle.endY := 0;
     Vehicle.isInQueue := false;
     Vehicle.queueIndex := -1;
     Vehicle.isLeftParking := false |}.

(** [Vehicle::getColor] *)
Definition getColor (ty : VehicleType) : Z * Z * Z :=
  match ty with
  | AMBULANCE => (255, 255, 255)
  | FIRETRUCK => (255, 0, 0)
  | BUS => (0, 0, 255)
  | CAR => (0, 255, 0)
  | BIKE => (255, 255, 0)
  | TRACTOR => (100, 100, 100)
  end.

(** The VEHICLE_UPDATE frame [Vehicle::sendUpdate] fills in. *)
Definition vehicle_frame (v : Vehicle.t) (parked : bool) : PipeMessage.t :=
  let '(r, g, b) := getColor (Vehicle.type v) in
  {| PipeMessage.magic := MSG_MAGIC;
     PipeMessage.type := PipeMessage.VEHICLE_UPDATE;
     PipeMessage.data :=
       PipeMessage.vehicle
         {| VehicleState.id := Vehicle.id v;
            VehicleState.x := Vehicle.x v;
            VehicleState.y := Vehicle.y v;
            VehicleState.colorR := r;
            VehicleState.colorG := g;
            VehicleState.colorB := b;
            VehicleState.isActive := Vehicle.active v;
            VehicleState.isParked := parked;
            VehicleState.isInQueue := Vehicle.isInQueue v;
            VehicleState.queueIndex := Vehicle.queueIndex v;
            VehicleState.isLeftParking := Vehicle.isLeftParking v;
            VehicleState.type := Vehicle.type v |} |}.

Definition parking_frame (intersectionId waiting : Z) : PipeMessage.t :=
  {| PipeMessage.magic := MSG_MAGIC;
     PipeMessage.type := PipeMessage.PARKING_UPDATE;
     PipeMessage.data :=
       PipeMessage.parking
         {| ParkingUpdate.intersectionId := intersectionId;
            ParkingUpdate.waitingCount := waiting |} |}.

(** [Vehicle::sendUpdate]: the frames written to [pipeFd], in order.
    [lot] is the state, at the time of the call, of the lot
    [parkingLot] points to. *)
Definition sendUpdate (v : Vehicle.t) (lot : ParkingLot) (parked : bool)
  : list PipeMessage.t :=
  vehicle_frame v parked ::
  match Vehicle.parkingLot v with
  | nullptr => []
  | controller_lot =>
      [parking_frame (if Vehicle.isLeftParking v then 11 else 10)
                     (getWaitingCount lot)]
  end.

(** [moveTowards]: the returned flag and the new [(currX, currY)]. *)
Definition moveTowards (currX currY targetX targetY speed : float)
  : bool * (float * float) :=
  let dx := fsub targetX currX in
  let dy := fsub targetY currY in
  let dist := fsqrt (fadd (fmul dx dx) (fmul dy dy)) in
  if fltb dist speed then (true, (targetX, targetY))
  else
    let ratio := fdiv speed dist in
    (false, (fadd currX (fmul dx ratio), fadd currY (fmul dy ratio))).


(** Whether the step from [(cx, cy)] to [(nx, ny)] is, in exact
    arithmetic, of length [speed] and along the line towards
    [(tx, ty)]: all values are scaled to a common binary exponent and
    compared as integers. *)
Definition scale_to (e0 : Z) (ne : Z * Z) : Z := fst ne * 2 ^ (snd ne - e0).

Definition exact_step_of_speed (cx cy tx ty speed nx ny : float) : bool :=
  match float_exact cx, float_exact cy, float_exact tx, float_exact ty,
        float_exact speed, float_exact nx, float_exact ny with
  | Some a, Some b, Some c, Some d, Some s, Some p, Some q =>
      let e0 := Z.min (snd a) (Z.min (snd b) (Z.min (snd c) (Z.min (snd d)
                  (Z.min (snd s) (Z.min (snd p) (snd q)))))) in
      let X := scale_to e0 a in let Y := scale_to e0 b in
      let TX := scale_to e0 c in let TY := scale_to e0 d in
      let S := scale_to e0 s in
      let NX := scale_to e0 p in let NY := scale_to e0 q in
      ((NX - X) * (NX - X) + (NY - Y) * (NY - Y) =? S * S) &&
      ((NX - X) * (TY - Y) =? (NY - Y) * (TX - X)) &&
      (0 <=? (NX - X) * (TX - X) + (NY - Y) * (TY - Y))
  | _, _, _, _, _, _, _ => false
  end.

(** *** The vehicle thread functions *)

(** The four thread functions of vehicle.cpp. *)
Inductive ThreadFunc : Type :=
  | vehicleThreadFunc
  | commuterThreadFunc
  | f11VehicleThreadFunc
  | f11LocalVehicleThreadFunc.

(** Program points of a thread function: the loop or call the thread is
    at.  Each step of [actor_step] is one loop iteration or one call, so
    that it touches the shared lot and gate at most once. *)
Inductive Phase : Type :=
  | ToStopLine                     (* first drive loop *)
  | PauseAtF11                     (* commuter: usleep(500000) *)
  | ToF10StopLine                  (* commuter: drive to F10 *)
  | CheckLight                     (* gate poll loop, then the park decision *)
  | ToQueueEntrance
  | EnterQueue                     (* parkingLot->enterQueue() *)
  | ToQueueBox (queueIdx : Z)
  | AnnounceQueued (queueIdx : Z)  (* sendUpdate() after the loop *)
  | WaitSpot (queueIdx : Z)        (* parkingLot->waitForSpot(queueIdx) *)
  | ToSpot (spotIndex : Z)
  | AnnounceParked (spotIndex : Z) (* sendUpdate(true), then the dwell *)
  | LeaveSpot (spotIndex : Z)      (* parkingLot->leave(spotIndex) *)
  | ReturnToRoad
  | ToEnd
  | Deactivate                     (* active = false; sendUpdate() *)
  | Finished.

(** [ThreadArgs] together with the program point. *)
Record Actor : Type := mkActor {
  func : ThreadFunc;
  vehicle : Vehicle.t;
  stopLineX : float;
  isCommuter : bool;
  phase : Phase
}.

Definition with_vehicle (a : Actor) (v : Vehicle.t) : Actor :=
  mkActor (func a) v (stopLineX a) (isCommuter a) (phase a).

Definition goto (a : Actor) (p : Phase) : Actor :=
  mkActor (func a) (vehicle a) (stopLineX a) (isCommuter a) p.

(** [willPark], the same expression in all four functions. *)
Definition willPark (v : Vehicle.t) : bool :=
  match Vehicle.parkingLot v with
  | nullptr => false
  | controller_lot =>
      VehicleType_eqb (Vehicle.type v) CAR || VehicleType_eqb (Vehicle.type v) BIKE
  end.

(** The test that ends the gate poll loop. *)
Definition may_pass (state : TrafficLightState) (v : Vehicle.t) : bool :=
  match state with
  | GREEN => true
  | RED => is_emergency (Vehicle.type v)
  end.

Definition uses_left_lot (f : ThreadFunc) : bool :=
  match f with
  | vehicleThreadFunc | commuterThreadFunc => false
  | f11VehicleThreadFunc | f11LocalVehicleThreadFunc => true
  end.

Definition queue_entrance (f : ThreadFunc) : float * float :=
  if uses_left_lot f then (float_of_int 900, float_of_int 320)
  else (float_of_int 300, float_of_int 320).

Definition queue_box (f : ThreadFunc) (queueIdx : Z) : float * float :=
  if uses_left_lot f
  then (fsub (float_of_int 775) (fmul (float_of_int queueIdx) (float_of_int 40)),
        float_of_int 325)
  else (fadd (float_of_int 425) (fmul (float_of_int queueIdx) (float_of_int 40)),
        float_of_int 325).

(** [row = spotIndex / 5], [col = spotIndex % 5] with C++ truncation. *)
Definition spot_position (f : ThreadFunc) (spotIndex : Z) : float * float :=
  let row := Z.quot spotIndex 5 in
  let col := Z.rem spotIndex 5 in
  let parkY := fadd (float_of_int 185) (fmul (float_of_int row) (float_of_int 60)) in
  if uses_left_lot f
  then (fsub (float_of_int 970) (fmul (float_of_int col) (float_of_int 40)), parkY)
  else (fadd (float_of_int 230) (fmul (float_of_int col) (float_of_int 40)), parkY).

Definition road_return (f : ThreadFunc) : float * float :=
  if uses_left_lot f then (float_of_int 900, float_of_int 400)
  else (float_of_int 300, float_of_int 400).

(** Target of the first drive loop: the commuter drives to the F11 stop
    line at 960, the others to [args->stopLineX]; the row is kept. *)
Definition first_target (a : Actor) : float * float :=
  match func a with
  | commuterThreadFunc => (float_of_int 960, Vehicle.y (vehicle a))
  | _ => (stopLineX a, Vehicle.y (vehicle a))
  end.

(** Target of the last drive loop. *)
Definition end_target (a : Actor) : float * float :=
  match func a with
  | commuterThreadFunc => (float_of_int 0, Vehicle.y (vehicle a))
  | _ => (float_of_int (Vehicle.endX (vehicle a)),
          float_of_int (Vehicle.endY (vehicle a)))
  end.

(** One iteration of
    [while (!moveTowards(v->x, v->y, tx, ty, v->speed)) { v->sendUpdate(); usleep(..); }]:
    the position is updated either way; on [true] the loop is left for
    [next], on [false] the update frames are written. *)
Definition drive (a : Actor) (lot : ParkingLot) (target : float * float) (next : Phase)
  : Actor * ParkingLot * list PipeMessage.t :=
  let v := vehicle a in
  let '(reached, (x', y')) :=
    moveTowards (Vehicle.x v) (Vehicle.y v) (fst target) (snd target) (Vehicle.speed v) in
  let v' := Vehicle.set_pos v x' y' in
  if reached then (goto (with_vehicle a v') next, lot, [])
  else (with_vehicle a v', lot, sendUpdate v' lot false).

(** One step of a vehicle thread.  [state] is the gate as read under its
    mutex in this step, [lot] the shared lot when the step runs (other
    threads may have changed it since this thread's previous step).  The
    result is the thread afterwards, the lot afterwards and the frames
    written. *)
Definition actor_step (a : Actor) (state : TrafficLightState) (lot : ParkingLot)
  : Actor * ParkingLot * list PipeMessage.t :=
  let v := vehicle a in
  match phase a with
  | ToStopLine =>
      drive a lot (first_target a)
        (match func a with commuterThreadFunc => PauseAtF11 | _ => CheckLight end)
  | PauseAtF11 => (goto a ToF10StopLine, lot, [])
  | ToF10StopLine => drive a lot (float_of_int 360, Vehicle.y v) CheckLight
  | CheckLight =>
      if may_pass state v
      then (goto a (if willPark v then ToQueueEntrance else ToEnd), lot, [])
      else (a, lot,
            match func a with
            | commuterThreadFunc => sendUpdate v lot false
            | _ => []
            end)
  | ToQueueEntrance => drive a lot (queue_entrance (func a)) EnterQueue
  | EnterQueue =>
      let '(queueIdx, lot') := enterQueue lot in
      if queueIdx =? -1 then (goto a ToEnd, lot', [])
      else (goto (with_vehicle a (Vehicle.set_queue v true queueIdx)) (ToQueueBox queueIdx),
            lot', [])
  | ToQueueBox queueIdx =>
      drive a lot (queue_box (func a) queueIdx) (AnnounceQueued queueIdx)
  | AnnounceQueued queueIdx => (goto a (WaitSpot queueIdx), lot, sendUpdate v lot false)
  | WaitSpot queueIdx =>
      match waitForSpot lot queueIdx with
      | None => (a, lot, [])
      | Some (spotIndex, lot') =>
          (goto (with_vehicle a (Vehicle.set_queue v false (-1))) (ToSpot spotIndex),
           lot', [])
      end
  | ToSpot spotIndex =>
      drive a lot (spot_position (func a) spotIndex) (AnnounceParked spotIndex)
  | AnnounceParked spotIndex => (goto a (LeaveSpot spotIndex), lot, sendUpdate v lot true)
  | LeaveSpot spotIndex => (goto a ReturnToRoad, leave lot spotIndex, [])
  | ReturnToRoad => drive a lot (road_return (func a)) ToEnd
  | ToEnd => drive a lot (end_target a) Deactivate
  | Deactivate =>
      let v' := Vehicle.set_active v false in
      (goto (with_vehicle a v') Finished, lot, sendUpdate v' lot false)
  | Finished => (a, lot, [])
  end.

(** What the thread's surroundings supply to one of its steps: the gate
    it reads and what the other threads of the process have made of the
    lot since its previous step ([None]: left as it was). *)
Record StepEnv : Type := mkStepEnv {
  env_light : TrafficLightState;
  env_lot : option ParkingLot
}.

(** A run of the thread under a schedule of surroundings: the states the
    thread goes through, with the frames each step wrote. *)
Fixpoint actor_run (a : Actor) (lot : ParkingLot) (sched : list StepEnv)
  : list (Actor * list PipeMessage.t) :=
  match sched with
  | [] => []
  | e :: rest =>
      let lot0 := match env_lot e with Some l => l | None => lot end in
      let '(a', lot', frames) := actor_step a (env_light e) lot0 in
      (a', frames) :: actor_run a' lot' rest
  end.

(** A thread as the controllers start it: a vehicle built by the
    constructor, placed by the spawner, at the top of its function. *)
Definition spawn (f : ThreadFunc) (id : Z) (type : VehicleType) (pipeFd : Z)
  (lot : lot_ptr) (x y : Z) (endX endY : Z) (stopLine : float) (commuter : bool)
  : Actor :=
  let v := Vehicle_new id type pipeFd lot in
  let v := Vehicle.set_pos v (float_of_int x) (float_of_int y) in
  let v := Vehicle.set_end v endX endY in
  let v := Vehicle.set_isLeftParking v (uses_left_lot f) in
  mkActor f v stopLine commuter ToStopLine.

(** The phases in which the thread is on its way into, or inside, the
    parking admission: it has decided to park. *)
Definition attempting_parking (p : Phase) : bool :=
  match p with
  | ToQueueEntrance | EnterQueue | ToQueueBox _ | AnnounceQueued _
  | WaitSpot _ | ToSpot _ | AnnounceParked _ | LeaveSpot _ | ReturnToRoad => true
  | _ => false
  end.

(** The monolithic simulation.cpp carries an older [vehicleThreadFunc]
    whose park branch is [if (willPark && (rand() % 2 == 0))]; its
    [commuterThreadFunc] has plain [if (willPark)]. *)
Module Monolith.
(** [r] is the value [rand()] returns (non-negative); it is only drawn
    when [willPark] holds. *)
Definition vehicleThreadFunc_parks (v : Vehicle.t) (r : Z) : bool :=
  if willPark v then Z.rem r 2 =? 0 else false.

Definition commuterThreadFunc_parks (v : Vehicle.t) : bool := willPark v.
End Monolith.

(** Coherence of the queue membership fields: [isInQueue] is false
    exactly when [queueIndex] is -1, and a queued vehicle carries an
    index in 0..4. *)
Definition queue_fields_coherent (inQueue : bool) (queueIndex : Z) : Prop :=
  (inQueue = false <-> queueIndex = -1) /\
  (inQueue = true -> 0 <= queueIndex <= 4).

(** The fields against the program point: between a successful
    [enterQueue] and the return of [waitForSpot] the vehicle is queued at
    the index it was given, anywhere else it is not queued. *)
Definition coherent_at (p : Phase) (v : Vehicle.t) : Prop :=
  match p with
  | ToQueueBox q | AnnounceQueued q | WaitSpot q =>
      Vehicle.isInQueue v = true /\ Vehicle.queueIndex v = q /\ 0 <= q <= 4
  | _ => Vehicle.isInQueue v = false /\ Vehicle.queueIndex v = -1
  end.

Definition actor_coherent (a : Actor) : Prop := coherent_at (phase a) (vehicle a).

Definition frame_coherent (m : PipeMessage.t) : Prop :=
  match PipeMessage.data m with
  | PipeMessage.vehicle vs =>
      queue_fields_coherent (VehicleState.isInQueue vs) (VehicleState.queueIndex vs)
  | _ => True
  end.

(** Example vehicles and threads. *)
Definition local_car : Actor :=
  spawn vehicleThreadFunc 0 CAR 1 controller_lot 0 400 1200 400 (float_of_int 240) false.

Definition car_at_stop_line : Vehicle.t :=
  Vehicle.set_pos (vehicle local_car) (float_of_int 240) (float_of_int 400).

(** A thread that has decided to park is a CAR or BIKE with a lot. *)
Definition park_inv (a : Actor) : Prop :=
  attempting_parking (phase a) = true -> willPark (vehicle a) = true.

Definition is_finite (f : float) : bool :=
  match f with
  | S754_zero _ | S754_finite _ _ _ => true
  | _ => false
  end.

Definition is_positive (f : float) : bool :=
  match f with
  | S754_finite false _ _ | S754_infinity false => true
  | _ => false
  end.

(* ===================================================================== *)
(** ** The telemetry pipe: frames as bytes *)
(* ===================================================================== *)

(** [write(fd, &msg, sizeof(msg))] sends the object representation of a
    [PipeMessage].  The layout is the one of the ABIs the program is
    built for: 4-byte little-endian [int], [uint32_t], [float] and
    enumerations, 1-byte [bool], 4-byte alignment, hence
    [sizeof(VehicleState) = 40] and [sizeof(PipeMessage) = 48].  A byte is
    a [Z] in 0..255. *)
Definition sizeof_PipeMessage : nat := 48.

Definition le32 (z : Z) : list Z :=
  [z mod 256; (z / 256) mod 256; (z / 65536) mod 256; (z / 16777216) mod 256].

(** An [int] as its 32-bit pattern and back. *)
Definition u32_of_int (z : Z) : Z := z mod 2 ^ 32.
Definition int_of_u32 (u : Z) : Z := if u <? 2 ^ 31 then u else u - 2 ^ 32.

(** A binary32 value as its bit pattern and back (a NaN is the quiet NaN
    0x7FC00000; [spec_float] carries no payload). *)
Definition sign_bit (s : bool) : Z := if s then 2 ^ 31 else 0.

Definition bits_of_float (f : float) : Z :=
  match f with
  | S754_zero s => sign_bit s
  | S754_infinity s => sign_bit s + 0x7F800000
  | S754_nan => 0x7FC00000
  | S754_finite s m e =>
      sign_bit s +
      (if Zpos m <? 2 ^ 23 then Zpos m
       else (e + 150) * 2 ^ 23 + (Zpos m - 2 ^ 23))
  end.

Definition float_of_bits (b : Z) : float :=
  let s := 2 ^ 31 <=? b in
  let E := (b / 2 ^ 23) mod 256 in
  let M := b mod 2 ^ 23 in
  if E =? 255 then (if M =? 0 then S754_infinity s else S754_nan)
  else if E =? 0 then
    match M with
    | Zpos m => S754_finite s m (-149)
    | _ => S754_zero s
    end
  else
    match M + 2 ^ 23 with
    | Zpos m => S754_finite s m (E - 150)
    | _ => S754_nan
    end.

Definition byte_of_bool (b : bool) : Z := if b then 1 else 0.

Definition tag_of_VehicleType (ty : VehicleType) : Z :=
  match ty with
  | AMBULANCE => 0 | FIRETRUCK => 1 | BUS => 2 | CAR => 3 | BIKE => 4 | TRACTOR => 5
  end.

Definition tag_of_light (s : TrafficLightState) : Z :=
  match s with RED => 0 | GREEN => 1 end.

Definition tag_of_Type (t : PipeMessage.Type_) : Z :=
  match t with
  | PipeMessage.VEHICLE_UPDATE => 0
  | PipeMessage.LIGHT_UPDATE => 1
  | PipeMessage.PARKING_UPDATE => 2
  end.

(** The 40 bytes of the union.  [pad i] is the indeterminate byte at
    offset [i] of the frame: struct padding, and the tail of the union
    the smaller members leave unwritten. *)
Definition data_bytes (pad : nat -> Z) (d : PipeMessage.Data) : list Z :=
  match d with
  | PipeMessage.vehicle vs =>
      le32 (u32_of_int (VehicleState.id vs)) ++
      le32 (bits_of_float (VehicleState.x vs)) ++
      le32 (bits_of_float (VehicleState.y vs)) ++
      le32 (u32_of_int (VehicleState.colorR vs)) ++
      le32 (u32_of_int (VehicleState.colorG vs)) ++
      le32 (u32_of_int (VehicleState.colorB vs)) ++
      [byte_of_bool (VehicleState.isActive vs);
       byte_of_bool (VehicleState.isParked vs);
       byte_of_bool (VehicleState.isInQueue vs);
       pad 35%nat] ++
      le32 (u32_of_int (VehicleState.queueIndex vs)) ++
      [byte_of_bool (VehicleState.isLeftParking vs);
       pad 41%nat; pad 42%nat; pad 43%nat] ++
      le32 (tag_of_VehicleType (VehicleState.type vs))
  | PipeMessage.light u =>
      le32 (u32_of_int (TrafficLightUpdate.intersectionId u)) ++
      le32 (tag_of_light (TrafficLightUpdate.state u)) ++
      map pad (seq 16 32)
  | PipeMessage.parking p =>
      le32 (u32_of_int (ParkingUpdate.intersectionId p)) ++
      le32 (u32_of_int (ParkingUpdate.waitingCount p)) ++
      map pad (seq 16 32)
  end.

(** The 48 bytes one [write] of a [PipeMessage] puts into the pipe. *)
Definition frame_bytes (pad : nat -> Z) (m : PipeMessage.t) : list Z :=
  le32 (PipeMessage.magic m) ++
  le32 (tag_of_Type (PipeMessage.type m)) ++
  data_bytes pad (PipeMessage.data m).

(** Reading the fields back out of a buffer, in declaration order. *)
Definition get_u32 (bs : list Z) : option (Z * list Z) :=
  match bs with
  | b0 :: b1 :: b2 :: b3 :: rest =>
      Some (b0 + 256 * b1 + 65536 * b2 + 16777216 * b3, rest)
  | _ => None
  end.

Definition get_int (bs : list Z) : option (Z * list Z) :=
  match get_u32 bs with
  | Some (u, rest) => Some (int_of_u32 u, rest)
  | None => None
  end.

Definition get_float (bs : list Z) : option (float * list Z) :=
  match get_u32 bs with
  | Some (u, rest) => Some (float_of_bits u, rest)
  | None => None
  end.

(** A one-byte member, taken as the byte it is. *)
Definition get_byte (bs : list Z) : option (Z * list Z) :=
  match bs with
  | b :: rest => Some (b, rest)
  | [] => None
  end.

Definition get_pad (n : nat) (bs : list Z) : option (unit * list Z) :=
  if (n <=? length bs)%nat then Some (tt, drop n bs) else None.

Definition VehicleType_of_tag (z : Z) : option VehicleType :=
  match z with
  | 0 => Some AMBULANCE | 1 => Some FIRETRUCK | 2 => Some BUS
  | 3 => Some CAR | 4 => Some BIKE | 5 => Some TRACTOR
  | _ => None
  end.

(** What the visualizer keeps of a [VehicleState], as the program holds
    it.  The reading loops copy the payload out of the buffer without
    looking at it, so a [bool] member is kept as the byte it occupies
    and the enum as its [int]: the table can hold a byte other than 0
    and 1 and an [int] that names no [VehicleType]. *)
Module Stored.
Record t : Type := mk {
  id : Z;
  x : float;
  y : float;
  colorR : Z;
  colorG : Z;
  colorB : Z;
  isActive : Z;
  isParked : Z;
  isInQueue : Z;
  queueIndex : Z;
  isLeftParking : Z;
  type : Z
}.
End Stored.

(** [msg.data.vehicle] of a buffer's 40 payload bytes, member by member
    in declaration order, the padding skipped. *)
Definition read_stored (payload : list Z) : option Stored.t :=
  match get_int payload with None => None | Some (id, r) =>
  match get_float r with None => None | Some (x, r) =>
  match get_float r with None => None | Some (y, r) =>
  match get_int r with None => None | Some (cr, r) =>
  match get_int r with None => None | Some (cg, r) =>
  match get_int r with None => None | Some (cb, r) =>
  match get_byte r with None => None | Some (act, r) =>
  match get_byte r with None => None | Some (prk, r) =>
  match get_byte r with None => None | Some (inq, r) =>
  match get_pad 1 r with None => None | Some (_, r) =>
  match get_int r with None => None | Some (qi, r) =>
  match get_byte r with None => None | Some (lft, r) =>
  match get_pad 3 r with None => None | Some (_, r) =>
  match get_int r with None => None | Some (ty, r) =>
    Some (Stored.mk id x y cr cg cb act prk inq qi lft ty)
  end end end end end end end end end end end end end end.

(** [msg.data.light]: the intersection id and the state, as its [int]. *)
Definition read_light (payload : list Z) : option (Z * Z) :=
  match get_int payload with None => None | Some (id, r) =>
  match get_int r with None => None | Some (s, r) =>
    Some (id, s)
  end end.

Definition read_ParkingUpdate (payload : list Z) : option ParkingUpdate.t :=
  match get_int payload with None => None | Some (id, r) =>
  match get_int r with None => None | Some (w, r) =>
    Some (ParkingUpdate.mk id w)
  end end.

(** A [VehicleState] as the table holds it, and a table entry read at
    the types of its members ([None] when a byte is no [bool] or the
    [int] no [VehicleType]). *)
Definition stored_of (vs : VehicleState.t) : Stored.t :=
  {| Stored.id := VehicleState.id vs;
     Stored.x := VehicleState.x vs;
     Stored.y := VehicleState.y vs;
     Stored.colorR := VehicleState.colorR vs;
     Stored.colorG := VehicleState.colorG vs;
     Stored.colorB := VehicleState.colorB vs;
     Stored.isActive := byte_of_bool (VehicleState.isActive vs);
     Stored.isParked := byte_of_bool (VehicleState.isParked vs);
     Stored.isInQueue := byte_of_bool (VehicleState.isInQueue vs);
     Stored.queueIndex := VehicleState.queueIndex vs;
     Stored.isLeftParking := byte_of_bool (VehicleState.isLeftParking vs);
     Stored.type := tag_of_VehicleType (VehicleState.type vs) |}.

Definition bool_of_byte (b : Z) : option bool :=
  match b with
  | 0 => Some false
  | 1 => Some true
  | _ => None
  end.

Definition VehicleState_of_stored (e : Stored.t) : option VehicleState.t :=
  match bool_of_byte (Stored.isActive e), bool_of_byte (Stored.isParked e),
        bool_of_byte (Stored.isInQueue e), bool_of_byte (Stored.isLeftParking e),
        VehicleType_of_tag (Stored.type e) with
  | Some act, Some prk, Some inq, Some lft, Some ty =>
      Some (VehicleState.mk (Stored.id e) (Stored.x e) (Stored.y e)
              (Stored.colorR e) (Stored.colorG e) (Stored.colorB e)
              act prk inq (Stored.queueIndex e) lft ty)
  | _, _, _, _, _ => None
  end.

(* ===================================================================== *)
(** ** visualizer.cpp: the pipe reading loops *)
(* ===================================================================== *)

Record Visualizer : Type := mkVisualizer {
  table : gmap Z Stored.t;      (* std::map<int, VehicleState> vehicles *)
  lightF10 : Z;                 (* TrafficLightState, as its int *)
  lightF11 : Z;
  parkingQueueCountF10 : Z;
  parkingQueueCountF11 : Z
}.

Definition Visualizer_init : Visualizer :=
  mkVisualizer ∅ (tag_of_light RED) (tag_of_light RED) 0 0.

(** The table read at the types of its members: the entries that hold a
    [VehicleState]. *)
Definition vehicles (st : Visualizer) : gmap Z VehicleState.t :=
  omap VehicleState_of_stored (table st).

Inductive Pipe : Type := pipeF10 | pipeF11.

(** The body of one reading loop, for the buffer one [read] filled:
<<
    if (bytesRead == sizeof(msg) && msg.magic == MSG_MAGIC) {
        if (msg.type == PipeMessage::VEHICLE_UPDATE) {
            vehicles[msg.data.vehicle.id] = msg.data.vehicle;
        } else if (msg.type == PipeMessage::LIGHT_UPDATE) {
            lightF10 = msg.data.light.state;
        } else if (msg.type == PipeMessage::PARKING_UPDATE) {
            if (msg.data.parking.intersectionId == 10) {
                parkingQueueCountF10 = msg.data.parking.waitingCount;
            }
        }
    }
>>
    Size and magic are all that is checked: whatever the payload bytes
    are, they are stored.  (A buffer of 48 bytes always holds the 40
    payload bytes the readers take, so their [None] never occurs.) *)
Definition on_read (p : Pipe) (buf : list Z) (st : Visualizer) : Visualizer :=
  if negb (length buf =? sizeof_PipeMessage)%nat then st else
  match get_u32 buf with
  | None => st
  | Some (magic, r) =>
    if negb (magic =? MSG_MAGIC) then st else
    match get_u32 r with
    | None => st
    | Some (type, payload) =>
      if type =? 0 then
        match read_stored payload with
        | Some e =>
            mkVisualizer (<[Stored.id e := e]> (table st))
              (lightF10 st) (lightF11 st)
              (parkingQueueCountF10 st) (parkingQueueCountF11 st)
        | None => st
        end
      else if type =? 1 then
        match read_light payload with
        | Some (_, s) =>
            match p with
            | pipeF10 =>
                mkVisualizer (table st) s (lightF11 st)
                  (parkingQueueCountF10 st) (parkingQueueCountF11 st)
            | pipeF11 =>
                mkVisualizer (table st) (lightF10 st) s
                  (parkingQueueCountF10 st) (parkingQueueCountF11 st)
            end
        | None => st
        end
      else if type =? 2 then
        match read_ParkingUpdate payload with
        | Some u =>
            match p with
            | pipeF10 =>
                if ParkingUpdate.intersectionId u =? 10
                then mkVisualizer (table st) (lightF10 st) (lightF11 st)
                       (ParkingUpdate.waitingCount u) (parkingQueueCountF11 st)
                else st
            | pipeF11 =>
                if ParkingUpdate.intersectionId u =? 11
                then mkVisualizer (table st) (lightF10 st) (lightF11 st)
                       (parkingQueueCountF10 st) (ParkingUpdate.waitingCount u)
                else st
            end
        | None => st
        end
      else st
    end
  end.

(** [while ((bytesRead = read(pipe, &msg, sizeof(msg))) > 0) { ... }] on
    a non-blocking pipe holding [avail]: each [read] takes up to 48
    bytes off the front; on an empty pipe it returns -1 and the loop
    ends.  [fuel] bounds the iterations. *)
Fixpoint drain_loop (fuel : nat) (p : Pipe) (avail : list Z) (st : Visualizer)
  : list Z * Visualizer :=
  match fuel with
  | O => (avail, st)
  | S fuel' =>
      match avail with
      | [] => (avail, st)
      | _ :: _ =>
          drain_loop fuel' p (drop sizeof_PipeMessage avail)
                     (on_read p (take sizeof_PipeMessage avail) st)
      end
  end.

(** Every iteration consumes at least one byte, so [length avail]
    iterations always reach the empty pipe. *)
Definition drain (p : Pipe) (avail : list Z) (st : Visualizer) : Visualizer :=
  snd (drain_loop (length avail) p avail st).

(** The reading loop over the frames of the render loop: [arrivals] are
    the bytes that reached the pipe before each successive poll. *)
Definition polls (p : Pipe) (arrivals : list (list Z)) (st : Visualizer) : Visualizer :=
  fold_left (fun s avail => drain p avail s) arrivals st.

Definition valid_float (f : float) : bool := valid_binary prec32 emax32 f.

(** A vehicle whose fields are values of their C++ types. *)
Definition vehicle_well_formed (v : Vehicle.t) : Prop :=
  int_range (Vehicle.id v) /\
  int_range (Vehicle.queueIndex v) /\
  valid_float (Vehicle.x v) = true /\
  valid_float (Vehicle.y v) = true.

Definition no_pad : nat -> Z := fun _ => 0.

Definition bus_42 : Vehicle.t :=
  Vehicle.set_pos (Vehicle_new 42 BUS 1 controller_lot) (float_of_int 600) (float_of_int 400).

Definition VehicleState_well_formed (vs : VehicleState.t) : Prop :=
  int_range (VehicleState.id vs) /\
  int_range (VehicleState.colorR vs) /\
  int_range (VehicleState.colorG vs) /\
  int_range (VehicleState.colorB vs) /\
  int_range (VehicleState.queueIndex vs) /\
  valid_float (VehicleState.x vs) = true /\
  valid_float (VehicleState.y vs) = true.

(** The [VehicleState] a [sendUpdate] of [v] carries. *)
Definition state_of (v : Vehicle.t) (parked : bool) : VehicleState.t :=
  match PipeMessage.data (vehicle_frame v parked) with
  | PipeMessage.vehicle vs => vs
  | _ => VehicleState.mk 0 (S754_zero false) (S754_zero false) 0 0 0
           false false false 0 false CAR
  end.

Definition register (vs : VehicleState.t) (st : Visualizer) : Visualizer :=
  mkVisualizer (<[VehicleState.id vs := stored_of vs]> (table st))
    (lightF10 st) (lightF11 st) (parkingQueueCountF10 st) (parkingQueueCountF11 st).

(** The magic a buffer carries in its first four bytes. *)
Definition magic_of (buf : list Z) : option Z :=
  match get_u32 buf with Some (m, _) => Some m | None => None end.

Definition frame_bus : list Z := frame_bytes no_pad (vehicle_frame bus_42 false).
Definition frame_car : list Z := frame_bytes no_pad (vehicle_frame car_at_stop_line false).

(* ===================================================================== *)
(** ** controller.cpp: [trafficControllerF11] *)
(* ===================================================================== *)

(** What the controller thread does, in order, each with the time (in
    microseconds on the controller's clock) at which it happens. *)
Inductive Event : Type :=
  | EvGate (s : TrafficLightState)            (* lightState = s, under lightMutex *)
  | EvSend (m : PipeMessage.t)                (* write(writePipeFd, ..) *)
  | EvCoord (m : CoordinationMessage.t)       (* a read of readCoordFd that returned m *)
  | EvCommand (c : CommandMessage.t)          (* a read of cmdPipeFd that returned c *)
  | EvSpawn (a : Actor)                       (* pthread_create *)
  | EvSleep (usec : Z).                       (* sleep / usleep *)

(** The controller thread's view of its process.  [coordIn] and [cmdIn]
    are the frames sent towards this controller, oldest first, each with
    the time it reaches the pipe; a frame is in the pipe, and a
    non-blocking [read] returns it, once the clock has reached that
    time.  [rand_draws] are the values the coming calls of [rand()]
    return.  The lot is shared with the vehicle threads; the controller
    itself only reads [waitingCount]. *)
Record F11 : Type := mkF11 {
  clock : Z;
  lightState : TrafficLightState;
  emergencyMode : bool;
  coordIn : list (Z * CoordinationMessage.t);
  cmdIn : list (Z * CommandMessage.t);
  vehicleIdCounter : Z;
  localIdCounter : Z;
  rand_draws : list Z;
  parkingLot : ParkingLot;
  writePipeFd : Z;
  log : list (Z * Event)
}.

Definition record (e : Event) (w : F11) : F11 :=
  mkF11 (clock w) (lightState w) (emergencyMode w) (coordIn w) (cmdIn w)
        (vehicleIdCounter w) (localIdCounter w) (rand_draws w) (parkingLot w)
        (writePipeFd w) (log w ++ [(clock w, e)]).

(** [sleep] / [usleep]: the clock moves on, nothing else does. *)
Definition usleep (usec : Z) (w : F11) : F11 :=
  let w := record (EvSleep usec) w in
  mkF11 (clock w + usec) (lightState w) (emergencyMode w) (coordIn w) (cmdIn w)
        (vehicleIdCounter w) (localIdCounter w) (rand_draws w) (parkingLot w)
        (writePipeFd w) (log w).

Definition set_light (s : TrafficLightState) (w : F11) : F11 :=
  let w := record (EvGate s) w in
  mkF11 (clock w) s (emergencyMode w) (coordIn w) (cmdIn w)
        (vehicleIdCounter w) (localIdCounter w) (rand_draws w) (parkingLot w)
        (writePipeFd w) (log w).

Definition set_emergencyMode (b : bool) (w : F11) : F11 :=
  mkF11 (clock w) (lightState w) b (coordIn w) (cmdIn w)
        (vehicleIdCounter w) (localIdCounter w) (rand_draws w) (parkingLot w)
        (writePipeFd w) (log w).

Definition light_frame (intersectionId : Z) (s : TrafficLightState) : PipeMessage.t :=
  {| PipeMessage.magic := MSG_MAGIC;
     PipeMessage.type := PipeMessage.LIGHT_UPDATE;
     PipeMessage.data :=
       PipeMessage.light
         {| TrafficLightUpdate.intersectionId := intersectionId;
            TrafficLightUpdate.state := s |} |}.

Definition send (m : PipeMessage.t) (w : F11) : F11 := record (EvSend m) w.

(** [read(readCoordFd, &coordMsg, sizeof(coordMsg)) == sizeof(coordMsg)] *)
Definition read_coord (w : F11) : option CoordinationMessage.t * F11 :=
  match coordIn w with
  | (t, m) :: rest =>
      if t <=? clock w
      then (Some m,
            record (EvCoord m)
              (mkF11 (clock w) (lightState w) (emergencyMode w) rest (cmdIn w)
                     (vehicleIdCounter w) (localIdCounter w) (rand_draws w)
                     (parkingLot w) (writePipeFd w) (log w)))
      else (None, w)
  | [] => (None, w)
  end.

(** [read(cmdPipeFd, &cmdMsg, sizeof(cmdMsg)) == sizeof(cmdMsg)] *)
Definition read_cmd (w : F11) : option CommandMessage.t * F11 :=
  match cmdIn w with
  | (t, c) :: rest =>
      if t <=? clock w
      then (Some c,
            record (EvCommand c)
              (mkF11 (clock w) (lightState w) (emergencyMode w) (coordIn w) rest
                     (vehicleIdCounter w) (localIdCounter w) (rand_draws w)
                     (parkingLot w) (writePipeFd w) (log w)))
      else (None, w)
  | [] => (None, w)
  end.

(** [rand()] *)
Definition rand (w : F11) : Z * F11 :=
  match rand_draws w with
  | r :: rest =>
      (r, mkF11 (clock w) (lightState w) (emergencyMode w) (coordIn w) (cmdIn w)
                (vehicleIdCounter w) (localIdCounter w) rest (parkingLot w)
                (writePipeFd w) (log w))
  | [] => (0, w)
  end.

(** [(VehicleType)(rand() % 4 + 2)]: BUS, CAR, BIKE or TRACTOR. *)
Definition VehicleType_of_draw (r : Z) : VehicleType :=
  match VehicleType_of_tag (Z.rem r 4 + 2) with
  | Some ty => ty
  | None => TRACTOR
  end.

(** The lambda [spawnVehicle] (from the right, default [yPos = 400]). *)
Definition spawnVehicle (type : VehicleType) (w : F11) : F11 :=
  let a := spawn f11VehicleThreadFunc (vehicleIdCounter w) type (writePipeFd w)
             controller_lot 1200 400 0 400 (float_of_int 960) false in
  record (EvSpawn a)
    (mkF11 (clock w) (lightState w) (emergencyMode w) (coordIn w) (cmdIn w)
           (int_incr (vehicleIdCounter w)) (localIdCounter w) (rand_draws w)
           (parkingLot w) (writePipeFd w) (log w)).

(** The lambda [spawnLocalVehicle] (from the left). *)
Definition spawnLocalVehicle (type : VehicleType) (w : F11) : F11 :=
  let a := spawn f11LocalVehicleThreadFunc (localIdCounter w) type (writePipeFd w)
             controller_lot 0 400 1200 400 (float_of_int 840) false in
  record (EvSpawn a)
    (mkF11 (clock w) (lightState w) (emergencyMode w) (coordIn w) (cmdIn w)
           (vehicleIdCounter w) (int_incr (localIdCounter w)) (rand_draws w)
           (parkingLot w) (writePipeFd w) (log w)).

Fixpoint repeat_n (n : nat) (body : F11 -> F11) (w : F11) : F11 :=
  match n with
  | O => w
  | S n' => repeat_n n' body (body w)
  end.

Definition is_emergency_msg (m : CoordinationMessage.t) : bool :=
  match CoordinationMessage.type m with
  | CoordinationMessage.EMERGENCY_APPROACHING => true
  | CoordinationMessage.CLEAR_INTERSECTION => false
  end.

(** Top of the loop: "Check for emergency signal from F10". *)
Definition check_emergency (w : F11) : F11 :=
  match read_coord w with
  | (Some m, w) =>
      if is_emergency_msg m then
        let w := set_emergencyMode true w in
        let w := set_light GREEN w in
        let w := send (light_frame 11 GREEN) w in
        let w := usleep 5000000 w in
        set_emergencyMode false w
      else w
  | (None, w) => w
  end.

(** "Check for commands from parent". *)
Definition check_commands (w : F11) : F11 :=
  match read_cmd w with
  | (Some c, w) =>
      if negb (CommandMessage.magic c =? CMD_MAGIC) then w else
      match CommandMessage.command c with
      | PARKING_FULL =>
          repeat_n 16 (fun w => usleep 200000 (spawnVehicle CAR w)) w
      | GRIDLOCK =>
          let w :=
            repeat_n 5 (fun w => let '(r, w) := rand w in
                                 usleep 100000 (spawnVehicle (VehicleType_of_draw r) w)) w in
          repeat_n 3 (fun w => let '(r, w) := rand w in
                               usleep 100000 (spawnLocalVehicle (VehicleType_of_draw r) w)) w
      | _ => w
      end
  | (None, w) => w
  end.

(** The polling loop of the RED phase, [n] iterations left:
<<
    for (int i = 0; i < 6; ++i) {
        usleep(500000);
        if (read(readCoordFd, ..) == sizeof(coordMsg))
            if (coordMsg.type == EMERGENCY_APPROACHING) {
                lightState = GREEN; write(..GREEN..); sleep(5); break;
            }
    }
>> *)
Fixpoint red_polls (n : nat) (w : F11) : F11 :=
  match n with
  | O => w
  | S n' =>
      let w := usleep 500000 w in
      match read_coord w with
      | (Some m, w) =>
          if is_emergency_msg m then
            let w := set_light GREEN w in
            let w := send (light_frame 11 GREEN) w in
            usleep 5000000 w
          else red_polls n' w
      | (None, w) => red_polls n' w
      end
  end.

Definition red_phase (w : F11) : F11 :=
  let w := set_light RED w in
  let w := send (light_frame 11 RED) w in
  red_polls 6 w.

Definition green_phase (w : F11) : F11 :=
  let w := set_light GREEN w in
  let w := send (light_frame 11 GREEN) w in
  let w := repeat_n 6 (usleep 500000) w in
  send (parking_frame 11 (getWaitingCount (parkingLot w))) w.

(** One turn of the controller's [while (true)] loop. *)
Definition f11_iteration (w : F11) : F11 :=
  let w := check_emergency w in
  let w := check_commands w in
  if negb (emergencyMode w) then green_phase (red_phase w) else w.

(** The preemption holds a log contains: the times at which a
    [sleep(5)] began. *)
Definition is_hold (e : Z * Event) : bool :=
  match snd e with
  | EvSleep usec => usec =? 5000000
  | _ => false
  end.

Definition holds (l : list (Z * Event)) : list Z := map fst (filter is_hold l).

Definition emergency_from_F10 : CoordinationMessage.t :=
  CoordinationMessage.mk CoordinationMessage.EMERGENCY_APPROACHING 10.

(** An idle controller at time 0 towards which F10 has sent two
    emergency signals: one already in the pipe, one reaching it at 2 s. *)
Definition f11_two_signals : F11 :=
  {| clock := 0;
     lightState := RED;
     emergencyMode := false;
     coordIn := [(0, emergency_from_F10); (2000000, emergency_from_F10)];
     cmdIn := [];
     vehicleIdCounter := 100;
     localIdCounter := 150;
     rand_draws := [];
     parkingLot := ParkingLot_new;
     writePipeFd := 4;
     log := [] |}.

(** What command handling leaves alone. *)
Definition cmd_neutral (w w' : F11) : Prop :=
  coordIn w' = coordIn w /\
  emergencyMode w' = emergencyMode w /\
  lightState w' = lightState w /\
  clock w <= clock w'.

(** The frames one step of a thread with a lot may write: none, or a
    VEHICLE_UPDATE followed at once by the PARKING_UPDATE of its lot. *)
Definition update_pair (frames : list PipeMessage.t) : Prop :=
  frames = [] \/
  exists v parked waiting,
    Vehicle.parkingLot v = controller_lot /\
    frames = [vehicle_frame v parked;
              parking_frame (if Vehicle.isLeftParking v then 11 else 10) waiting].

Definition has_lot (a : Actor) : Prop :=
  Vehicle.parkingLot (vehicle a) = controller_lot.

(** Linear arithmetic over the program's constants. *)
Ltac lot_lia :=
  unfold int_range, INT_MIN, INT_MAX, SEM_VALUE_MAX,
    PARKING_CAPACITY, PARKING_QUEUE_SIZE in *;
  lia.

(** ** Further invariants of a vehicle thread *)

(** The lot as each step of a run found it and left it. *)
Fixpoint actor_lots (a : Actor) (lot : ParkingLot) (sched : list StepEnv)
  : list (ParkingLot * ParkingLot) :=
  match sched with
  | [] => []
  | e :: rest =>
      let lot0 := match env_lot e with Some l => l | None => lot end in
      let '(a', lot', _) := actor_step a (env_light e) lot0 in
      (lot0, lot') :: actor_lots a' lot' rest
  end.

(** The flags of a VEHICLE_UPDATE against each other: a parked vehicle
    and a queued vehicle are active CARs or BIKEs, and no vehicle is both
    parked and queued. *)
Definition vehicle_flags_ok (vs : VehicleState.t) : Prop :=
  (VehicleState.isParked vs = true ->
     VehicleState.isActive vs = true /\ VehicleState.isInQueue vs = false /\
     (VehicleState.type vs = CAR \/ VehicleState.type vs = BIKE)) /\
  (VehicleState.isInQueue vs = true ->
     VehicleState.isActive vs = true /\ VehicleState.isParked vs = false /\
     (VehicleState.type vs = CAR \/ VehicleState.type vs = BIKE)).

Definition frame_flags_ok (m : PipeMessage.t) : Prop :=
  match PipeMessage.data m with
  | PipeMessage.vehicle vs => vehicle_flags_ok vs
  | _ => True
  end.

(** [active] stays set until the thread has run off its function. *)
Definition live_inv (a : Actor) : Prop :=
  phase a <> Finished -> Vehicle.active (vehicle a) = true.

(** A VEHICLE_UPDATE that reports the vehicle inactive. *)
Definition is_inactive_frame (m : PipeMessage.t) : bool :=
  match PipeMessage.data m with
  | PipeMessage.vehicle vs => negb (VehicleState.isActive vs)
  | _ => false
  end.

(** What a frame says about who sent it, for a thread running [f] on
    vehicle [id] of type [ty]. *)
Definition frame_of (f : ThreadFunc) (id : Z) (ty : VehicleType) (m : PipeMessage.t)
  : Prop :=
  PipeMessage.magic m = MSG_MAGIC /\
  match PipeMessage.data m with
  | PipeMessage.vehicle vs =>
      PipeMessage.type m = PipeMessage.VEHICLE_UPDATE /\
      VehicleState.id vs = id /\ VehicleState.type vs = ty /\
      (VehicleState.colorR vs, VehicleState.colorG vs, VehicleState.colorB vs)
        = getColor ty /\
      VehicleState.isLeftParking vs = uses_left_lot f
  | PipeMessage.parking pu =>
      PipeMessage.type m = PipeMessage.PARKING_UPDATE /\
      ParkingUpdate.intersectionId pu = (if uses_left_lot f then 11 else 10)
  | PipeMessage.light _ => False
  end.

Definition identity_inv (f : ThreadFunc) (id : Z) (ty : VehicleType) (a : Actor) : Prop :=
  func a = f /\ Vehicle.id (vehicle a) = id /\ Vehicle.type (vehicle a) = ty /\
  Vehicle.isLeftParking (vehicle a) = uses_left_lot f.

Definition all_red (sched : list StepEnv) : Prop :=
  Forall (fun e => env_light e = RED) sched.

(** A BUS started on its stop line with its end point there too, so that
    each drive loop ends on its first test. *)
Definition standing_bus : Actor :=
  spawn vehicleThreadFunc 7 BUS 1 controller_lot 240 400 240 400 (float_of_int 240) false.

Definition is_nan (f : float) : bool :=
  match f with S754_nan => true | _ => false end.

(** ** The reading loops: what a frame does to the visualizer state *)

(** [lightF10 = ..] on [pipeF10], [lightF11 = ..] on [pipeF11]. *)
Definition show_light (p : Pipe) (s : TrafficLightState) (st : Visualizer) : Visualizer :=
  match p with
  | pipeF10 => mkVisualizer (table st) (tag_of_light s) (lightF11 st)
                 (parkingQueueCountF10 st) (parkingQueueCountF11 st)
  | pipeF11 => mkVisualizer (table st) (lightF10 st) (tag_of_light s)
                 (parkingQueueCountF10 st) (parkingQueueCountF11 st)
  end.

Definition show_queue_count (p : Pipe) (n : Z) (st : Visualizer) : Visualizer :=
  match p with
  | pipeF10 => mkVisualizer (table st) (lightF10 st) (lightF11 st)
                 n (parkingQueueCountF11 st)
  | pipeF11 => mkVisualizer (table st) (lightF10 st) (lightF11 st)
                 (parkingQueueCountF10 st) n
  end.

(** The intersection a pipe's reading loop accepts queue counts for. *)
Definition intersection_of (p : Pipe) : Z :=
  match p with pipeF10 => 10 | pipeF11 => 11 end.

(** The pipe the threads of a function write to: F10's controller hands
    its threads the write end of [pipeF10], F11's that of [pipeF11]. *)
Definition pipe_of (f : ThreadFunc) : Pipe :=
  if uses_left_lot f then pipeF11 else pipeF10.

(** What the other pipe's loop owns. *)
Definition other_light (p : Pipe) (st : Visualizer) : Z :=
  match p with pipeF10 => lightF11 st | pipeF11 => lightF10 st end.

Definition other_queue_count (p : Pipe) (st : Visualizer) : Z :=
  match p with pipeF10 => parkingQueueCountF11 st | pipeF11 => parkingQueueCountF10 st end.

(** ** The F11 controller over whole iterations *)

(** No frame reaches the coordination pipe up to time [T]. *)
Definition coord_quiet_until (T : Z) (w : F11) : Prop :=
  match coordIn w with
  | [] => True
  | (t, _) :: _ => T < t
  end.

(** No command is in the command pipe now. *)
Definition cmd_quiet (w : F11) : Prop :=
  match cmdIn w with
  | [] => True
  | (t, _) :: _ => clock w < t
  end.

(** The threads a log started, in order. *)
Definition spawned (l : list (Z * Event)) : list Actor :=
  flat_map (fun e => match snd e with EvSpawn a => [a] | _ => [] end) l.

(** [n] ids counted up from [start]. *)
Fixpoint consecutive (start : Z) (n : nat) : list Z :=
  match n with
  | O => []
  | S n' => start :: consecutive (start + 1) n'
  end.

(** Every write of the gate in a log is followed at once, with no time
    passing, by the write of the LIGHT_UPDATE frame that carries
    intersection id 11 and the state just written. *)
Fixpoint published (l : list (Z * Event)) : Prop :=
  match l with
  | [] => True
  | (t, EvGate s) :: rest =>
      match rest with
      | (t', EvSend m) :: rest' => t' = t /\ m = light_frame 11 s /\ published rest'
      | _ => False
      end
  | _ :: rest => published rest
  end.

(** The log only grows, by entries that keep [published]. *)
Definition grows_published (w w' : F11) : Prop :=
  exists delta, log w' = log w ++ delta /\ published delta.

(** The values [rand()] is still to return are non-negative, and no
    thread started so far drives an AMBULANCE or FIRETRUCK. *)
Definition no_emergency_spawned (w : F11) : Prop :=
  Forall (fun r => 0 <= r) (rand_draws w) /\
  Forall (fun a => is_emergency (Vehicle.type (vehicle a)) = false) (spawned (log w)).

(** An idle controller in which a PARKING_FULL command has arrived. *)
Definition f11_parking_full : F11 :=
  {| clock := 0;
     lightState := RED;
     emergencyMode := false;
     coordIn := [];
     cmdIn := [(0, CommandMessage.mk CMD_MAGIC PARKING_FULL)];
     vehicleIdCounter := 100;
     localIdCounter := 150;
     rand_draws := [];
     parkingLot := ParkingLot_new;
     writePipeFd := 4;
     log := [] |}.

(** An idle controller towards which the visualizer has sent GREEN_WAVE
    (which only F10 acts on) and a peer a CLEAR_INTERSECTION. *)
Definition f11_foreign_input : F11 :=
  {| clock := 0;
     lightState := RED;
     emergencyMode := false;
     coordIn := [(0, CoordinationMessage.mk CoordinationMessage.CLEAR_INTERSECTION 10)];
     cmdIn := [(0, CommandMessage.mk CMD_MAGIC GREEN_WAVE)];
     vehicleIdCounter := 100;
     localIdCounter := 150;
     rand_draws := [];
     parkingLot := ParkingLot_new;
     writePipeFd := 4;
     log := [] |}.

(** An idle controller with a GRIDLOCK command in the pipe. *)
Definition f11_gridlock : F11 :=
  {| clock := 0;
     lightState := RED;
     emergencyMode := false;
     coordIn := [];
     cmdIn := [(0, CommandMessage.mk CMD_MAGIC GRIDLOCK)];
     vehicleIdCounter := 100;
     localIdCounter := 150;
     rand_draws := [7; 1804289383; 846930886; 2; 5; 9; 12; 3];
     parkingLot := ParkingLot_new;
     writePipeFd := 4;
     log := [] |}.

(** An idle controller with nothing in its pipes. *)
Definition f11_idle : F11 :=
  {| clock := 0;
     lightState := RED;
     emergencyMode := false;
     coordIn := [];
     cmdIn := [];
     vehicleIdCounter := 100;
     localIdCounter := 150;
     rand_draws := [];
     parkingLot := ParkingLot_new;
     writePipeFd := 4;
     log := [] |}.

(* ===================================================================== *)
(** ** controller.cpp: [trafficControllerF10] *)
(* ===================================================================== *)

Module F10.

(** What the controller thread does that others can observe. *)
Inductive Event : Type :=
  | EvGate (s : TrafficLightState)            (* lightState = s, under lightMutex *)
  | EvSend (m : PipeMessage.t)                (* write(writePipeFd, ..) *)
  | EvCoordSend (m : CoordinationMessage.t)   (* write(writeCoordFd, ..) *)
  | EvCommand (c : CommandMessage.t)          (* a read of cmdPipeFd that returned c *)
  | EvSpawn (a : Actor)                       (* pthread_create *)
  | EvSleep (usec : Z).                       (* usleep *)

(** The controller thread's view of its process; as for F11, with the
    coordination pipe written instead of read ([readCoordFd] is never
    used by F10). *)
Record t : Type := mk {
  clock : Z;
  lightState : TrafficLightState;
  cmdIn : list (Z * CommandMessage.t);
  vehicleIdCounter : Z;
  commuterIdCounter : Z;
  rand_draws : list Z;
  parkingLot : ParkingLot;
  writePipeFd : Z;
  log : list (Z * Event)
}.

Definition record (e : Event) (w : t) : t :=
  mk (clock w) (lightState w) (cmdIn w) (vehicleIdCounter w) (commuterIdCounter w)
     (rand_draws w) (parkingLot w) (writePipeFd w) (log w ++ [(clock w, e)]).

Definition usleep (usec : Z) (w : t) : t :=
  let w := record (EvSleep usec) w in
  mk (clock w + usec) (lightState w) (cmdIn w) (vehicleIdCounter w) (commuterIdCounter w)
     (rand_draws w) (parkingLot w) (writePipeFd w) (log w).

Definition set_light (s : TrafficLightState) (w : t) : t :=
  let w := record (EvGate s) w in
  mk (clock w) s (cmdIn w) (vehicleIdCounter w) (commuterIdCounter w)
     (rand_draws w) (parkingLot w) (writePipeFd w) (log w).

Definition send (m : PipeMessage.t) (w : t) : t := record (EvSend m) w.

Definition send_coord (m : CoordinationMessage.t) (w : t) : t := record (EvCoordSend m) w.

(** [read(cmdPipeFd, &cmdMsg, sizeof(cmdMsg)) == sizeof(cmdMsg)] *)
Definition read_cmd (w : t) : option CommandMessage.t * t :=
  match cmdIn w with
  | (tm, c) :: rest =>
      if tm <=? clock w
      then (Some c,
            record (EvCommand c)
              (mk (clock w) (lightState w) rest (vehicleIdCounter w) (commuterIdCounter w)
                  (rand_draws w) (parkingLot w) (writePipeFd w) (log w)))
      else (None, w)
  | [] => (None, w)
  end.

(** [rand()] *)
Definition rand (w : t) : Z * t :=
  match rand_draws w with
  | r :: rest =>
      (r, mk (clock w) (lightState w) (cmdIn w) (vehicleIdCounter w) (commuterIdCounter w)
             rest (parkingLot w) (writePipeFd w) (log w))
  | [] => (0, w)
  end.

(** [(VehicleType)(rand() % 6)] *)
Definition any_type_of_draw (r : Z) : VehicleType :=
  match VehicleType_of_tag (Z.rem r 6) with
  | Some ty => ty
  | None => TRACTOR
  end.

(** [(rand() % 2 == 0) ? VehicleType::CAR : VehicleType::BIKE] *)
Definition commuter_type_of_draw (r : Z) : VehicleType :=
  if Z.rem r 2 =? 0 then CAR else BIKE.

(** The lambda [spawnLocalVehicle]. *)
Definition spawnLocalVehicle (type : VehicleType) (w : t) : t :=
  let a := spawn vehicleThreadFunc (vehicleIdCounter w) type (writePipeFd w)
             controller_lot 0 400 1200 400 (float_of_int 240) false in
  record (EvSpawn a)
    (mk (clock w) (lightState w) (cmdIn w) (int_incr (vehicleIdCounter w))
        (commuterIdCounter w) (rand_draws w) (parkingLot w) (writePipeFd w) (log w)).

(** The lambda [spawnCommuterVehicle]. *)
Definition spawnCommuterVehicle (type : VehicleType) (w : t) : t :=
  let a := spawn commuterThreadFunc (commuterIdCounter w) type (writePipeFd w)
             controller_lot 1200 400 0 400 (float_of_int 360) true in
  record (EvSpawn a)
    (mk (clock w) (lightState w) (cmdIn w) (vehicleIdCounter w)
        (int_incr (commuterIdCounter w)) (rand_draws w) (parkingLot w) (writePipeFd w)
        (log w)).

Fixpoint repeat_n (n : nat) (body : t -> t) (w : t) : t :=
  match n with
  | O => w
  | S n' => repeat_n n' body (body w)
  end.

(** The spawns before the loop: 3 local vehicles of any type, then 2
    commuters, each followed by a sleep of 0.5 s to 1.5 s. *)
Definition init (w : t) : t :=
  let w :=
    repeat_n 3 (fun w => let '(r, w) := rand w in
                         let w := spawnLocalVehicle (any_type_of_draw r) w in
                         let '(d, w) := rand w in
                         usleep (Z.rem d 1000000 + 500000) w) w in
  repeat_n 2 (fun w => let '(r, w) := rand w in
                       let w := spawnCommuterVehicle (commuter_type_of_draw r) w in
                       let '(d, w) := rand w in
                       usleep (Z.rem d 1000000 + 500000) w) w.

(** The GREEN_WAVE block, the same text at both places it occurs. *)
Definition green_wave (w : t) : t :=
  let w := spawnLocalVehicle AMBULANCE w in
  send_coord (CoordinationMessage.mk CoordinationMessage.EMERGENCY_APPROACHING 10) w.

Definition parking_full (w : t) : t :=
  repeat_n 16 (fun w => usleep 200000 (spawnLocalVehicle CAR w)) w.

(** The loop bodies of the GRIDLOCK blocks: at the top of the loop a
    local vehicle and a sleep, then a commuter and a sleep; in the RED
    phase a local vehicle, a commuter and one sleep. *)
Definition gridlock_local (w : t) : t :=
  let '(r, w) := rand w in
  usleep 100000 (spawnLocalVehicle (VehicleType_of_draw r) w).

Definition gridlock_commuter (w : t) : t :=
  let '(r, w) := rand w in
  usleep 100000 (spawnCommuterVehicle (commuter_type_of_draw r) w).

Definition gridlock_pair (w : t) : t :=
  let '(r1, w) := rand w in
  let w := spawnLocalVehicle (VehicleType_of_draw r1) w in
  let '(r2, w) := rand w in
  let w := spawnCommuterVehicle (commuter_type_of_draw r2) w in
  usleep 100000 w.

(** "Check for commands (non-blocking)" at the top of the loop. *)
Definition check_commands (w : t) : t :=
  match read_cmd w with
  | (Some c, w) =>
      if negb (CommandMessage.magic c =? CMD_MAGIC) then w else
      match CommandMessage.command c with
      | GREEN_WAVE => green_wave w
      | PARKING_FULL => parking_full w
      | GRIDLOCK => repeat_n 5 gridlock_commuter (repeat_n 5 gridlock_local w)
      | NONE => w
      end
  | (None, w) => w
  end.

(** The command check inside the RED phase's polling loop. *)
Definition poll_commands (w : t) : t :=
  match read_cmd w with
  | (Some c, w) =>
      if negb (CommandMessage.magic c =? CMD_MAGIC) then w else
      match CommandMessage.command c with
      | GREEN_WAVE => green_wave w
      | PARKING_FULL => parking_full w
      | GRIDLOCK => repeat_n 5 gridlock_pair w
      | NONE => w
      end
  | (None, w) => w
  end.

Definition red_phase (w : t) : t :=
  let w := set_light RED w in
  let w := send (light_frame 10 RED) w in
  repeat_n 6 (fun w => poll_commands (usleep 500000 w)) w.

Definition green_phase (w : t) : t :=
  let w := set_light GREEN w in
  let w := send (light_frame 10 GREEN) w in
  let w := repeat_n 6 (usleep 500000) w in
  send (parking_frame 10 (getWaitingCount (parkingLot w))) w.

(** One turn of the controller's [while (true)] loop. *)
Definition iteration (w : t) : t :=
  green_phase (red_phase (check_commands w)).

(** The threads a log started, and the frames it put on the
    coordination pipe, each with the time of the write. *)
Definition spawned (l : list (Z * Event)) : list Actor :=
  flat_map (fun e => match snd e with EvSpawn a => [a] | _ => [] end) l.

Definition coord_sent (l : list (Z * Event)) : list (Z * CoordinationMessage.t) :=
  flat_map (fun e => match snd e with EvCoordSend m => [(fst e, m)] | _ => [] end) l.

(** Every commuter started so far will park. *)
Definition commuters_park (w : t) : Prop :=
  Forall (fun a => func a = commuterThreadFunc -> willPark (vehicle a) = true)
         (spawned (log w)).

(** The controller as [trafficControllerF10] sets it up, with the
    commands [cmds] on their way and [draws] the values of [rand()]. *)
Definition start (cmds : list (Z * CommandMessage.t)) (draws : list Z) (fd : Z) : t :=
  {| clock := 0;
     lightState := RED;
     cmdIn := cmds;
     vehicleIdCounter := 0;
     commuterIdCounter := 50;
     rand_draws := draws;
     parkingLot := ParkingLot_new;
     writePipeFd := fd;
     log := [] |}.

End F10.

(** The next command in F10's pipe has arrived and carries [cmd] under
    the command magic. *)
Definition f10_next_command (cmd : ScenarioCommand) (w : F10.t) : Prop :=
  exists tm rest,
    F10.cmdIn w = (tm, CommandMessage.mk CMD_MAGIC cmd) :: rest /\ tm <= F10.clock w.

(** The coordination pipe between the controllers: what F10 has written
    is what F11 finds, from the time of the write on. *)
Definition f11_fed_by (w10 : F10.t) (w11 : F11) : Prop :=
  coordIn w11 = F10.coord_sent (F10.log w10).

(** Two schedules that differ at most in the gate readings. *)
Definition same_lots (s1 s2 : list StepEnv) : Prop :=
  map env_lot s1 = map env_lot s2.

(* ===================================================================== *)
(** ** visualizer.cpp: drawing the lots and the vehicles *)
(* ===================================================================== *)

(** An axis-parallel rectangle: top-left corner and size, in pixels. *)
Record Rect : Type := mkRect {
  rect_x : Z; rect_y : Z; rect_w : Z; rect_h : Z
}.

Definition rect_inside (inner outer : Rect) : Prop :=
  rect_x outer <= rect_x inner /\
  rect_x inner + rect_w inner <= rect_x outer + rect_w outer /\
  rect_y outer <= rect_y inner /\
  rect_y inner + rect_h inner <= rect_y outer + rect_h outer.

(** The rectangle painted for spot [i] of the right (F10) or left (F11)
    lot: [spot.setPosition(215 + col * 40, 160 + row * 60)],
    [spotLeft.setPosition(955 - col * 40, 160 + row * 60)], size 30 x 50. *)
Definition spot_rect (left_lot : bool) (i : Z) : Rect :=
  let row := Z.quot i 5 in
  let col := Z.rem i 5 in
  mkRect (if left_lot then 955 - col * 40 else 215 + col * 40) (160 + row * 60) 30 50.

(** The rectangle painted for queue slot [i]:
    [queueSlot.setPosition(410 + i * 40, 312)],
    [queueSlotLeft.setPosition(760 - i * 40, 312)], size 35 x 25. *)
Definition queue_rect (left_lot : bool) (i : Z) : Rect :=
  mkRect (if left_lot then 760 - i * 40 else 410 + i * 40) 312 35 25.

Definition rect_centre (r : Rect) : Z * Z :=
  (rect_x r + Z.quot (rect_w r) 2, rect_y r + Z.quot (rect_h r) 2).

(** The shape drawn for a vehicle: [setSize], [setOrigin],
    [setPosition], [setRotation]. *)
Record Shape : Type := mkShape {
  shape_size : Z * Z;
  shape_origin : Z * Z;
  shape_position : float * float;
  shape_rotation : Z
}.

(** The body of the "Draw Vehicles" loop for one entry of the table
    ([None]: [continue], nothing is drawn). *)
Definition draw_vehicle (v : VehicleState.t) : option Shape :=
  if negb (VehicleState.isActive v) then None
  else if VehicleState.isInQueue v && (0 <=? VehicleState.queueIndex v)
          && (VehicleState.queueIndex v <? PARKING_QUEUE_SIZE)
  then
    Some (mkShape (30, 18) (15, 9)
            (if VehicleState.isLeftParking v
             then (fsub (float_of_int 777)
                        (fmul (float_of_int (VehicleState.queueIndex v)) (float_of_int 40)),
                   float_of_int 325)
             else (fadd (float_of_int 427)
                        (fmul (float_of_int (VehicleState.queueIndex v)) (float_of_int 40)),
                   float_of_int 325))
            0)
  else
    Some (mkShape (40, 20) (20, 10) (VehicleState.x v, VehicleState.y v)
            (if VehicleState.isParked v then 90 else 0)).

(** The pixels an unrotated shape at an integral position covers. *)
Definition shape_box (size origin pos : Z * Z) : Rect :=
  mkRect (fst pos - fst origin) (snd pos - snd origin) (fst size) (snd size).

(** Where the visualizer puts the vehicle queued at slot [q]. *)
Definition queued_at (left_lot : bool) (q : Z) : Z * Z :=
  (if left_lot then 777 - q * 40 else 427 + q * 40, 325).

(** A queued vehicle's frame is drawn in the painted slot of its index. *)
Definition drawn_in_slot (m : PipeMessage.t) : Prop :=
  match PipeMessage.data m with
  | PipeMessage.vehicle vs =>
      VehicleState.isInQueue vs = true ->
      let q := VehicleState.queueIndex vs in
      let side := VehicleState.isLeftParking vs in
      0 <= q <= 4 /\
      draw_vehicle vs =
        Some (mkShape (30, 18) (15, 9)
                (float_of_int (fst (queued_at side q)), float_of_int (snd (queued_at side q)))
                0) /\
      rect_inside (shape_box (30, 18) (15, 9) (queued_at side q)) (queue_rect side q)
  | _ => True
  end.

(** Once a spot has been granted its index is one of the lot's, and when
    the thread announces the vehicle parked it stands on the position
    computed for that spot. *)
Definition parked_at (a : Actor) : Prop :=
  match phase a with
  | ToSpot s => 0 <= s < PARKING_CAPACITY
  | AnnounceParked s =>
      0 <= s < PARKING_CAPACITY /\
      (Vehicle.x (vehicle a), Vehicle.y (vehicle a)) = spot_position (func a) s
  | _ => True
  end.

(** A frame that reports the vehicle parked puts it on the centre of one
    of the spots painted for the lot of its thread function. *)
Definition parked_on_spot (f : ThreadFunc) (m : PipeMessage.t) : Prop :=
  match PipeMessage.data m with
  | PipeMessage.vehicle vs =>
      VehicleState.isParked vs = true ->
      exists s, 0 <= s < PARKING_CAPACITY /\
        (VehicleState.x vs, VehicleState.y vs) =
          (float_of_int (fst (rect_centre (spot_rect (uses_left_lot f) s))),
           float_of_int (snd (rect_centre (spot_rect (uses_left_lot f) s))))
  | _ => True
  end.

(** The lot is coherent whenever a step of the run finds it. *)
Definition lots_coherent (a : Actor) (lot : ParkingLot) (sched : list StepEnv) : Prop :=
  Forall (fun p => lot_coherent (fst p)) (actor_lots a lot sched).

(** A CAR that F10 starts on its stop line. *)
Definition car_on_stop_line : Actor :=
  spawn vehicleThreadFunc 1 CAR 3 controller_lot 240 400 1200 400 (float_of_int 240) false.

(** The states F10's gate is set to, in order. *)
Definition f10_gates (l : list (Z * F10.Event)) : list TrafficLightState :=
  flat_map (fun e => match snd e with F10.EvGate s => [s] | _ => [] end) l.

(** A step of F10 that extends the log without writing the gate. *)
Definition f10_gate_untouched (w w' : F10.t) : Prop :=
  f10_gates (F10.log w') = f10_gates (F10.log w) /\
  F10.lightState w' = F10.lightState w.

(** ** [enterQueue] while a [waitForSpot] is under way *)

(** The lot as thread A, inside [waitForSpot(0)] on a lot whose five
    queue slots are taken, leaves it after its [sem_wait(&spots)] and
    [sem_post(&queue)] and before it takes the lock: the queue semaphore
    holds a token again, [queueSlotOccupied[0]] is still set. *)
Definition lot_in_window : ParkingLot :=
  snd (interleave 0 [ThreadA; ThreadA] WaitSemWait EnterTryWait lot_queue_full).

(** The same lot once a thread B has called [enterQueue] in that window
    and A has then finished its call. *)
Definition lot_after_window : ParkingLot :=
  snd (interleave 0 [ThreadA; ThreadA; ThreadB; ThreadB; ThreadA]
                  WaitSemWait EnterTryWait lot_queue_full).

(** ... and once the four vehicles still queued have been granted their
    spots: nobody waits any more. *)
Definition lot_drained : ParkingLot :=
  exec_ops lot_after_window
    [OpWaitForSpot 1; OpWaitForSpot 2; OpWaitForSpot 3; OpWaitForSpot 4].

(** ** The frames of [sendUpdate], by what they carry *)

(** A VEHICLE_UPDATE of vehicle [id] followed by a PARKING_UPDATE with
    the given intersection id and count, both under the frame magic. *)
Definition telemetry_pair (id intersectionId waiting : Z) (frames : list PipeMessage.t)
  : Prop :=
  exists m1 m2 vs,
    frames = [m1; m2] /\
    PipeMessage.magic m1 = MSG_MAGIC /\
    PipeMessage.type m1 = PipeMessage.VEHICLE_UPDATE /\
    PipeMessage.data m1 = PipeMessage.vehicle vs /\
    VehicleState.id vs = id /\
    PipeMessage.magic m2 = MSG_MAGIC /\
    PipeMessage.type m2 = PipeMessage.PARKING_UPDATE /\
    PipeMessage.data m2 =
      PipeMessage.parking
        {| ParkingUpdate.intersectionId := intersectionId;
           ParkingUpdate.waitingCount := waiting |}.

(** The intersection id a thread function's vehicles report. *)
Definition lot_id (f : ThreadFunc) : Z := if uses_left_lot f then 11 else 10.

(* ===================================================================== *)
(** * Properties *)
(* ===================================================================== *)

(** ** Integers and semaphores *)

Lemma int_wrap_id z : int_range z -> int_wrap z = z.
Proof.
  unfold int_range, INT_MIN, INT_MAX, int_wrap. intros H.
  rewrite Z.mod_small; lia.
Qed.

Lemma int_incr_exact z : INT_MIN <= z < INT_MAX -> int_incr z = z + 1.
Proof.
  intros H. unfold int_incr. apply int_wrap_id.
  lot_lia.
Qed.

Lemma int_decr_exact z : INT_MIN < z <= INT_MAX -> int_decr z = z - 1.
Proof.
  intros H. unfold int_decr. apply int_wrap_id.
  lot_lia.
Qed.

Lemma sem_post_exact s : s < SEM_VALUE_MAX -> sem_post s = s + 1.
Proof. intros H. unfold sem_post. destruct (Z.ltb_spec s SEM_VALUE_MAX); lia. Qed.

Lemma sem_wait_blocked s : s <= 0 -> sem_wait s = None.
Proof. intros H. unfold sem_wait. destruct (Z.ltb_spec 0 s); [lia | reflexivity]. Qed.

Lemma sem_wait_granted s : 0 < s -> sem_wait s = Some (s - 1).
Proof. intros H. unfold sem_wait. destruct (Z.ltb_spec 0 s); [reflexivity | lia]. Qed.

(** ** Bitmaps *)

Lemma popcount_bounds (l : list bool) : 0 <= popcount l <= Z.of_nat (length l).
Proof.
  induction l as [|b r IH]; simpl; [lia|].
  destruct b; unfold b2z; lia.
Qed.

Lemma popcount_replicate_false n : popcount (replicate n false) = 0.
Proof. induction n as [|n IH]; simpl; [reflexivity | rewrite IH; reflexivity]. Qed.

Lemma popcount_insert (l : list bool) i b b' :
  l !! i = Some b -> popcount (<[i:=b']> l) = popcount l - b2z b + b2z b'.
Proof.
  revert i. induction l as [|x r IH]; intros i Hi; [discriminate|].
  destruct i as [|i]; simpl in *.
  - injection Hi as ->. lia.
  - rewrite (IH i Hi). lia.
Qed.

(** A bitmap whose entries are all taken has popcount equal to its
    length. *)
Lemma popcount_all_taken (l : list bool) :
  (forall j, (j < length l)%nat -> l !! j <> Some false) ->
  popcount l = Z.of_nat (length l).
Proof.
  induction l as [|b r IH]; intros H; [reflexivity|].
  simpl length. simpl popcount. rewrite IH.
  - destruct b; [unfold b2z; lia|]. exfalso. apply (H 0%nat); simpl; [lia | reflexivity].
  - intros j Hj. apply (H (S j)). simpl. lia.
Qed.

(** What the first-fit loop computes, for any start counter. *)
Lemma claim_first_free_spec n i (occ : list bool) :
  (claim_first_free n i occ = (occ, -1) /\
   forall j, (i <= j < i + n)%nat -> occ !! j <> Some false)
  \/
  (exists k, (i <= k < i + n)%nat /\
     occ !! k = Some false /\
     (forall j, (i <= j < k)%nat -> occ !! j <> Some false) /\
     claim_first_free n i occ = (<[k:=true]> occ, Z.of_nat k)).
Proof.
  revert i. induction n as [|n IH]; intros i.
  - left. split; [reflexivity | intros j Hj; lia].
  - simpl. destruct (occ !! i) as [[|]|] eqn:E.
    + destruct (IH (S i)) as [[Heq Hall] | (k & Hk & Hfree & Hlow & Heq)].
      * left. split; [exact Heq|]. intros j Hj.
        destruct (decide (j = i)) as [->|Hne]; [congruence | apply Hall; lia].
      * right. exists k. repeat split; try lia; try assumption.
        intros j Hj. destruct (decide (j = i)) as [->|Hne]; [congruence | apply Hlow; lia].
    + right. exists i. repeat split; try lia; try assumption.
    + destruct (IH (S i)) as [[Heq Hall] | (k & Hk & Hfree & Hlow & Heq)].
      * left. split; [exact Heq|]. intros j Hj.
        destruct (decide (j = i)) as [->|Hne]; [congruence | apply Hall; lia].
      * right. exists k. repeat split; try lia; try assumption.
        intros j Hj. destruct (decide (j = i)) as [->|Hne]; [congruence | apply Hlow; lia].
Qed.

(** With a free entry left, the scan over the whole array claims the
    lowest one. *)
Lemma claim_first_free_finds (occ : list bool) :
  popcount occ < Z.of_nat (length occ) ->
  exists k, (k < length occ)%nat /\
    occ !! k = Some false /\
    (forall j, (j < k)%nat -> occ !! j = Some true) /\
    claim_first_free (length occ) 0 occ = (<[k:=true]> occ, Z.of_nat k).
Proof.
  intros Hpc.
  destruct (claim_first_free_spec (length occ) 0 occ)
    as [[_ Hall] | (k & Hk & Hfree & Hlow & Heq)].
  - rewrite popcount_all_taken in Hpc; [lia|].
    intros j Hj. apply Hall. lia.
  - exists k. repeat split; try lia; try assumption.
    intros j Hj.
    assert (Hlt : (j < length occ)%nat) by lia.
    destruct (lookup_lt_is_Some_2 occ j Hlt) as [b Hb].
    destruct b; [exact Hb|]. exfalso. apply (Hlow j); [lia | exact Hb].
Qed.

Lemma claim_first_free_full (occ : list bool) :
  popcount occ = Z.of_nat (length occ) ->
  claim_first_free (length occ) 0 occ = (occ, -1).
Proof.
  intros Hpc.
  destruct (claim_first_free_spec (length occ) 0 occ)
    as [[Heq _] | (k & Hk & Hfree & Hlow & Heq)]; [exact Heq|].
  exfalso.
  pose proof (popcount_insert occ k false true Hfree) as Hins.
  pose proof (popcount_bounds (<[k:=true]> occ)) as Hb.
  rewrite length_insert in Hb. unfold b2z in Hins. lia.
Qed.

Lemma clear_guarded_in N i (occ : list bool) :
  0 <= i < N -> clear_guarded N i occ = <[Z.to_nat i:=false]> occ.
Proof.
  intros H. unfold clear_guarded.
  destruct (Z.leb_spec 0 i); [|lia]. destruct (Z.ltb_spec i N); [reflexivity | lia].
Qed.

Lemma clear_guarded_out N i (occ : list bool) :
  i < 0 \/ N <= i -> clear_guarded N i occ = occ.
Proof.
  intros H. unfold clear_guarded.
  destruct (Z.leb_spec 0 i); [|reflexivity]. destruct (Z.ltb_spec i N); [lia | reflexivity].
Qed.

Lemma clear_guarded_length N i (occ : list bool) :
  length (clear_guarded N i occ) = length occ.
Proof.
  unfold clear_guarded. destruct (_ && _); [apply length_insert | reflexivity].
Qed.

(** ** ParkingLot *)

Lemma lot_coherent_new : lot_coherent ParkingLot_new.
Proof. unfold lot_coherent. simpl. repeat split; reflexivity. Qed.

Lemma lot_coherent_queue l : lot_coherent l -> queue_coherent l.
Proof. unfold lot_coherent, queue_coherent. tauto. Qed.

Lemma lot_coherent_inv l : lot_coherent l -> lot_inv l.
Proof.
  unfold lot_coherent, lot_inv. intros (Hls & Hlq & Ho & Hw & _ & _).
  pose proof (popcount_bounds (spotOccupied l)) as Hb1.
  pose proof (popcount_bounds (queueSlotOccupied l)) as Hb2.
  rewrite Hls in Hb1. rewrite Hlq in Hb2.
  lot_lia.
Qed.

(** [enterQueue] on a lot whose queue semaphore is exhausted. *)
Lemma enterQueue_reject l : queue l <= 0 -> enterQueue l = (-1, l).
Proof.
  intros H. unfold enterQueue, sem_trywait.
  destruct (Z.ltb_spec 0 (queue l)); [lia | reflexivity].
Qed.

(** [enterQueue] with a queue slot left. *)
Lemma enterQueue_accept l :
  queue_coherent l ->
  popcount (queueSlotOccupied l) < PARKING_QUEUE_SIZE ->
  exists k, (k < Z.to_nat PARKING_QUEUE_SIZE)%nat /\
    queueSlotOccupied l !! k = Some false /\
    (forall j, (j < k)%nat -> queueSlotOccupied l !! j = Some true) /\
    enterQueue l =
      (Z.of_nat k,
       {| spots := spots l;
          queue := queue l - 1;
          occupiedSpots := occupiedSpots l;
          waitingCount := waitingCount l + 1;
          spotOccupied := spotOccupied l;
          queueSlotOccupied := <[k:=true]> (queueSlotOccupied l) |}).
Proof.
  intros (Hlen & Hw & Hq) Hpc.
  destruct (claim_first_free_finds (queueSlotOccupied l)) as (k & Hk & Hfree & Hlow & Heq).
  { rewrite Hlen. lot_lia. }
  exists k. rewrite Hlen in Hk, Heq. repeat split; try assumption.
  unfold enterQueue, sem_trywait.
  pose proof (popcount_bounds (queueSlotOccupied l)) as Hb.
  destruct (Z.ltb_spec 0 (queue l)) as [_|Hn]; [|lia].
  rewrite Heq. rewrite int_incr_exact; [reflexivity|].
  lot_lia.
Qed.

Lemma enterQueue_accept_coherent l k :
  queue_coherent l ->
  queueSlotOccupied l !! k = Some false ->
  queue_coherent
    {| spots := spots l;
       queue := queue l - 1;
       occupiedSpots := occupiedSpots l;
       waitingCount := waitingCount l + 1;
       spotOccupied := spotOccupied l;
       queueSlotOccupied := <[k:=true]> (queueSlotOccupied l) |}.
Proof.
  intros (Hlen & Hw & Hq) Hfree. unfold queue_coherent. simpl.
  rewrite length_insert, (popcount_insert _ _ _ _ Hfree). unfold b2z.
  repeat split; [assumption | lia | lia].
Qed.


Lemma queue_empty_coherent l : queue_empty l -> queue_coherent l.
Proof.
  intros (Hq & Hw & Hs). unfold queue_coherent. rewrite Hq, Hw, Hs.
  rewrite length_replicate, popcount_replicate_false.
  unfold PARKING_QUEUE_SIZE. repeat split; lia.
Qed.

(** [waitForSpot] on a coherent lot with a spot left: the call is not
    suspended, and the record it leaves is the one written out here. *)
Lemma waitForSpot_granted l q :
  lot_coherent l ->
  0 < spots l ->
  exists k, (k < Z.to_nat PARKING_CAPACITY)%nat /\
    spotOccupied l !! k = Some false /\
    (forall j, (j < k)%nat -> spotOccupied l !! j = Some true) /\
    waitForSpot l q =
      Some (Z.of_nat k,
            {| spots := spots l - 1;
               queue := queue l + 1;
               occupiedSpots := occupiedSpots l + 1;
               waitingCount := int_decr (waitingCount l);
               spotOccupied := <[k:=true]> (spotOccupied l);
               queueSlotOccupied :=
                 clear_guarded PARKING_QUEUE_SIZE q (queueSlotOccupied l) |}).
Proof.
  intros (Hls & Hlq & Ho & Hw & Hs & Hq) Hpos.
  pose proof (popcount_bounds (spotOccupied l)) as Hb1.
  pose proof (popcount_bounds (queueSlotOccupied l)) as Hb2.
  rewrite Hls in Hb1. rewrite Hlq in Hb2.
  destruct (claim_first_free_finds (spotOccupied l)) as (k & Hk & Hfree & Hlow & Heq).
  { rewrite Hls. lot_lia. }
  exists k. rewrite Hls in Hk, Heq. repeat split; try assumption.
  unfold waitForSpot. rewrite (sem_wait_granted _ Hpos). rewrite Heq.
  rewrite sem_post_exact, int_incr_exact; [reflexivity | |];
    lot_lia.
Qed.

Lemma lot_coherent_enterQueue l : lot_coherent l -> lot_coherent (snd (enterQueue l)).
Proof.
  intros Hc. pose proof (lot_coherent_queue l Hc) as Hqc.
  pose proof (popcount_bounds (queueSlotOccupied l)) as Hb.
  destruct Hc as (Hls & Hlq & Ho & Hw & Hs & Hq). rewrite Hlq in Hb.
  destruct (Z_lt_le_dec (popcount (queueSlotOccupied l)) PARKING_QUEUE_SIZE) as [Hlt|Hge].
  - destruct (enterQueue_accept l Hqc Hlt) as (k & Hk & Hfree & _ & Heq).
    rewrite Heq. unfold lot_coherent. simpl.
    rewrite length_insert, (popcount_insert _ _ _ _ Hfree). unfold b2z.
    repeat split; try assumption; lia.
  - rewrite enterQueue_reject; [simpl; unfold lot_coherent; tauto|].
    lot_lia.
Qed.

Lemma lot_coherent_waitForSpot l q :
  lot_coherent l ->
  op_permitted l (OpWaitForSpot q) ->
  lot_coherent (run_op l (OpWaitForSpot q)).
Proof.
  intros Hc [Hq Hheld]. simpl.
  destruct (Z_lt_le_dec 0 (spots l)) as [Hpos|Hz].
  - destruct (waitForSpot_granted l q Hc Hpos) as (k & Hk & Hfree & _ & Heq).
    rewrite Heq. destruct Hc as (Hls & Hlq & Ho & Hw & Hs & Hqs).
    pose proof (popcount_bounds (queueSlotOccupied l)) as Hb. rewrite Hlq in Hb.
    pose proof (popcount_insert _ _ _ false Hheld) as Hpq.
    unfold lot_coherent. simpl.
    rewrite (clear_guarded_in _ _ _ Hq).
    rewrite !length_insert, (popcount_insert _ _ _ _ Hfree), Hpq. unfold b2z in *.
    rewrite int_decr_exact;
      [| lot_lia].
    repeat split; try assumption; lia.
  - unfold waitForSpot. rewrite (sem_wait_blocked _ Hz). exact Hc.
Qed.

Lemma lot_coherent_leave l s :
  lot_coherent l ->
  op_permitted l (OpLeave s) ->
  lot_coherent (leave l s).
Proof.
  intros (Hls & Hlq & Ho & Hw & Hs & Hqs) [Hr Hheld].
  pose proof (popcount_bounds (spotOccupied l)) as Hb. rewrite Hls in Hb.
  pose proof (popcount_insert _ _ _ false Hheld) as Hps.
  unfold lot_coherent, leave. simpl.
  rewrite (clear_guarded_in _ _ _ Hr), length_insert, Hps. unfold b2z in *.
  rewrite int_decr_exact, sem_post_exact;
    try lot_lia.
Qed.

Lemma lot_coherent_run_op l op :
  lot_coherent l -> op_permitted l op -> lot_coherent (run_op l op).
Proof.
  destruct op as [|q|s]; intros Hc Hp.
  - apply lot_coherent_enterQueue, Hc.
  - apply lot_coherent_waitForSpot; assumption.
  - apply lot_coherent_leave; assumption.
Qed.

Lemma lot_coherent_run_ops ops : forall l,
  lot_coherent l -> ops_permitted l ops -> Forall lot_coherent (run_ops l ops).
Proof.
  induction ops as [|op r IH]; intros l Hc Hp; simpl.
  - constructor.
  - destruct Hp as [Hp Hr].
    pose proof (lot_coherent_run_op l op Hc Hp) as Hc'.
    constructor; [exact Hc' | apply IH; assumption].
Qed.

(** *** C1: [leave] with an index out of range *)

(** C1, as stated, fails: on a lot holding one parked vehicle,
    [leave(10)] skips the bitmap store but still decrements
    [occupiedSpots] (1 to 0) and posts the [spots] semaphore (9 to 10),
    so the lot is not left unchanged. *)
Lemma leave_out_of_range_changes_lot :
  occupiedSpots lot_one_parked = 1 /\
  spots lot_one_parked = 9 /\
  occupiedSpots (leave lot_one_parked 10) = 0 /\
  spots (leave lot_one_parked 10) = 10 /\
  spotOccupied (leave lot_one_parked 10) = spotOccupied lot_one_parked /\
  leave lot_one_parked 10 <> lot_one_parked.
Proof.
  repeat split; try reflexivity.
  intros H. apply (f_equal occupiedSpots) in H. vm_compute in H. discriminate.
Qed.

(** C1, amended.  [leave] is total (it never faults).  With an index
    outside [0, 10) the bounds check skips the bitmap store, and the
    queue side of the lot is untouched, but [occupiedSpots] is still
    decremented and the [spots] semaphore still posted; with an index in
    range the same happens and that bitmap entry is cleared as well. *)
Theorem leave_out_of_range l i :
  INT_MIN < occupiedSpots l <= INT_MAX ->
  spots l < SEM_VALUE_MAX ->
  (i < 0 \/ PARKING_CAPACITY <= i ->
     spotOccupied (leave l i) = spotOccupied l) /\
  (0 <= i < PARKING_CAPACITY ->
     spotOccupied (leave l i) = <[Z.to_nat i:=false]> (spotOccupied l)) /\
  occupiedSpots (leave l i) = occupiedSpots l - 1 /\
  spots (leave l i) = spots l + 1 /\
  queue (leave l i) = queue l /\
  waitingCount (leave l i) = waitingCount l /\
  queueSlotOccupied (leave l i) = queueSlotOccupied l.
Proof.
  intros Ho Hs. unfold leave. simpl.
  rewrite (int_decr_exact _ Ho), (sem_post_exact _ Hs).
  repeat split.
  - apply clear_guarded_out.
  - apply clear_guarded_in.
Qed.

Lemma leave_out_of_range_witness :
  (INT_MIN < occupiedSpots lot_one_parked <= INT_MAX) /\
  spots lot_one_parked < SEM_VALUE_MAX /\
  spotOccupied (leave lot_one_parked (-1)) = spotOccupied lot_one_parked /\
  occupiedSpots (leave lot_one_parked (-1)) = occupiedSpots lot_one_parked - 1.
Proof.
  assert (Ho : INT_MIN < occupiedSpots lot_one_parked <= INT_MAX)
    by (vm_compute; split; [reflexivity | discriminate]).
  assert (Hs : spots lot_one_parked < SEM_VALUE_MAX) by reflexivity.
  destruct (leave_out_of_range lot_one_parked (-1) Ho Hs) as (Hout & _ & Hocc & _).
  split; [exact Ho|]. split; [exact Hs|]. split; [|exact Hocc].
  apply Hout. left. reflexivity.
Defined.

(** *** C2: the lot invariant along sequences of operations *)

(** C2, as stated, fails: on a fresh lot a [leave(0)] that matches no
    earlier [waitForSpot] drives [occupiedSpots] to -1, and a
    [waitForSpot(0)] that matches no earlier [enterQueue] drives
    [waitingCount] to -1. *)
Lemma lot_inv_broken_by_unmatched_call :
  occupiedSpots (run_op ParkingLot_new (OpLeave 0)) = -1 /\
  ~ Forall lot_inv (run_ops ParkingLot_new [OpLeave 0]) /\
  waitingCount (run_op ParkingLot_new (OpWaitForSpot 0)) = -1 /\
  ~ Forall lot_inv (run_ops ParkingLot_new [OpWaitForSpot 0]).
Proof.
  repeat split; try reflexivity.
  - intros H. apply Forall_cons_1 in H as [(_ & _ & Hocc & _) _].
    vm_compute in Hocc. destruct Hocc as [Hocc _]. apply Hocc. reflexivity.
  - intros H. apply Forall_cons_1 in H as [(_ & _ & _ & Hw) _].
    vm_compute in Hw. destruct Hw as [Hw _]. apply Hw. reflexivity.
Qed.

(** C2, amended.  From any coherent lot (the constructor's lot is one),
    along every sequence of [enterQueue], [waitForSpot] and [leave] calls
    in which [waitForSpot] is passed a taken queue slot and [leave] a
    taken spot, the invariant holds after each operation:
    [occupiedSpots] and [waitingCount] are the popcounts of their
    bitmaps and lie in 0..10 and 0..5. *)
Theorem lot_inv_after_each_operation l ops :
  lot_coherent l ->
  ops_permitted l ops ->
  Forall lot_inv (run_ops l ops).
Proof.
  intros Hc Hp.
  eapply Forall_impl; [apply lot_coherent_run_ops; eassumption|].
  intros l'. apply lot_coherent_inv.
Qed.

Lemma lot_inv_after_each_operation_witness :
  lot_coherent ParkingLot_new /\
  ops_permitted ParkingLot_new
    [OpEnterQueue; OpEnterQueue; OpWaitForSpot 0; OpLeave 0; OpWaitForSpot 1] /\
  Forall lot_inv
    (run_ops ParkingLot_new
       [OpEnterQueue; OpEnterQueue; OpWaitForSpot 0; OpLeave 0; OpWaitForSpot 1]).
Proof.
  assert (Hp : ops_permitted ParkingLot_new
            [OpEnterQueue; OpEnterQueue; OpWaitForSpot 0; OpLeave 0; OpWaitForSpot 1]).
  { cbn. repeat split; try reflexivity; try discriminate. }
  assert (Hc : lot_coherent ParkingLot_new)
    by (unfold lot_coherent; cbn; repeat split; reflexivity).
  split; [exact Hc|]. split; [exact Hp|].
  apply lot_inv_after_each_operation; [exact Hc | exact Hp].
Defined.

(** *** C3: [enterQueue] against a [waitForSpot] under way *)

(** C3 does not hold of the code.  [waitForSpot] gives the queue token
    back ([sem_post(&queue)]) before it clears its queue slot under the
    lock, so between the two another thread's [enterQueue] finds the
    semaphore open and every slot still taken.  On the lot in that
    window, with all 5 slots taken, [enterQueue] returns -1 but does not
    leave the lot unchanged: it has consumed the token and counted the
    rejected caller into [waitingCount], now 6.  Once the [waitForSpot]
    has finished, slot 0 is free, yet [enterQueue] returns -1 and will
    for every later caller.  Once the other four vehicles have left the
    queue too, the queue is empty, [waitingCount] stands at 1, and of 8
    calls in a row only 4 are accepted. *)
Theorem enterQueue_rejected_caller_is_counted :
  lot_in_window = set_queue_sem (set_spots_sem lot_queue_full 9) 1 /\
  popcount (queueSlotOccupied lot_in_window) = PARKING_QUEUE_SIZE /\
  waitingCount lot_in_window = 5 /\
  fst (enterQueue lot_in_window) = -1 /\
  snd (enterQueue lot_in_window) <> lot_in_window /\
  waitingCount (snd (enterQueue lot_in_window)) = 6 /\
  queue (snd (enterQueue lot_in_window)) = 0 /\
  lot_after_window
    = snd (waitForSpot_action 0 WaitLocked (snd (enterQueue lot_in_window))) /\
  queueSlotOccupied lot_after_window = [false; true; true; true; true] /\
  enterQueue lot_after_window = (-1, lot_after_window) /\
  queueSlotOccupied lot_drained = replicate 5 false /\
  waitingCount lot_drained = 1 /\
  count_accepted (fst (enterQueue_n 8 lot_drained)) = 4%nat /\
  count_rejected (fst (enterQueue_n 8 lot_drained)) = 4%nat.
Proof.
  split; [vm_compute; reflexivity|].
  split; [vm_compute; reflexivity|].
  split; [vm_compute; reflexivity|].
  split; [vm_compute; reflexivity|].
  split.
  { intros H. apply (f_equal waitingCount) in H. vm_compute in H. discriminate H. }
  repeat (split; [vm_compute; reflexivity|]). vm_compute. reflexivity.
Qed.

(** *** C4: [waitForSpot] *)

(** C4.  On a coherent lot, for a caller holding queue slot
    [queueIndex]: while no spot is free the call is suspended in
    [sem_wait(&spots)], its first atomic action, and nothing of the lot,
    the caller's queue slot included, has changed; once a spot is free
    the call posts the queue
    semaphore, clears the caller's queue bitmap entry, decrements
    [waitingCount], increments [occupiedSpots], marks the lowest free
    spot taken and returns its index. *)
Theorem waitForSpot_grant l queueIndex :
  lot_coherent l ->
  0 <= queueIndex < PARKING_QUEUE_SIZE ->
  queueSlotOccupied l !! Z.to_nat queueIndex = Some true ->
  (spots l = 0 ->
     waitForSpot l queueIndex = None /\
     run_op l (OpWaitForSpot queueIndex) = l /\
     waitForSpot_action queueIndex WaitSemWait l = (WaitSemWait, l)) /\
  (0 < spots l ->
     exists k, (k < 10)%nat /\
       spotOccupied l !! k = Some false /\
       (forall j, (j < k)%nat -> spotOccupied l !! j = Some true) /\
       waitForSpot l queueIndex =
         Some (Z.of_nat k,
               {| spots := spots l - 1;
                  queue := queue l + 1;
                  occupiedSpots := occupiedSpots l + 1;
                  waitingCount := waitingCount l - 1;
                  spotOccupied := <[k:=true]> (spotOccupied l);
                  queueSlotOccupied :=
                    <[Z.to_nat queueIndex:=false]> (queueSlotOccupied l) |})).
Proof.
  intros Hc Hq Hheld. split.
  - intros Hz. assert (Hn : waitForSpot l queueIndex = None).
    { unfold waitForSpot. rewrite sem_wait_blocked; [reflexivity | lia]. }
    split; [exact Hn|]. split; [simpl; rewrite Hn; reflexivity|].
    unfold waitForSpot_action. rewrite sem_wait_blocked; [reflexivity | lia].
  - intros Hpos.
    destruct (waitForSpot_granted l queueIndex Hc Hpos) as (k & Hk & Hfree & Hlow & Heq).
    exists k. change (Z.to_nat PARKING_CAPACITY) with 10%nat in Hk.
    repeat split; try assumption.
    rewrite Heq, (clear_guarded_in _ _ _ Hq).
    destruct Hc as (_ & Hlq & _ & Hw & _ & _).
    pose proof (popcount_insert _ _ _ false Hheld) as Hp.
    pose proof (popcount_bounds (<[Z.to_nat queueIndex:=false]> (queueSlotOccupied l))) as Hb.
    rewrite length_insert, Hlq in Hb. unfold b2z in Hp.
    rewrite int_decr_exact; [reflexivity|].
    lot_lia.
Qed.

Lemma waitForSpot_grant_witness :
  lot_coherent (snd (enterQueue ParkingLot_new)) /\
  exists k l', (k < 10)%nat /\
    waitForSpot (snd (enterQueue ParkingLot_new)) 0 = Some (Z.of_nat k, l').
Proof.
  assert (Hc : lot_coherent (snd (enterQueue ParkingLot_new)))
    by (unfold lot_coherent; vm_compute; repeat split; reflexivity).
  split; [exact Hc|].
  destruct (waitForSpot_grant (snd (enterQueue ParkingLot_new)) 0 Hc) as [_ Hg];
    [split; [discriminate | reflexivity] | reflexivity |].
  destruct (Hg eq_refl) as (k & Hk & _ & _ & Heq).
  exists k. eexists. split; [exact Hk | exact Heq].
Defined.

(** *** The calls under interleaving *)

(** Run back to back, the atomic actions of [enterQueue] make up the
    whole call. *)
Lemma enterQueue_actions l :
  let '(pc1, l1) := enterQueue_action EnterTryWait l in
  let '(pc2, l2) := enterQueue_action pc1 l1 in
  (pc2, l2) = (EnterReturned (fst (enterQueue l)), snd (enterQueue l)).
Proof.
  unfold enterQueue_action, enterQueue.
  destruct (sem_trywait (queue l)) as [q'|]; [|reflexivity].
  cbn [queueSlotOccupied set_queue_sem].
  destruct (claim_first_free _ 0 (queueSlotOccupied l)) as [occ' idx]. reflexivity.
Qed.

(** Likewise for [waitForSpot]; a suspended call stays at its
    [sem_wait]. *)
Lemma waitForSpot_actions l q :
  let '(pc1, l1) := waitForSpot_action q WaitSemWait l in
  let '(pc2, l2) := waitForSpot_action q pc1 l1 in
  let '(pc3, l3) := waitForSpot_action q pc2 l2 in
  match waitForSpot l q with
  | Some (spotIndex, l') => (pc3, l3) = (WaitReturned spotIndex, l')
  | None => (pc3, l3) = (WaitSemWait, l)
  end.
Proof.
  unfold waitForSpot.
  destruct (sem_wait (spots l)) as [s'|] eqn:Hs; cbn [waitForSpot_action]; rewrite Hs.
  - cbn [waitForSpot_action spotOccupied set_spots_sem set_queue_sem].
    destruct (claim_first_free _ 0 (spotOccupied l)) as [socc' idx]. reflexivity.
  - cbn [waitForSpot_action]. rewrite Hs. cbn [waitForSpot_action]. rewrite Hs.
    reflexivity.
Qed.

(** The queue semaphore and the queue bitmap are only written by the
    actions that follow a successful [sem_wait(&spots)]. *)
Lemma waitForSpot_action_suspended l q :
  spots l <= 0 -> waitForSpot_action q WaitSemWait l = (WaitSemWait, l).
Proof.
  intros H. unfold waitForSpot_action. rewrite (sem_wait_blocked _ H). reflexivity.
Qed.

(** Between the [sem_post(&queue)] of a [waitForSpot] and its section
    under the lock, the caller's bitmap entry is still set.  An
    [enterQueue] of another thread that runs in this window passes
    [sem_trywait], counts itself into [waitingCount] (now 6), finds no
    free entry and returns -1; afterwards [waitingCount] stays one above
    the popcount of the queue bitmap and the queue semaphore one
    short. *)
Lemma enterQueue_in_waitForSpot_window :
  lot_coherent lot_queue_full /\
  queueSlotOccupied lot_queue_full !! 0%nat = Some true /\
  (let '(_, b, l) :=
     interleave 0 [ThreadA; ThreadA; ThreadB; ThreadB]
                WaitSemWait EnterTryWait lot_queue_full in
   b = EnterReturned (-1) /\ waitingCount l = 6) /\
  (let '(a, b, l) :=
     interleave 0 [ThreadA; ThreadA; ThreadB; ThreadB; ThreadA]
                WaitSemWait EnterTryWait lot_queue_full in
   a = WaitReturned 0 /\ b = EnterReturned (-1) /\
   waitingCount l = 5 /\ popcount (queueSlotOccupied l) = 4 /\ queue l = 0).
Proof.
  split.
  { unfold lot_coherent. vm_compute. repeat split; reflexivity. }
  split; [reflexivity|]. split; vm_compute; repeat split; reflexivity.
Qed.

(** *** Concurrent [enterQueue] calls *)









(** *** [enterQueue] on a coherent queue side *)



(** ** Vehicle threads *)

Lemma enterQueue_result_range lot :
  fst (enterQueue lot) = -1 \/ 0 <= fst (enterQueue lot) <= 4.
Proof.
  unfold enterQueue. destruct (sem_trywait (queue lot)); [|left; reflexivity].
  destruct (claim_first_free_spec (Z.to_nat PARKING_QUEUE_SIZE) 0 (queueSlotOccupied lot))
    as [[Heq _] | (k & Hk & _ & _ & Heq)]; rewrite Heq; simpl.
  - left. reflexivity.
  - right. change (Z.to_nat PARKING_QUEUE_SIZE) with 5%nat in Hk. lia.
Qed.

Lemma coherent_at_fields p v :
  coherent_at p v ->
  queue_fields_coherent (Vehicle.isInQueue v) (Vehicle.queueIndex v).
Proof.
  unfold queue_fields_coherent.
  destruct p; simpl; intros H; destruct H as (Hq & Hi);
    rewrite Hq; split; try split; intros; try discriminate; try lia; try reflexivity.
Qed.

Lemma vehicle_frame_coherent v parked :
  queue_fields_coherent (Vehicle.isInQueue v) (Vehicle.queueIndex v) ->
  frame_coherent (vehicle_frame v parked).
Proof.
  intros H. unfold frame_coherent, vehicle_frame.
  destruct (getColor (Vehicle.type v)) as [[r g] b]. exact H.
Qed.

Lemma sendUpdate_coherent v lot parked :
  queue_fields_coherent (Vehicle.isInQueue v) (Vehicle.queueIndex v) ->
  Forall frame_coherent (sendUpdate v lot parked).
Proof.
  intros H. unfold sendUpdate. constructor; [apply vehicle_frame_coherent, H|].
  destruct (Vehicle.parkingLot v); repeat constructor.
Qed.

(** The two outcomes of a drive iteration. *)
Lemma drive_cases a lot target next :
  exists x' y',
    let v' := Vehicle.set_pos (vehicle a) x' y' in
    (moveTowards (Vehicle.x (vehicle a)) (Vehicle.y (vehicle a))
                 (fst target) (snd target) (Vehicle.speed (vehicle a)) = (true, (x', y')) /\
     drive a lot target next = (goto (with_vehicle a v') next, lot, []))
    \/
    (moveTowards (Vehicle.x (vehicle a)) (Vehicle.y (vehicle a))
                 (fst target) (snd target) (Vehicle.speed (vehicle a)) = (false, (x', y')) /\
     drive a lot target next = (with_vehicle a v', lot, sendUpdate v' lot false)).
Proof.
  unfold drive.
  destruct (moveTowards _ _ _ _ _) as [reached [x' y']].
  exists x', y'. destruct reached; [left | right]; split; reflexivity.
Qed.

Lemma coherent_at_set_pos p v x' y' :
  coherent_at p (Vehicle.set_pos v x' y') <-> coherent_at p v.
Proof. destruct p; simpl; tauto. Qed.

Lemma drive_coherent a lot target next :
  coherent_at (phase a) (vehicle a) ->
  coherent_at next (vehicle a) ->
  actor_coherent (fst (fst (drive a lot target next))) /\
  Forall frame_coherent (snd (drive a lot target next)).
Proof.
  intros Hcur Hnext.
  destruct (drive_cases a lot target next) as (x' & y' & [[_ ->] | [_ ->]]); simpl.
  - split; [|constructor]. unfold actor_coherent. simpl.
    apply coherent_at_set_pos, Hnext.
  - split.
    + unfold actor_coherent. simpl. apply coherent_at_set_pos, Hcur.
    + apply sendUpdate_coherent.
      apply (coherent_at_fields (phase a)), coherent_at_set_pos, Hcur.
Qed.

(** One step keeps the fields coherent, in the thread and in every frame
    it writes. *)
Lemma actor_step_coherent a state lot :
  actor_coherent a ->
  actor_coherent (fst (fst (actor_step a state lot))) /\
  Forall frame_coherent (snd (actor_step a state lot)).
Proof.
  intros Hc. unfold actor_coherent in Hc.
  pose proof (coherent_at_fields _ _ Hc) as Hf.
  unfold actor_step.
  destruct (phase a) eqn:Hp; simpl in Hc;
    try (apply drive_coherent; rewrite ?Hp; simpl; assumption).
  - (* ToStopLine *)
    apply drive_coherent; rewrite ?Hp; [exact Hc|].
    destruct (func a); exact Hc.
  - (* PauseAtF11 *) split; [exact Hc | constructor].
  - (* CheckLight *)
    destruct (may_pass state (vehicle a)).
    + split; [|constructor]. unfold actor_coherent. simpl.
      destruct (willPark (vehicle a)); exact Hc.
    + split; [simpl; unfold actor_coherent; rewrite Hp; exact Hc|].
      destruct (func a); first [apply sendUpdate_coherent, Hf | constructor].
  - (* EnterQueue *)
    pose proof (enterQueue_result_range lot) as Hr.
    destruct (enterQueue lot) as [queueIdx lot']. simpl in Hr.
    destruct (Z.eqb_spec queueIdx (-1)) as [->|Hne].
    + split; [exact Hc | constructor].
    + split; [|constructor]. unfold actor_coherent. simpl.
      repeat split; lia.
  - (* AnnounceQueued *)
    split; [exact Hc | apply sendUpdate_coherent, Hf].
  - (* WaitSpot *)
    destruct (waitForSpot lot queueIdx) as [[spotIndex lot']|].
    + split; [|constructor]. unfold actor_coherent. simpl. split; reflexivity.
    + split; [simpl; unfold actor_coherent; rewrite Hp; exact Hc | constructor].
  - (* AnnounceParked *)
    split; [exact Hc | apply sendUpdate_coherent, Hf].
  - (* LeaveSpot *) split; [exact Hc | constructor].
  - (* Deactivate *)
    split; [exact Hc | apply sendUpdate_coherent, Hf].
  - (* Finished *)
    split; [simpl; unfold actor_coherent; rewrite Hp; exact Hc | constructor].
Qed.

(** An invariant of single steps is an invariant of runs, whatever the
    surroundings do between the steps. *)
Section RunInvariant.
Variable I : Actor -> Prop.
Variable J : list PipeMessage.t -> Prop.
Hypothesis step_keeps :
  forall a state lot,
    I a -> I (fst (fst (actor_step a state lot))) /\ J (snd (actor_step a state lot)).

Lemma actor_run_invariant sched : forall a lot,
  I a -> Forall (fun s => I (fst s) /\ J (snd s)) (actor_run a lot sched).
Proof.
  induction sched as [|e rest IH]; intros a lot Ha; simpl; [constructor|].
  pose proof (step_keeps a (env_light e)
                (match env_lot e with Some l => l | None => lot end) Ha) as [Ha' Hfr].
  destruct (actor_step a (env_light e) _) as [[a' lot'] frames]. simpl in *.
  constructor; [split; assumption | apply IH, Ha'].
Qed.

End RunInvariant.

Lemma actor_run_coherent sched a lot :
  actor_coherent a ->
  Forall (fun s => actor_coherent (fst s) /\ Forall frame_coherent (snd s))
         (actor_run a lot sched).
Proof.
  apply (actor_run_invariant actor_coherent (Forall frame_coherent)).
  apply actor_step_coherent.
Qed.

Lemma spawn_coherent f id type pipeFd lot x y endX endY stopLine commuter :
  actor_coherent (spawn f id type pipeFd lot x y endX endY stopLine commuter).
Proof. split; reflexivity. Qed.

(** *** C9: queue membership fields *)

(** C9.  Along every run of every thread function, started on a vehicle
    as the constructor and a spawner leave it, under any gate readings
    and any interference on the lot, the vehicle's [isInQueue] and
    [queueIndex] are coherent after each step and in every
    VEHICLE_UPDATE frame written: [isInQueue] is false exactly when
    [queueIndex] is -1, and a queued vehicle carries an index in 0..4.
    The two fields change only together: to [true] and the index a
    successful [enterQueue] returned, and back to [false] and -1 when
    [waitForSpot] returns. *)
Theorem queue_fields_coherent_throughout :
  (forall f id type pipeFd lotp x y endX endY stopLine commuter lot sched,
     Forall (fun s =>
               queue_fields_coherent (Vehicle.isInQueue (vehicle (fst s)))
                                     (Vehicle.queueIndex (vehicle (fst s))) /\
               Forall frame_coherent (snd s))
            (actor_run (spawn f id type pipeFd lotp x y endX endY stopLine commuter)
                       lot sched)) /\
  (forall a state lot,
     let a' := fst (fst (actor_step a state lot)) in
     (phase a = EnterQueue -> fst (enterQueue lot) <> -1 ->
        Vehicle.isInQueue (vehicle a') = true /\
        Vehicle.queueIndex (vehicle a') = fst (enterQueue lot)) /\
     (forall q, phase a = WaitSpot q -> waitForSpot lot q <> None ->
        Vehicle.isInQueue (vehicle a') = false /\
        Vehicle.queueIndex (vehicle a') = -1) /\
     ((phase a = EnterQueue -> fst (enterQueue lot) = -1) ->
      (forall q, phase a = WaitSpot q -> waitForSpot lot q = None) ->
        Vehicle.isInQueue (vehicle a') = Vehicle.isInQueue (vehicle a) /\
        Vehicle.queueIndex (vehicle a') = Vehicle.queueIndex (vehicle a))).
Proof.
  split.
  - intros. eapply Forall_impl; [apply actor_run_coherent, spawn_coherent|].
    intros [a frames] [Ha Hf]. split; [|exact Hf].
    apply (coherent_at_fields (phase a)), Ha.
  - intros a state lot a'. subst a'. unfold actor_step. split; [|split].
    + intros Hp Hne. rewrite Hp. destruct (enterQueue lot) as [i l']. simpl in *.
      destruct (Z.eqb_spec i (-1)); [contradiction | split; reflexivity].
    + intros q Hp Hgr. rewrite Hp.
      destruct (waitForSpot lot q) as [[s l']|]; [split; reflexivity | contradiction].
    + intros Henter Hwait.
      destruct (phase a) eqn:Hp;
        try (match goal with
             | |- context [drive ?a ?l ?t ?n] =>
                 destruct (drive_cases a l t n) as (x' & y' & [[_ ->] | [_ ->]]);
                 split; reflexivity
             end);
        try (split; reflexivity).
      * destruct (may_pass state (vehicle a)); split; reflexivity.
      * specialize (Henter eq_refl). destruct (enterQueue lot) as [i l']. simpl in Henter.
        subst i. split; reflexivity.
      * rewrite (Hwait queueIdx eq_refl). split; reflexivity.
Qed.

Lemma queue_fields_coherent_throughout_witness :
  fst (enterQueue ParkingLot_new) <> -1 /\
  Vehicle.isInQueue
    (vehicle (fst (fst (actor_step (goto local_car EnterQueue) GREEN ParkingLot_new)))) = true /\
  Vehicle.queueIndex
    (vehicle (fst (fst (actor_step (goto local_car EnterQueue) GREEN ParkingLot_new))))
    = fst (enterQueue ParkingLot_new).
Proof.
  assert (Hne : fst (enterQueue ParkingLot_new) <> -1) by (vm_compute; discriminate).
  split; [exact Hne|].
  destruct queue_fields_coherent_throughout as [_ Hstep].
  destruct (Hstep (goto local_car EnterQueue) GREEN ParkingLot_new) as (Henter & _ & _).
  exact (Henter eq_refl Hne).
Defined.

(** *** C5: the park decision *)

Lemma willPark_eligible v :
  willPark v = true <->
  Vehicle.parkingLot v = controller_lot /\
  (Vehicle.type v = CAR \/ Vehicle.type v = BIKE).
Proof.
  unfold willPark. destruct (Vehicle.parkingLot v), (Vehicle.type v); simpl;
    split; intros H; try discriminate; try tauto;
    destruct H as [H1 [H2 | H2]]; discriminate.
Qed.

Lemma drive_park_inv a lot target next :
  park_inv a ->
  (attempting_parking next = true -> attempting_parking (phase a) = true) ->
  park_inv (fst (fst (drive a lot target next))).
Proof.
  intros Hinv Hnext.
  destruct (drive_cases a lot target next) as (x' & y' & [[_ ->] | [_ ->]]);
    unfold park_inv in *; simpl; intros H; apply Hinv; auto.
Qed.

Lemma actor_step_park_inv a state lot :
  park_inv a -> park_inv (fst (fst (actor_step a state lot))).
Proof.
  intros Hinv. unfold actor_step.
  destruct (phase a) eqn:Hp;
    try (apply drive_park_inv; [exact Hinv | rewrite Hp; simpl; congruence]).
  - apply drive_park_inv; [exact Hinv|]. destruct (func a); simpl; discriminate.
  - unfold park_inv. simpl. discriminate.
  - destruct (may_pass state (vehicle a)); [|exact Hinv].
    unfold park_inv. simpl. destruct (willPark (vehicle a)); simpl; congruence.
  - destruct (enterQueue lot) as [i l']. destruct (i =? -1).
    + unfold park_inv. simpl. discriminate.
    + unfold park_inv in *. rewrite Hp in Hinv. simpl. intros _. apply Hinv. reflexivity.
  - unfold park_inv in *. rewrite Hp in Hinv. simpl. exact Hinv.
  - destruct (waitForSpot lot queueIdx) as [[s l']|]; [|exact Hinv].
    unfold park_inv in *. rewrite Hp in Hinv. simpl. exact Hinv.
  - unfold park_inv in *. rewrite Hp in Hinv. simpl. exact Hinv.
  - unfold park_inv in *. rewrite Hp in Hinv. simpl. exact Hinv.
  - unfold park_inv. simpl. discriminate.
  - exact Hinv.
Qed.

Lemma actor_run_park_inv sched a lot :
  park_inv a -> Forall (fun s => park_inv (fst s)) (actor_run a lot sched).
Proof.
  intros Hinv.
  eapply Forall_impl.
  - apply (actor_run_invariant park_inv (fun _ => True)); [|exact Hinv].
    intros a' state lot' Ha'. split; [apply actor_step_park_inv, Ha' | exact Logic.I].
  - intros s [Hs _]. exact Hs.
Qed.

(** C5, as stated, fails for the local actor: in vehicle.cpp a CAR with
    a lot that passes the gate goes for the queue entrance whatever else
    happens; no [rand()] is drawn.  The random gate is in the older
    [vehicleThreadFunc] of simulation.cpp only, where an odd draw sends
    the same vehicle straight across. *)
Lemma local_actor_always_attempts_parking :
  willPark (vehicle local_car) = true /\
  (forall state lot,
     may_pass state (vehicle local_car) = true ->
     phase (fst (fst (actor_step (goto local_car CheckLight) state lot)))
       = ToQueueEntrance) /\
  Monolith.vehicleThreadFunc_parks (vehicle local_car) 1 = false.
Proof.
  split; [reflexivity|]. split; [|reflexivity].
  intros state lot Hpass.
  destruct state; [vm_compute in Hpass; discriminate | reflexivity].
Qed.

(** C5, amended.  Only a CAR or BIKE (with a lot) is ever on the parking
    path, in all four thread functions; and every thread, local or
    commuter, whose vehicle is a CAR or BIKE with a lot and which passes
    the gate does go for the queue entrance: vehicle.cpp has no random
    choice in the decision.  (The monolithic simulation.cpp gates its
    local actor by [rand() % 2 == 0] and not its commuter.) *)
Theorem park_decision :
  (forall f id type pipeFd lotp x y endX endY stopLine commuter lot sched,
     Forall (fun s =>
               attempting_parking (phase (fst s)) = true ->
               Vehicle.parkingLot (vehicle (fst s)) = controller_lot /\
               (Vehicle.type (vehicle (fst s)) = CAR \/
                Vehicle.type (vehicle (fst s)) = BIKE))
            (actor_run (spawn f id type pipeFd lotp x y endX endY stopLine commuter)
                       lot sched)) /\
  (forall a state lot,
     phase a = CheckLight ->
     may_pass state (vehicle a) = true ->
     Vehicle.parkingLot (vehicle a) = controller_lot ->
     Vehicle.type (vehicle a) = CAR \/ Vehicle.type (vehicle a) = BIKE ->
     phase (fst (fst (actor_step a state lot))) = ToQueueEntrance) /\
  (forall v r,
     Monolith.vehicleThreadFunc_parks v r = willPark v && (Z.rem r 2 =? 0) /\
     Monolith.commuterThreadFunc_parks v = willPark v).
Proof.
  split; [|split].
  - intros. eapply Forall_impl.
    + apply actor_run_park_inv. unfold park_inv. simpl. discriminate.
    + intros [a frames] Hinv Hatt. apply willPark_eligible, Hinv, Hatt.
  - intros a state lot Hp Hpass Hlot Hty.
    assert (Hw : willPark (vehicle a) = true) by (apply willPark_eligible; tauto).
    unfold actor_step. rewrite Hp, Hpass, Hw. reflexivity.
  - intros v r. unfold Monolith.vehicleThreadFunc_parks, Monolith.commuterThreadFunc_parks.
    destruct (willPark v); split; reflexivity.
Qed.

Lemma park_decision_witness :
  phase (goto local_car CheckLight) = CheckLight /\
  may_pass GREEN (vehicle (goto local_car CheckLight)) = true /\
  phase (fst (fst (actor_step (goto local_car CheckLight) GREEN ParkingLot_new)))
    = ToQueueEntrance.
Proof.
  split; [reflexivity|]. split; [reflexivity|].
  destruct park_decision as (_ & Hdec & _).
  apply Hdec; [reflexivity | reflexivity | reflexivity | left; reflexivity].
Defined.

(** *** C10: frames written by [sendUpdate] *)

Lemma sendUpdate_pair v lot parked :
  Vehicle.parkingLot v = controller_lot ->
  sendUpdate v lot parked =
    [vehicle_frame v parked;
     parking_frame (if Vehicle.isLeftParking v then 11 else 10) (waitingCount lot)].
Proof. intros Hlot. unfold sendUpdate. rewrite Hlot. reflexivity. Qed.

Lemma sendUpdate_update_pair v lot parked :
  Vehicle.parkingLot v = controller_lot -> update_pair (sendUpdate v lot parked).
Proof.
  intros Hlot. right. exists v, parked, (waitingCount lot).
  split; [exact Hlot | apply sendUpdate_pair, Hlot].
Qed.

Lemma drive_update_pair a lot target next :
  has_lot a ->
  has_lot (fst (fst (drive a lot target next))) /\
  update_pair (snd (drive a lot target next)).
Proof.
  intros Hlot.
  destruct (drive_cases a lot target next) as (x' & y' & [[_ ->] | [_ ->]]); simpl.
  - split; [exact Hlot | left; reflexivity].
  - split; [exact Hlot | apply sendUpdate_update_pair, Hlot].
Qed.

(** Every step of a thread whose vehicle has a lot writes nothing or the
    pair of frames. *)
Lemma actor_step_update_pair a state lot :
  has_lot a ->
  has_lot (fst (fst (actor_step a state lot))) /\
  update_pair (snd (actor_step a state lot)).
Proof.
  intros Hlot. unfold actor_step.
  destruct (phase a); try (apply drive_update_pair, Hlot);
    try (split; [exact Hlot | left; reflexivity]);
    try (split; [exact Hlot | apply sendUpdate_update_pair, Hlot]).
  - destruct (may_pass state (vehicle a)); [split; [exact Hlot | left; reflexivity]|].
    split; [exact Hlot|].
    destruct (func a); first [apply sendUpdate_update_pair, Hlot | left; reflexivity].
  - destruct (enterQueue lot) as [i l']. destruct (i =? -1);
      (split; [exact Hlot | left; reflexivity]).
  - destruct (waitForSpot lot queueIdx) as [[s l']|];
      (split; [exact Hlot | left; reflexivity]).
Qed.

(** ** [moveTowards] *)

Lemma fsub_self x : is_finite x = true -> fsub x x = S754_zero false.
Proof.
  destruct x as [s|s| |s m e]; try discriminate; intros _; unfold fsub; simpl.
  - destruct s; reflexivity.
  - rewrite Z.sub_diag. reflexivity.
Qed.

(** A vehicle standing on its target, with a positive speed, reports
    arrival. *)
Lemma moveTowards_at_target x y speed :
  is_finite x = true -> is_finite y = true -> is_positive speed = true ->
  moveTowards x y x y speed = (true, (x, y)).
Proof.
  intros Hx Hy Hs. unfold moveTowards.
  rewrite (fsub_self x Hx), (fsub_self y Hy).
  destruct speed as [s|s| |s m e]; try discriminate; destruct s; try discriminate;
    reflexivity.
Qed.

(** *** C8 *)


(** On the first tick of a local vehicle (from (0, 400) towards the stop
    line (240, 400) at speed 2) the step does come out exact. *)
Lemma moveTowards_first_tick_exact :
  moveTowards (float_of_int 0) (float_of_int 400)
              (float_of_int 240) (float_of_int 400) (float_of_int 2)
    = (false, (float_of_int 2, float_of_int 400)) /\
  exact_step_of_speed (float_of_int 0) (float_of_int 400)
                      (float_of_int 240) (float_of_int 400) (float_of_int 2)
                      (float_of_int 2) (float_of_int 400) = true.
Proof. split; vm_compute; reflexivity. Qed.



(** ** Frames as bytes *)

Lemma le32_value z :
  0 <= z < 2 ^ 32 ->
  z mod 256 + 256 * ((z / 256) mod 256) + 65536 * ((z / 65536) mod 256)
    + 16777216 * ((z / 16777216) mod 256) = z.
Proof.
  intros Hz. change (2 ^ 32) with 4294967296 in Hz.
  Z.div_mod_to_equations. lia.
Qed.

Lemma get_u32_le32 z rest :
  0 <= z < 2 ^ 32 -> get_u32 (le32 z ++ rest) = Some (z, rest).
Proof.
  intros Hz. unfold le32, get_u32. cbn [app].
  rewrite (le32_value z Hz). reflexivity.
Qed.

Lemma u32_of_int_range z : 0 <= u32_of_int z < 2 ^ 32.
Proof. unfold u32_of_int. apply Z.mod_pos_bound. reflexivity. Qed.

Lemma int_of_u32_of_int z : int_range z -> int_of_u32 (u32_of_int z) = z.
Proof.
  unfold int_range, INT_MIN, INT_MAX, int_of_u32, u32_of_int. intros Hz.
  change (2 ^ 32) with 4294967296. change (2 ^ 31) with 2147483648 in *.
  destruct (Z.ltb_spec (z mod 4294967296) 2147483648);
    Z.div_mod_to_equations; lia.
Qed.

Lemma get_int_le32 z rest :
  int_range z -> get_int (le32 (u32_of_int z) ++ rest) = Some (z, rest).
Proof.
  intros Hz. unfold get_int.
  rewrite (get_u32_le32 _ _ (u32_of_int_range z)), (int_of_u32_of_int z Hz).
  reflexivity.
Qed.

Lemma bool_of_byte_of_bool b : bool_of_byte (byte_of_bool b) = Some b.
Proof. destruct b; reflexivity. Qed.

(** The number of binary digits of a mantissa brackets its value. *)
Lemma digits2_pos_bounds m :
  2 ^ (Zpos (digits2_pos m) - 1) <= Zpos m < 2 ^ Zpos (digits2_pos m).
Proof.
  induction m as [m IH|m IH|]; cbn [digits2_pos].
  - rewrite Pos2Z.inj_succ.
    replace (Z.succ (Z.pos (digits2_pos m)) - 1) with (Z.succ (Z.pos (digits2_pos m) - 1)) by lia.
    rewrite !Z.pow_succ_r by lia. lia.
  - rewrite Pos2Z.inj_succ.
    replace (Z.succ (Z.pos (digits2_pos m)) - 1) with (Z.succ (Z.pos (digits2_pos m) - 1)) by lia.
    rewrite !Z.pow_succ_r by lia. lia.
  - simpl. lia.
Qed.

(** A valid finite binary32 is subnormal (exponent -149, mantissa below
    2^23) or normal (24-bit mantissa, exponent in -149..104). *)
Lemma valid_finite_cases s m e :
  valid_float (S754_finite s m e) = true ->
  (Zpos m < 2 ^ 23 /\ e = -149) \/
  (2 ^ 23 <= Zpos m < 2 ^ 24 /\ -149 <= e <= 104).
Proof.
  unfold valid_float, valid_binary, bounded, canonical_mantissa, fexp, emin,
    prec32, emax32.
  intros H. apply andb_true_iff in H as [Hc He].
  apply Z.eqb_eq in Hc. apply Z.leb_le in He.
  pose proof (digits2_pos_bounds m) as [Hlo Hhi].
  set (d := Zpos (digits2_pos m)) in *.
  assert (Hd : 0 < d) by (subst d; lia).
  destruct (Z_lt_le_dec (Zpos m) (2 ^ 23)) as [Hsub|Hnorm].
  - left. split; [exact Hsub|].
    assert (d - 1 < 23).
    { apply (Z.pow_lt_mono_r_iff 2); lia. }
    lia.
  - right.
    assert (Hd23 : 23 < d).
    { apply (Z.pow_lt_mono_r_iff 2); lia. }
    assert (d = 24) by lia.
    replace d with 24 in Hhi by lia. split; lia.
Qed.

Lemma bits_of_float_range f :
  valid_float f = true -> 0 <= bits_of_float f < 2 ^ 32.
Proof.
  destruct f as [s|s| |s m e]; intros Hv; cbn [bits_of_float].
  - destruct s; cbn; lia.
  - destruct s; cbn; lia.
  - cbn. lia.
  - destruct (valid_finite_cases s m e Hv) as [[Hm He] | [Hm He]].
    + destruct (Z.ltb_spec (Zpos m) (2 ^ 23)); [|lia].
      change (2 ^ 23) with 8388608 in *. destruct s; cbn [sign_bit]; lia.
    + destruct (Z.ltb_spec (Zpos m) (2 ^ 23)); [lia|].
      change (2 ^ 23) with 8388608 in *. change (2 ^ 24) with 16777216 in *.
      destruct s; cbn [sign_bit]; change (2 ^ 31) with 2147483648;
        change (2 ^ 32) with 4294967296; lia.
Qed.

Lemma float_of_bits_of_float f :
  valid_float f = true -> float_of_bits (bits_of_float f) = f.
Proof.
  destruct f as [s|s| |s m e]; intros Hv.
  - destruct s; reflexivity.
  - destruct s; reflexivity.
  - reflexivity.
  - destruct (valid_finite_cases s m e Hv) as [[Hm He] | [Hm He]].
    + subst e. unfold float_of_bits, bits_of_float.
      destruct (Z.ltb_spec (Zpos m) (2 ^ 23)) as [_|]; [|lia].
      change (2 ^ 23) with 8388608 in *. change (2 ^ 31) with 2147483648.
      assert (HE : ((sign_bit s + Z.pos m) / 8388608) mod 256 = 0).
      { destruct s; cbn [sign_bit]; change (2 ^ 31) with 2147483648;
          Z.div_mod_to_equations; lia. }
      assert (HM : (sign_bit s + Z.pos m) mod 8388608 = Z.pos m).
      { destruct s; cbn [sign_bit]; change (2 ^ 31) with 2147483648;
          Z.div_mod_to_equations; lia. }
      assert (HS : (2147483648 <=? sign_bit s + Z.pos m) = s).
      { destruct s; cbn [sign_bit]; change (2 ^ 31) with 2147483648.
        - apply Z.leb_le. lia.
        - apply Z.leb_gt. lia. }
      rewrite HE, HM, HS. reflexivity.
    + unfold float_of_bits, bits_of_float.
      destruct (Z.ltb_spec (Zpos m) (2 ^ 23)) as [|_]; [lia|].
      change (2 ^ 23) with 8388608 in *. change (2 ^ 24) with 16777216 in *.
      change (2 ^ 31) with 2147483648.
      set (b := sign_bit s + ((e + 150) * 8388608 + (Z.pos m - 8388608))).
      assert (HE : (b / 8388608) mod 256 = e + 150).
      { subst b. destruct s; cbn [sign_bit]; change (2 ^ 31) with 2147483648;
          Z.div_mod_to_equations; lia. }
      assert (HM : b mod 8388608 = Z.pos m - 8388608).
      { subst b. destruct s; cbn [sign_bit]; change (2 ^ 31) with 2147483648;
          Z.div_mod_to_equations; lia. }
      assert (HS : (2147483648 <=? b) = s).
      { subst b. destruct s; cbn [sign_bit]; change (2 ^ 31) with 2147483648.
        - apply Z.leb_le. lia.
        - apply Z.leb_gt. lia. }
      rewrite HE, HM, HS.
      destruct (Z.eqb_spec (e + 150) 255); [lia|].
      destruct (Z.eqb_spec (e + 150) 0); [lia|].
      replace (Z.pos m - 8388608 + 8388608) with (Z.pos m) by lia.
      replace (e + 150 - 150) with e by lia. reflexivity.
Qed.

Lemma get_float_le32 f rest :
  valid_float f = true ->
  get_float (le32 (bits_of_float f) ++ rest) = Some (f, rest).
Proof.
  intros Hv. unfold get_float.
  rewrite (get_u32_le32 _ _ (bits_of_float_range f Hv)), (float_of_bits_of_float f Hv).
  reflexivity.
Qed.

Lemma tag_of_VehicleType_range ty : 0 <= tag_of_VehicleType ty < 2 ^ 32.
Proof. destruct ty; cbn; lia. Qed.

Lemma VehicleType_of_tag_of ty : VehicleType_of_tag (tag_of_VehicleType ty) = Some ty.
Proof. destruct ty; reflexivity. Qed.

Lemma get_pad_1 b rest : get_pad 1 (b :: rest) = Some (tt, rest).
Proof. unfold get_pad. cbn [length Nat.leb]. rewrite skipn_cons, drop_0. reflexivity. Qed.

Lemma get_pad_3 a b c rest : get_pad 3 (a :: b :: c :: rest) = Some (tt, rest).
Proof. unfold get_pad. cbn [length Nat.leb]. rewrite !skipn_cons, drop_0. reflexivity. Qed.

Lemma tag_of_VehicleType_int ty :
  int_range (tag_of_VehicleType ty) /\
  u32_of_int (tag_of_VehicleType ty) = tag_of_VehicleType ty.
Proof. destruct ty; split; first [reflexivity | cbn; lot_lia]. Qed.

(** The payload [sendUpdate] writes is stored as the same
    [VehicleState], whatever the padding bytes hold. *)
Lemma read_stored_data_bytes pad vs :
  VehicleState_well_formed vs ->
  read_stored (data_bytes pad (PipeMessage.vehicle vs)) = Some (stored_of vs).
Proof.
  intros (Hid & Hr & Hg & Hb & Hq & Hx & Hy).
  unfold read_stored, data_bytes.
  rewrite (get_int_le32 _ _ Hid).
  rewrite (get_float_le32 _ _ Hx), (get_float_le32 _ _ Hy).
  rewrite (get_int_le32 _ _ Hr), (get_int_le32 _ _ Hg), (get_int_le32 _ _ Hb).
  cbn [app get_byte]. rewrite get_pad_1.
  rewrite (get_int_le32 _ _ Hq).
  cbn [app get_byte]. rewrite get_pad_3.
  rewrite <- (app_nil_r (le32 (tag_of_VehicleType _))).
  destruct (tag_of_VehicleType_int (VehicleState.type vs)) as [Hty Hu].
  rewrite <- Hu at 1. rewrite (get_int_le32 _ _ Hty).
  reflexivity.
Qed.

(** An entry stored from a [VehicleState] reads back as it. *)
Lemma VehicleState_of_stored_of vs : VehicleState_of_stored (stored_of vs) = Some vs.
Proof.
  unfold VehicleState_of_stored, stored_of. cbn.
  rewrite !bool_of_byte_of_bool, VehicleType_of_tag_of. destruct vs; reflexivity.
Qed.

Lemma vehicles_register vs st :
  vehicles (register vs st) !! VehicleState.id vs = Some vs.
Proof.
  unfold vehicles, register. cbn [table].
  rewrite lookup_omap, lookup_insert_eq. cbn. apply VehicleState_of_stored_of.
Qed.

Lemma data_bytes_length pad d : length (data_bytes pad d) = 40%nat.
Proof. destruct d; reflexivity. Qed.

Lemma frame_bytes_length pad m : length (frame_bytes pad m) = sizeof_PipeMessage.
Proof.
  unfold frame_bytes. rewrite !length_app, data_bytes_length. reflexivity.
Qed.

Lemma getColor_range ty :
  int_range (fst (fst (getColor ty))) /\
  int_range (snd (fst (getColor ty))) /\
  int_range (snd (getColor ty)).
Proof. destruct ty; cbn; unfold int_range, INT_MIN, INT_MAX; lia. Qed.

Lemma state_of_well_formed v parked :
  vehicle_well_formed v -> VehicleState_well_formed (state_of v parked).
Proof.
  intros (Hid & Hq & Hx & Hy).
  pose proof (getColor_range (Vehicle.type v)) as (Hr & Hg & Hb).
  unfold state_of, vehicle_frame.
  destruct (getColor (Vehicle.type v)) as [[r g] b]. cbn [fst snd] in *.
  unfold VehicleState_well_formed. cbn [PipeMessage.data VehicleState.id
    VehicleState.colorR VehicleState.colorG VehicleState.colorB
    VehicleState.queueIndex VehicleState.x VehicleState.y].
  repeat (split; [assumption|]). assumption.
Qed.

Lemma vehicle_frame_data v parked :
  vehicle_frame v parked =
    {| PipeMessage.magic := MSG_MAGIC;
       PipeMessage.type := PipeMessage.VEHICLE_UPDATE;
       PipeMessage.data := PipeMessage.vehicle (state_of v parked) |}.
Proof.
  unfold state_of, vehicle_frame.
  destruct (getColor (Vehicle.type v)) as [[r g] b]. reflexivity.
Qed.

(** One [read] that returns a whole VEHICLE_UPDATE frame. *)
Lemma on_read_vehicle_frame p pad v parked st :
  vehicle_well_formed v ->
  on_read p (frame_bytes pad (vehicle_frame v parked)) st =
    register (state_of v parked) st.
Proof.
  intros Hwf. unfold on_read.
  rewrite frame_bytes_length, Nat.eqb_refl. cbn [negb].
  rewrite vehicle_frame_data. unfold frame_bytes. cbn [PipeMessage.magic
    PipeMessage.type PipeMessage.data tag_of_Type].
  rewrite get_u32_le32 by (unfold MSG_MAGIC; lia).
  rewrite Z.eqb_refl. cbn [negb].
  rewrite get_u32_le32 by lia.
  rewrite Z.eqb_refl.
  rewrite (read_stored_data_bytes pad _ (state_of_well_formed v parked Hwf)).
  reflexivity.
Qed.

(** One [read] that returns fewer than 48 bytes: nothing is interpreted. *)
Lemma on_read_short p buf st :
  (length buf < sizeof_PipeMessage)%nat -> on_read p buf st = st.
Proof.
  intros Hlen. unfold on_read.
  destruct (Nat.eqb_spec (length buf) sizeof_PipeMessage); [lia | reflexivity].
Qed.

(** One [read] whose magic is not [MSG_MAGIC]: nothing is interpreted. *)
Lemma on_read_bad_magic p buf st :
  magic_of buf <> Some MSG_MAGIC -> on_read p buf st = st.
Proof.
  intros Hm. unfold on_read, magic_of in *.
  destruct (length buf =? sizeof_PipeMessage)%nat; [|reflexivity]. cbn [negb].
  destruct (get_u32 buf) as [[magic r]|]; [|reflexivity].
  destruct (Z.eqb_spec magic MSG_MAGIC) as [->|]; [contradiction | reflexivity].
Qed.

(** More fuel than bytes changes nothing. *)
Lemma drain_loop_fuel p : forall fuel avail st,
  (length avail <= fuel)%nat ->
  drain_loop fuel p avail st = drain_loop (length avail) p avail st.
Proof.
  intros fuel avail. remember (length avail) as n eqn:Hn.
  revert fuel avail Hn.
  induction n as [n IH] using lt_wf_ind. intros fuel avail Hn st Hle.
  destruct avail as [|b rest].
  - subst n. destruct fuel; reflexivity.
  - destruct fuel as [|fuel]; [simpl in Hn; lia|].
    subst n. cbn [length drain_loop].
    set (avail' := drop sizeof_PipeMessage (b :: rest)).
    set (st' := on_read p (take sizeof_PipeMessage (b :: rest)) st).
    assert (Hlt : (length avail' < length (b :: rest))%nat).
    { subst avail'. rewrite length_drop. simpl. unfold sizeof_PipeMessage. lia. }
    simpl in Hle, Hlt.
    rewrite (IH (length avail') ltac:(simpl; lia) fuel avail' eq_refl st' ltac:(lia)).
    rewrite (IH (length avail') ltac:(simpl; lia) (length rest) avail' eq_refl st' ltac:(lia)).
    reflexivity.
Qed.

(** The loop reads a whole frame at the front of the pipe as one unit
    and goes on with what follows it. *)
Lemma drain_frame p buf rest st :
  length buf = sizeof_PipeMessage ->
  drain p (buf ++ rest) st = drain p rest (on_read p buf st).
Proof.
  intros Hlen. unfold drain.
  destruct buf as [|b buf']; [discriminate|].
  cbn [app length drain_loop].
  change (b :: buf' ++ rest) with ((b :: buf') ++ rest).
  rewrite take_app_length' by (symmetry; exact Hlen).
  rewrite drop_app_length' by (symmetry; exact Hlen).
  rewrite drain_loop_fuel; [reflexivity|].
  rewrite length_app. lia.
Qed.

Lemma drain_nil p st : drain p [] st = st.
Proof. reflexivity. Qed.

(** A last, short read empties the pipe and changes nothing. *)
Lemma drain_short p buf st :
  (length buf < sizeof_PipeMessage)%nat -> drain p buf st = st.
Proof.
  intros Hlen. unfold drain. destruct buf as [|b buf']; [reflexivity|].
  cbn [length drain_loop].
  rewrite take_ge by (simpl in *; lia).
  rewrite drop_ge by (simpl in *; lia).
  rewrite (on_read_short p _ st Hlen).
  destruct (length buf'); reflexivity.
Qed.

(** *** C7: round trip and discarded reads *)

(** C7, as stated, fails for the short read.  The loop keeps no partial
    buffer: when only the first 10 bytes of a frame are in the pipe at
    one poll, that read is dropped, and at the next poll the remaining 38
    bytes shift every later 48-byte read off its frame boundary, so the
    intact CAR frame written after it is never delivered (alone, it
    is). *)
Lemma short_read_shifts_frame_boundaries :
  length frame_bus = sizeof_PipeMessage /\
  length frame_car = sizeof_PipeMessage /\
  vehicles (polls pipeF10 [frame_car] Visualizer_init) !! 0
    = Some (state_of car_at_stop_line false) /\
  vehicles (polls pipeF10 [take 10 frame_bus; drop 10 frame_bus ++ frame_car]
                  Visualizer_init) !! 0
    = None.
Proof. repeat split; vm_compute; reflexivity. Qed.

(** C7, amended.  A VEHICLE_UPDATE frame written by [sendUpdate] and
    read whole (48 bytes, magic intact) gives back the identical vehicle
    state, whatever the padding bytes hold, and the loop goes on at the
    next frame.  A whole 48-byte read whose magic is not [MSG_MAGIC] is
    discarded with no field interpreted and the reads after it are
    unaffected.  A short read is discarded with no field interpreted
    (nothing is said of the reads after it). *)
Theorem vehicle_frame_round_trip p pad v parked rest st :
  vehicle_well_formed v ->
  on_read p (frame_bytes pad (vehicle_frame v parked)) st
    = register (state_of v parked) st /\
  vehicles (register (state_of v parked) st) !! Vehicle.id v
    = Some (state_of v parked) /\
  (VehicleState.id (state_of v parked) = Vehicle.id v /\
   VehicleState.x (state_of v parked) = Vehicle.x v /\
   VehicleState.y (state_of v parked) = Vehicle.y v /\
   VehicleState.isActive (state_of v parked) = Vehicle.active v /\
   VehicleState.isParked (state_of v parked) = parked /\
   VehicleState.isInQueue (state_of v parked) = Vehicle.isInQueue v /\
   VehicleState.queueIndex (state_of v parked) = Vehicle.queueIndex v /\
   VehicleState.isLeftParking (state_of v parked) = Vehicle.isLeftParking v /\
   VehicleState.type (state_of v parked) = Vehicle.type v) /\
  drain p (frame_bytes pad (vehicle_frame v parked) ++ rest) st
    = drain p rest (register (state_of v parked) st) /\
  (forall buf,
     length buf = sizeof_PipeMessage ->
     magic_of buf <> Some MSG_MAGIC ->
     on_read p buf st = st /\ drain p (buf ++ rest) st = drain p rest st) /\
  (forall buf,
     (length buf < sizeof_PipeMessage)%nat ->
     on_read p buf st = st /\ drain p buf st = st).
Proof.
  intros Hwf.
  assert (Hfields :
    VehicleState.id (state_of v parked) = Vehicle.id v /\
    VehicleState.x (state_of v parked) = Vehicle.x v /\
    VehicleState.y (state_of v parked) = Vehicle.y v /\
    VehicleState.isActive (state_of v parked) = Vehicle.active v /\
    VehicleState.isParked (state_of v parked) = parked /\
    VehicleState.isInQueue (state_of v parked) = Vehicle.isInQueue v /\
    VehicleState.queueIndex (state_of v parked) = Vehicle.queueIndex v /\
    VehicleState.isLeftParking (state_of v parked) = Vehicle.isLeftParking v /\
    VehicleState.type (state_of v parked) = Vehicle.type v).
  { unfold state_of, vehicle_frame.
    destruct (getColor (Vehicle.type v)) as [[r g] b]. cbn. tauto. }
  split; [apply on_read_vehicle_frame, Hwf|].
  split.
  { destruct Hfields as [<- _]. apply vehicles_register. }
  split; [exact Hfields|].
  split.
  { rewrite drain_frame by apply frame_bytes_length.
    rewrite on_read_vehicle_frame by exact Hwf. reflexivity. }
  split.
  - intros buf Hlen Hm. pose proof (on_read_bad_magic p buf st Hm) as Hr.
    split; [exact Hr|]. rewrite (drain_frame p buf rest st Hlen), Hr. reflexivity.
  - intros buf Hlen. split; [apply on_read_short, Hlen | apply drain_short, Hlen].
Qed.

Lemma vehicle_frame_round_trip_witness :
  vehicle_well_formed bus_42 /\
  on_read pipeF11 (frame_bytes no_pad (vehicle_frame bus_42 false)) Visualizer_init
    = register (state_of bus_42 false) Visualizer_init /\
  magic_of (0 :: frame_car) <> Some MSG_MAGIC /\
  drain pipeF11 (take 48 (0 :: frame_car) ++ frame_bus) Visualizer_init
    = drain pipeF11 frame_bus Visualizer_init.
Proof.
  assert (Hwf : vehicle_well_formed bus_42).
  { unfold vehicle_well_formed, int_range. vm_compute.
    repeat split; discriminate. }
  assert (Hm : magic_of (take 48 (0 :: frame_car)) <> Some MSG_MAGIC)
    by (vm_compute; discriminate).
  destruct (vehicle_frame_round_trip pipeF11 no_pad bus_42 false frame_bus
              Visualizer_init Hwf) as (Hrt & _ & _ & _ & Hbad & _).
  split; [exact Hwf|]. split; [exact Hrt|].
  split; [vm_compute; discriminate|].
  apply (Hbad (take 48 (0 :: frame_car))); [reflexivity | exact Hm].
Defined.

(** ** The F11 controller *)

Lemma cmd_neutral_refl w : cmd_neutral w w.
Proof. unfold cmd_neutral. repeat split; lia. Qed.

Lemma cmd_neutral_trans w1 w2 w3 :
  cmd_neutral w1 w2 -> cmd_neutral w2 w3 -> cmd_neutral w1 w3.
Proof.
  unfold cmd_neutral. intros (A1 & A2 & A3 & A4) (B1 & B2 & B3 & B4).
  repeat split; try congruence; lia.
Qed.

Lemma repeat_n_neutral (body : F11 -> F11) :
  (forall w, cmd_neutral w (body w)) ->
  forall n w, cmd_neutral w (repeat_n n body w).
Proof.
  intros Hb n. induction n as [|n IH]; intros w; simpl.
  - apply cmd_neutral_refl.
  - eapply cmd_neutral_trans; [apply Hb | apply IH].
Qed.

Lemma usleep_spawnVehicle_neutral d ty w :
  0 <= d -> cmd_neutral w (usleep d (spawnVehicle ty w)).
Proof. intros Hd. unfold cmd_neutral. simpl. repeat split; lia. Qed.

Lemma usleep_spawnLocalVehicle_neutral d ty w :
  0 <= d -> cmd_neutral w (usleep d (spawnLocalVehicle ty w)).
Proof. intros Hd. unfold cmd_neutral. simpl. repeat split; lia. Qed.

Lemma rand_neutral w : cmd_neutral w (snd (rand w)).
Proof.
  unfold rand. destruct (rand_draws w); [apply cmd_neutral_refl|].
  unfold cmd_neutral. simpl. repeat split; lia.
Qed.

Lemma read_cmd_neutral w : cmd_neutral w (snd (read_cmd w)).
Proof.
  unfold read_cmd. destruct (cmdIn w) as [|[t c] rest]; [apply cmd_neutral_refl|].
  destruct (t <=? clock w); [|apply cmd_neutral_refl].
  unfold cmd_neutral. simpl. repeat split; lia.
Qed.

(** Command handling reads nothing off the coordination pipe, leaves the
    gate and [emergencyMode] alone, and only lets time pass. *)
Lemma check_commands_neutral w : cmd_neutral w (check_commands w).
Proof.
  unfold check_commands.
  pose proof (read_cmd_neutral w) as Hr.
  destruct (read_cmd w) as [[c|] w1]; simpl in Hr; [|exact Hr].
  destruct (negb _); [exact Hr|].
  destruct (CommandMessage.command c); try exact Hr.
  - eapply cmd_neutral_trans; [exact Hr|].
    apply repeat_n_neutral. intros w'. apply usleep_spawnVehicle_neutral. lia.
  - eapply cmd_neutral_trans; [exact Hr|].
    eapply cmd_neutral_trans; cycle 1.
    + apply repeat_n_neutral. intros w'.
      pose proof (rand_neutral w') as Hrand.
      destruct (rand w') as [r w'']. simpl in Hrand.
      eapply cmd_neutral_trans; [exact Hrand|].
      apply usleep_spawnLocalVehicle_neutral. lia.
    + apply repeat_n_neutral. intros w'.
      pose proof (rand_neutral w') as Hrand.
      destruct (rand w') as [r w'']. simpl in Hrand.
      eapply cmd_neutral_trans; [exact Hrand|].
      apply usleep_spawnVehicle_neutral. lia.
Qed.

(** Preemption at the top of the loop. *)
Lemma check_emergency_preempts w t m rest :
  coordIn w = (t, m) :: rest ->
  t <= clock w ->
  is_emergency_msg m = true ->
  lightState (check_emergency w) = GREEN /\
  clock (check_emergency w) = clock w + 5000000 /\
  emergencyMode (check_emergency w) = false /\
  coordIn (check_emergency w) = rest /\
  log (check_emergency w) =
    log w ++ [(clock w, EvCoord m); (clock w, EvGate GREEN);
              (clock w, EvSend (light_frame 11 GREEN)); (clock w, EvSleep 5000000)].
Proof.
  intros Hin Ht Hm. unfold check_emergency, read_coord. rewrite Hin.
  destruct (Z.leb_spec t (clock w)); [|lia]. rewrite Hm. simpl.
  repeat split. rewrite <- !app_assoc. reflexivity.
Qed.

(** Preemption at a poll of the RED phase; the remaining polls are
    skipped. *)
Lemma red_polls_preempts n w t m rest :
  coordIn w = (t, m) :: rest ->
  t <= clock w + 500000 ->
  is_emergency_msg m = true ->
  lightState (red_polls (S n) w) = GREEN /\
  clock (red_polls (S n) w) = clock w + 500000 + 5000000 /\
  coordIn (red_polls (S n) w) = rest /\
  log (red_polls (S n) w) =
    log w ++ [(clock w, EvSleep 500000);
              (clock w + 500000, EvCoord m);
              (clock w + 500000, EvGate GREEN);
              (clock w + 500000, EvSend (light_frame 11 GREEN));
              (clock w + 500000, EvSleep 5000000)].
Proof.
  intros Hin Ht Hm. cbn [red_polls]. unfold read_coord. cbn [coordIn usleep record clock].
  rewrite Hin. destruct (Z.leb_spec t (clock w + 500000)); [|lia]. rewrite Hm. simpl.
  repeat split. rewrite <- !app_assoc. reflexivity.
Qed.

Lemma holds_app l1 l2 : holds (l1 ++ l2) = holds l1 ++ holds l2.
Proof. unfold holds. rewrite filter_app, map_app. reflexivity. Qed.

(** *** C6: emergency preemption *)

(** C6, as stated, fails on its last part.  With one signal in the pipe
    and a second one arriving at 2 s, during the hold that lasts from 0
    to 5 s, the second signal is not dropped: it waits in the pipe, is
    read at the first RED poll at 5.5 s and forces a second 5 s hold. *)
Lemma emergency_during_hold_is_queued :
  coordIn (check_emergency f11_two_signals) = [(2000000, emergency_from_F10)] /\
  clock (check_emergency f11_two_signals) = 5000000 /\
  In (5500000, EvCoord emergency_from_F10) (log (f11_iteration f11_two_signals)) /\
  holds (log (f11_iteration f11_two_signals)) = [0; 5500000].
Proof.
  split; [reflexivity|]. split; [reflexivity|]. split; [|reflexivity].
  vm_compute. do 7 right. left. reflexivity.
Qed.

(** C6, amended.  When a coordination read returns
    EMERGENCY_APPROACHING, at the top of the loop or at a poll of the
    RED phase, the controller at once sets the gate GREEN and publishes
    it, then sleeps a fixed 5 s during which it reads nothing and leaves
    the gate alone; after a hold begun at the top of the loop the same
    turn goes on with the RED phase, after one begun in the RED phase
    with the GREEN phase.  A signal that reaches the pipe during a hold
    stays in the pipe and is read at the next coordination read, where
    it forces a new 5 s hold. *)
Theorem emergency_preemption w t m rest :
  coordIn w = (t, m) :: rest ->
  is_emergency_msg m = true ->
  (t <= clock w ->
     lightState (check_emergency w) = GREEN /\
     clock (check_emergency w) = clock w + 5000000 /\
     coordIn (check_emergency w) = rest /\
     log (check_emergency w) =
       log w ++ [(clock w, EvCoord m); (clock w, EvGate GREEN);
                 (clock w, EvSend (light_frame 11 GREEN));
                 (clock w, EvSleep 5000000)] /\
     f11_iteration w = green_phase (red_phase (check_commands (check_emergency w)))) /\
  (forall n, t <= clock w + 500000 ->
     lightState (red_polls (S n) w) = GREEN /\
     clock (red_polls (S n) w) = clock w + 500000 + 5000000 /\
     coordIn (red_polls (S n) w) = rest /\
     log (red_polls (S n) w) =
       log w ++ [(clock w, EvSleep 500000);
                 (clock w + 500000, EvCoord m);
                 (clock w + 500000, EvGate GREEN);
                 (clock w + 500000, EvSend (light_frame 11 GREEN));
                 (clock w + 500000, EvSleep 5000000)]) /\
  (forall t2 m2 rest',
     t <= clock w ->
     rest = (t2, m2) :: rest' ->
     clock w < t2 <= clock w + 5000000 ->
     is_emergency_msg m2 = true ->
     let w2 := check_commands (check_emergency w) in
     coordIn w2 = (t2, m2) :: rest' /\
     clock w + 5000000 <= clock w2 /\
     In (clock w2 + 500000, EvCoord m2) (log (red_phase w2)) /\
     holds (log (red_phase w2)) = holds (log w2) ++ [clock w2 + 500000] /\
     f11_iteration w = green_phase (red_phase w2)).
Proof.
  intros Hin Hm.
  assert (Hiter : t <= clock w ->
            f11_iteration w = green_phase (red_phase (check_commands (check_emergency w)))).
  { intros Ht. unfold f11_iteration.
    destruct (check_emergency_preempts w t m rest Hin Ht Hm) as (_ & _ & Hmode & _).
    destruct (check_commands_neutral (check_emergency w)) as (_ & Hmode' & _).
    rewrite Hmode', Hmode. reflexivity. }
  split; [|split].
  - intros Ht.
    destruct (check_emergency_preempts w t m rest Hin Ht Hm) as (Hl & Hc & _ & Hq & Hlog).
    repeat split; try assumption. apply Hiter, Ht.
  - intros n Ht. apply (red_polls_preempts n w t m rest Hin Ht Hm).
  - intros t2 m2 rest' Ht Hrest Ht2 Hm2 w2.
    destruct (check_emergency_preempts w t m rest Hin Ht Hm) as (_ & Hc & _ & Hq & _).
    destruct (check_commands_neutral (check_emergency w)) as (Hq' & _ & _ & Hclk).
    fold w2 in Hq', Hclk.
    assert (Hin2 : coordIn w2 = (t2, m2) :: rest') by congruence.
    assert (Hin3 : coordIn (send (light_frame 11 RED) (set_light RED w2))
                   = (t2, m2) :: rest') by exact Hin2.
    destruct (red_polls_preempts 5 _ t2 m2 rest' Hin3) as (_ & _ & _ & Hlog);
      [cbn [clock send set_light record]; lia | exact Hm2 |].
    assert (Hlog' : log (red_phase w2) =
              (log w2 ++ [(clock w2, EvGate RED); (clock w2, EvSend (light_frame 11 RED))])
              ++ [(clock w2, EvSleep 500000);
                  (clock w2 + 500000, EvCoord m2);
                  (clock w2 + 500000, EvGate GREEN);
                  (clock w2 + 500000, EvSend (light_frame 11 GREEN));
                  (clock w2 + 500000, EvSleep 5000000)]).
    { unfold red_phase. rewrite Hlog. cbn [log clock send set_light record].
      rewrite <- !app_assoc. reflexivity. }
    split; [exact Hin2|]. split; [lia|]. split; [|split].
    + rewrite Hlog'. apply in_or_app. right. right. left. reflexivity.
    + rewrite Hlog', !holds_app. cbn. rewrite app_nil_r. reflexivity.
    + apply Hiter, Ht.
Qed.

Lemma emergency_preemption_witness :
  coordIn f11_two_signals = [(0, emergency_from_F10); (2000000, emergency_from_F10)] /\
  lightState (check_emergency f11_two_signals) = GREEN /\
  clock (check_emergency f11_two_signals) = clock f11_two_signals + 5000000 /\
  holds (log (red_phase (check_commands (check_emergency f11_two_signals))))
    = holds (log (check_commands (check_emergency f11_two_signals)))
      ++ [clock (check_commands (check_emergency f11_two_signals)) + 500000].
Proof.
  split; [reflexivity|].
  destruct (emergency_preemption f11_two_signals 0 emergency_from_F10
              [(2000000, emergency_from_F10)] eq_refl eq_refl) as (Htop & _ & Hqueued).
  destruct (Htop ltac:(cbn; lia)) as (Hl & Hc & _).
  split; [exact Hl|]. split; [exact Hc|].
  destruct (Hqueued 2000000 emergency_from_F10 [] ltac:(cbn; lia) eq_refl
              ltac:(cbn; lia) eq_refl) as (_ & _ & _ & Hh & _).
  exact Hh.
Defined.

(* ===================================================================== *)
(** * Further properties of the code *)
(* ===================================================================== *)

(** ** ParkingLot: how the calls compose *)

(** A bitmap with no free entry has every entry set. *)
Lemma popcount_full_lookup (occ : list bool) j :
  popcount occ = Z.of_nat (length occ) -> (j < length occ)%nat -> occ !! j = Some true.
Proof.
  revert j. induction occ as [|b r IH]; intros j Hpc Hj; [simpl in Hj; lia|].
  cbn [popcount length] in *. pose proof (popcount_bounds r) as Hb.
  destruct b; unfold b2z in Hpc; [|lia].
  destruct j as [|j]; [reflexivity|]. simpl. apply IH; lia.
Qed.

(** One complete visit (queue up, be granted a spot, leave it) on a lot
    with room in the queue and a free spot puts the lot back exactly as
    it was: no slot, spot, counter or semaphore token is leaked. *)
Theorem park_cycle_restores_lot l :
  lot_coherent l ->
  popcount (queueSlotOccupied l) < PARKING_QUEUE_SIZE ->
  0 < spots l ->
  exists q s l1 l2,
    enterQueue l = (q, l1) /\
    waitForSpot l1 q = Some (s, l2) /\
    0 <= q < PARKING_QUEUE_SIZE /\
    0 <= s < PARKING_CAPACITY /\
    leave l2 s = l.
Proof.
  intros Hc Hq Hs.
  destruct (enterQueue_accept l (lot_coherent_queue l Hc) Hq) as (k & Hk & Hkfree & _ & Hent).
  pose proof (lot_coherent_enterQueue l Hc) as Hc1. rewrite Hent in Hc1. cbn [snd] in Hc1.
  set (l1 := {| spots := spots l; queue := queue l - 1; occupiedSpots := occupiedSpots l;
                waitingCount := waitingCount l + 1; spotOccupied := spotOccupied l;
                queueSlotOccupied := <[k:=true]> (queueSlotOccupied l) |}) in *.
  destruct (waitForSpot_granted l1 (Z.of_nat k) Hc1 Hs) as (j & Hj & Hjfree & _ & Hwait).
  change (Z.to_nat PARKING_QUEUE_SIZE) with 5%nat in Hk.
  change (Z.to_nat PARKING_CAPACITY) with 10%nat in Hj.
  eexists _, _, _, _. split; [exact Hent|]. split; [exact Hwait|].
  split; [lot_lia|]. split; [lot_lia|].
  destruct Hc as (Hls & Hlq & Ho & Hw & Hsp & Hqs).
  pose proof (popcount_bounds (spotOccupied l)) as Hb1.
  pose proof (popcount_bounds (queueSlotOccupied l)) as Hb2.
  rewrite Hls in Hb1. rewrite Hlq in Hb2.
  subst l1. cbn [spots queue occupiedSpots waitingCount spotOccupied queueSlotOccupied] in *.
  unfold leave. cbn [spots queue occupiedSpots waitingCount spotOccupied queueSlotOccupied].
  rewrite (clear_guarded_in PARKING_CAPACITY (Z.of_nat j)) by lot_lia.
  rewrite (clear_guarded_in PARKING_QUEUE_SIZE (Z.of_nat k)) by lot_lia.
  rewrite !Nat2Z.id, !list_insert_insert_eq.
  rewrite (list_insert_id _ _ _ Hjfree), (list_insert_id _ _ _ Hkfree).
  rewrite sem_post_exact by lot_lia.
  rewrite (int_decr_exact (waitingCount l + 1)) by lot_lia.
  rewrite (int_decr_exact (occupiedSpots l + 1)) by lot_lia.
  destruct l as [sp qu oc wc so qo]. cbn. f_equal; lia.
Qed.

Lemma park_cycle_restores_lot_witness :
  lot_coherent lot_one_parked /\
  exists q s l1 l2,
    enterQueue lot_one_parked = (q, l1) /\
    waitForSpot l1 q = Some (s, l2) /\
    leave l2 s = lot_one_parked.
Proof.
  assert (Hc : lot_coherent lot_one_parked)
    by (unfold lot_coherent; vm_compute; repeat split; reflexivity).
  split; [exact Hc|].
  destruct (park_cycle_restores_lot lot_one_parked Hc)
    as (q & s & l1 & l2 & H1 & H2 & _ & _ & H3); [reflexivity | reflexivity |].
  exists q, s, l1, l2. split; [exact H1|]. split; [exact H2 | exact H3].
Defined.

(** On a full lot a waiter is suspended; one [leave] lets exactly one
    waiter through, hands it the very spot that was released, and the
    next waiter is suspended again. *)
Theorem leave_admits_one_waiter l s q1 q2 :
  lot_coherent l ->
  spots l = 0 ->
  0 <= s < PARKING_CAPACITY ->
  waitForSpot l q1 = None /\
  exists l',
    waitForSpot (leave l s) q1 = Some (s, l') /\
    waitForSpot l' q2 = None.
Proof.
  intros Hc Hfull Hs.
  assert (Hall : forall j, (j < 10)%nat -> spotOccupied l !! j = Some true).
  { intros j Hj. destruct Hc as (Hls & _ & Ho & _ & Hsp & _).
    apply popcount_full_lookup; rewrite Hls; [lot_lia | exact Hj]. }
  assert (Hsheld : spotOccupied l !! Z.to_nat s = Some true) by (apply Hall; lot_lia).
  split.
  { unfold waitForSpot. rewrite sem_wait_blocked; [reflexivity | lia]. }
  pose proof (lot_coherent_leave l s Hc (conj Hs Hsheld)) as Hc'.
  assert (Hsp' : spots (leave l s) = 1).
  { cbn [leave spots]. rewrite sem_post_exact by lot_lia. lia. }
  destruct (waitForSpot_granted (leave l s) q1 Hc' ltac:(lia))
    as (k & Hk & Hkfree & _ & Hwait).
  change (Z.to_nat PARKING_CAPACITY) with 10%nat in Hk.
  assert (Hks : k = Z.to_nat s).
  { destruct (decide (k = Z.to_nat s)) as [|Hne]; [assumption|]. exfalso.
    cbn [leave spotOccupied] in Hkfree.
    rewrite (clear_guarded_in _ _ _ Hs) in Hkfree.
    rewrite list_lookup_insert_ne in Hkfree by congruence.
    rewrite (Hall k Hk) in Hkfree. discriminate. }
  subst k. rewrite Z2Nat.id in Hwait by lia.
  eexists. split; [exact Hwait|].
  unfold waitForSpot. cbn [spots]. rewrite Hsp'. reflexivity.
Qed.

Lemma leave_admits_one_waiter_witness :
  let full := exec_ops lot_queue_full
                [OpWaitForSpot 0; OpEnterQueue; OpWaitForSpot 1; OpEnterQueue;
                 OpWaitForSpot 2; OpEnterQueue; OpWaitForSpot 3; OpEnterQueue;
                 OpWaitForSpot 4; OpEnterQueue; OpWaitForSpot 0; OpEnterQueue;
                 OpWaitForSpot 1; OpEnterQueue; OpWaitForSpot 2; OpEnterQueue;
                 OpWaitForSpot 3; OpEnterQueue; OpWaitForSpot 4; OpEnterQueue] in
  spots full = 0 /\ waitingCount full = 5 /\
  exists l', waitForSpot (leave full 7) 2 = Some (7, l') /\ waitForSpot l' 3 = None.
Proof.
  intros full.
  assert (Hc : lot_coherent full)
    by (unfold lot_coherent; vm_compute; repeat split; reflexivity).
  split; [reflexivity|]. split; [reflexivity|].
  destruct (leave_admits_one_waiter full 7 2 3 Hc eq_refl) as [_ Hadm];
    [split; [discriminate | reflexivity] |].
  exact Hadm.
Defined.

(** On a coherent lot the two admission calls turn a caller away exactly
    when the counters the getters report stand at capacity. *)
Theorem admission_refused_iff_at_capacity l q :
  lot_coherent l ->
  (waitForSpot l q = None <-> getOccupiedCount l = PARKING_CAPACITY) /\
  (fst (enterQueue l) = -1 <-> getWaitingCount l = PARKING_QUEUE_SIZE).
Proof.
  intros Hc. pose proof (lot_coherent_queue l Hc) as Hqc.
  pose proof Hc as (Hls & Hlq & Ho & Hw & Hsp & Hqs).
  pose proof (popcount_bounds (spotOccupied l)) as Hb1.
  pose proof (popcount_bounds (queueSlotOccupied l)) as Hb2.
  rewrite Hls in Hb1. rewrite Hlq in Hb2.
  unfold getOccupiedCount, getWaitingCount. split; split.
  - intros Hn. destruct (Z_lt_le_dec 0 (spots l)) as [Hpos|Hz]; [|lot_lia].
    destruct (waitForSpot_granted l q Hc Hpos) as (k & _ & _ & _ & Heq). congruence.
  - intros Hfull. unfold waitForSpot. rewrite sem_wait_blocked; [reflexivity | lot_lia].
  - intros Hrej.
    destruct (Z_lt_le_dec (popcount (queueSlotOccupied l)) PARKING_QUEUE_SIZE) as [Hlt|Hge];
      [|lot_lia].
    destruct (enterQueue_accept l Hqc Hlt) as (k & _ & _ & _ & Heq).
    rewrite Heq in Hrej. cbn in Hrej. lia.
  - intros Hfull. rewrite enterQueue_reject; [reflexivity | lot_lia].
Qed.

Lemma admission_refused_iff_at_capacity_witness :
  lot_coherent lot_queue_full /\
  getWaitingCount lot_queue_full = PARKING_QUEUE_SIZE /\
  fst (enterQueue lot_queue_full) = -1.
Proof.
  assert (Hc : lot_coherent lot_queue_full)
    by (unfold lot_coherent; vm_compute; repeat split; reflexivity).
  split; [exact Hc|]. split; [reflexivity|].
  apply (proj2 (admission_refused_iff_at_capacity lot_queue_full 0 Hc)). reflexivity.
Defined.

(** Queue indices handed out by calls of [enterQueue] with no release in
    between are pairwise different, and each was free beforehand: two
    waiting vehicles never hold the same queue box. *)
Theorem enterQueue_indices_distinct n : forall l,
  queue_coherent l ->
  let held := filter (fun r => 0 <= r) (fst (enterQueue_n n l)) in
  NoDup held /\
  Forall (fun r => queueSlotOccupied l !! Z.to_nat r = Some false) held.
Proof.
  induction n as [|n IH]; intros l Hc held.
  - split; [apply NoDup_nil_2 | apply Forall_nil_2].
  - assert (Hb := popcount_bounds (queueSlotOccupied l)).
    assert (Hlen : length (queueSlotOccupied l) = Z.to_nat PARKING_QUEUE_SIZE) by apply Hc.
    rewrite Hlen in Hb. subst held.
    destruct (Z_lt_le_dec (popcount (queueSlotOccupied l)) PARKING_QUEUE_SIZE) as [Hlt|Hge].
    + destruct (enterQueue_accept l Hc Hlt) as (k & Hk & Hfree & _ & Heq).
      pose proof (enterQueue_accept_coherent l k Hc Hfree) as Hc'.
      specialize (IH _ Hc'). cbn [queueSlotOccupied] in IH.
      cbn [enterQueue_n]. rewrite Heq.
      destruct (enterQueue_n n _) as [rest l2] eqn:En. cbn [fst] in *.
      destruct IH as [IHd IHf].
      rewrite filter_cons_True by (simpl; lia).
      rewrite Forall_forall in IHf.
      split.
      * apply NoDup_cons_2; [|exact IHd]. intros Hin.
        specialize (IHf _ Hin). rewrite Nat2Z.id in IHf.
        rewrite list_lookup_insert_eq in IHf; [discriminate|].
        rewrite Hlen. exact Hk.
      * apply Forall_cons_2; [rewrite Nat2Z.id; exact Hfree|].
        apply Forall_forall. intros r Hin. specialize (IHf _ Hin).
        destruct (decide (k = Z.to_nat r)) as [->|Hne].
        -- rewrite list_lookup_insert_eq in IHf; [discriminate|].
           rewrite Hlen. exact Hk.
        -- rewrite list_lookup_insert_ne in IHf by exact Hne. exact IHf.
    + assert (Hq : queue l <= 0).
      { destruct Hc as (_ & Hw & Hq). lot_lia. }
      specialize (IH l Hc).
      cbn [enterQueue_n]. rewrite (enterQueue_reject l Hq).
      destruct (enterQueue_n n l) as [rest l2] eqn:En. cbn [fst] in *.
      rewrite filter_cons_False by (simpl; lia). exact IH.
Qed.

Lemma enterQueue_indices_distinct_witness :
  queue_coherent lot_one_parked /\
  NoDup (filter (fun r => 0 <= r) (fst (enterQueue_n 7 lot_one_parked))).
Proof.
  assert (Hc : queue_coherent lot_one_parked)
    by (unfold queue_coherent; vm_compute; repeat split; reflexivity).
  split; [exact Hc|].
  exact (proj1 (enterQueue_indices_distinct 7 lot_one_parked Hc)).
Defined.

(** ** Vehicle threads: what a run never does *)

Lemma willPark_set_pos v x' y' : willPark (Vehicle.set_pos v x' y') = willPark v.
Proof. reflexivity. Qed.

Lemma drive_lot a lot target next : snd (fst (drive a lot target next)) = lot.
Proof.
  destruct (drive_cases a lot target next) as (x' & y' & [[_ ->] | [_ ->]]); reflexivity.
Qed.

Lemma drive_vehicle a lot target next :
  exists x' y', vehicle (fst (fst (drive a lot target next)))
                = Vehicle.set_pos (vehicle a) x' y'.
Proof.
  destruct (drive_cases a lot target next) as (x' & y' & [[_ ->] | [_ ->]]);
    exists x', y'; reflexivity.
Qed.

Lemma drive_phase a lot target next :
  phase (fst (fst (drive a lot target next))) = next \/
  phase (fst (fst (drive a lot target next))) = phase a.
Proof.
  destruct (drive_cases a lot target next) as (x' & y' & [[_ ->] | [_ ->]]);
    [left | right]; reflexivity.
Qed.

(** One step of a thread that is not eligible and not on the parking
    path: it stays so and hands the lot back as it found it. *)
Lemma actor_step_ineligible a state lot :
  willPark (vehicle a) = false ->
  attempting_parking (phase a) = false ->
  willPark (vehicle (fst (fst (actor_step a state lot)))) = false /\
  attempting_parking (phase (fst (fst (actor_step a state lot)))) = false /\
  snd (fst (actor_step a state lot)) = lot.
Proof.
  intros Hw Hp.
  assert (Hdrive : forall target next,
            attempting_parking next = false ->
            willPark (vehicle (fst (fst (drive a lot target next)))) = false /\
            attempting_parking (phase (fst (fst (drive a lot target next)))) = false /\
            snd (fst (drive a lot target next)) = lot).
  { intros target next Hn.
    destruct (drive_vehicle a lot target next) as (x' & y' & ->).
    split; [exact Hw|]. split; [|apply drive_lot].
    destruct (drive_phase a lot target next) as [-> | ->]; assumption. }
  unfold actor_step. destruct (phase a) eqn:Hph; try discriminate Hp.
  - apply Hdrive. destruct (func a); reflexivity.
  - repeat split; assumption.
  - apply Hdrive. reflexivity.
  - destruct (may_pass state (vehicle a)).
    + rewrite Hw. repeat split; assumption.
    + cbn [fst snd]. rewrite Hph. repeat split; assumption.
  - apply Hdrive. reflexivity.
  - repeat split; assumption.
  - cbn [fst snd]. rewrite Hph. repeat split; assumption.
Qed.

Lemma actor_lots_ineligible sched : forall a lot,
  willPark (vehicle a) = false ->
  attempting_parking (phase a) = false ->
  Forall (fun p => snd p = fst p) (actor_lots a lot sched).
Proof.
  induction sched as [|e rest IH]; intros a lot Hw Hp; cbn [actor_lots]; [constructor|].
  pose proof (actor_step_ineligible a (env_light e)
                (match env_lot e with Some l => l | None => lot end) Hw Hp)
    as (Hw' & Hp' & Hl).
  destruct (actor_step a (env_light e) _) as [[a' lot'] frames]. cbn [fst snd] in *.
  constructor; [exact Hl | apply IH; assumption].
Qed.

(** A thread whose vehicle is not a CAR or BIKE, or that was started
    without a lot, never changes the lot: in every run, under any gate
    readings and whatever the other threads do to the lot, each of its
    steps leaves the lot as the step found it. *)
Theorem ineligible_thread_leaves_lot f id ty pipeFd lot x y endX endY stopLine commuter
        l sched :
  lot = nullptr \/ (ty <> CAR /\ ty <> BIKE) ->
  Forall (fun p => snd p = fst p)
         (actor_lots (spawn f id ty pipeFd lot x y endX endY stopLine commuter) l sched).
Proof.
  intros H. apply actor_lots_ineligible; [|reflexivity].
  unfold spawn, willPark. cbn.
  destruct H as [-> | [H1 H2]]; [reflexivity|].
  destruct lot; [reflexivity|]. destruct ty; try reflexivity; congruence.
Qed.

Lemma ineligible_thread_leaves_lot_witness :
  Forall (fun p => snd p = fst p)
         (actor_lots (spawn vehicleThreadFunc 3 BUS 1 controller_lot 0 400 1200 400
                            (float_of_int 240) false)
                     lot_one_parked
                     [mkStepEnv RED None; mkStepEnv GREEN (Some lot_queue_full);
                      mkStepEnv GREEN None]).
Proof.
  apply ineligible_thread_leaves_lot. right. split; discriminate.
Defined.

Lemma vehicle_frame_flags v parked :
  (parked = true \/ Vehicle.isInQueue v = true ->
   Vehicle.active v = true /\
   (Vehicle.type v = CAR \/ Vehicle.type v = BIKE)) ->
  (parked = true -> Vehicle.isInQueue v = false) ->
  frame_flags_ok (vehicle_frame v parked).
Proof.
  intros H1 H2. unfold frame_flags_ok, vehicle_frame.
  destruct (getColor (Vehicle.type v)) as [[r g] b]. cbn.
  split; intros H.
  - destruct H1 as [Ha Ht]; [left; exact H|]. auto.
  - destruct H1 as [Ha Ht]; [right; exact H|].
    split; [exact Ha|]. split; [|exact Ht].
    destruct parked; [|reflexivity]. rewrite H2 in H by reflexivity. discriminate.
Qed.

Lemma sendUpdate_flags v lot parked :
  (parked = true \/ Vehicle.isInQueue v = true ->
   Vehicle.active v = true /\
   (Vehicle.type v = CAR \/ Vehicle.type v = BIKE)) ->
  (parked = true -> Vehicle.isInQueue v = false) ->
  Forall frame_flags_ok (sendUpdate v lot parked).
Proof.
  intros H1 H2. unfold sendUpdate.
  constructor; [apply vehicle_frame_flags; assumption|].
  destruct (Vehicle.parkingLot v); repeat constructor.
Qed.

Lemma live_inv_drive a lot target next :
  live_inv a -> phase a <> Finished -> live_inv (fst (fst (drive a lot target next))).
Proof.
  intros Hl Hp.
  destruct (drive_cases a lot target next) as (x' & y' & [[_ ->] | [_ ->]]);
    unfold live_inv in *; cbn; intros _; apply Hl, Hp.
Qed.

Lemma actor_step_live a state lot :
  live_inv a -> live_inv (fst (fst (actor_step a state lot))).
Proof.
  intros Hl. unfold actor_step.
  destruct (phase a) eqn:Hp;
    try (apply live_inv_drive; [exact Hl | congruence]);
    try (unfold live_inv in *; cbn; intros _; apply Hl; congruence).
  - destruct (may_pass state (vehicle a)); [|exact Hl].
    unfold live_inv in *; cbn; intros _; apply Hl; congruence.
  - destruct (enterQueue lot) as [i l']. destruct (i =? -1);
      unfold live_inv in *; cbn; intros _; apply Hl; congruence.
  - destruct (waitForSpot lot queueIdx) as [[s l']|]; [|exact Hl].
    unfold live_inv in *; cbn; intros _; apply Hl; congruence.
  - unfold live_inv. cbn. congruence.
  - exact Hl.
Qed.

(** The frames of one step carry coherent flags. *)
Lemma actor_step_flags a state lot :
  actor_coherent a -> park_inv a -> live_inv a ->
  Forall frame_flags_ok (snd (actor_step a state lot)).
Proof.
  intros Hc Hpk Hl.
  assert (Hdrive : forall target next,
            phase a <> Finished ->
            Forall frame_flags_ok (snd (drive a lot target next))).
  { intros target next Hnf.
    destruct (drive_cases a lot target next) as (x' & y' & [[_ ->] | [_ ->]]);
      [constructor|]. cbn [snd].
    apply sendUpdate_flags; [|discriminate].
    intros [H|H]; [discriminate|]. cbn in H.
    split; [cbn; apply Hl, Hnf|]. cbn.
    apply willPark_eligible, Hpk.
    unfold actor_coherent in Hc.
    destruct (phase a); cbn in Hc; try reflexivity;
      destruct Hc as [Hq _]; congruence. }
  unfold actor_step. destruct (phase a) eqn:Hp;
    try (apply Hdrive; congruence); cbn [snd]; try solve [constructor].
  - destruct (may_pass state (vehicle a)); cbn [snd]; [constructor|].
    destruct (func a); try solve [constructor].
    apply sendUpdate_flags; [|discriminate].
    intros [H|H]; [discriminate|].
    unfold actor_coherent in Hc. rewrite Hp in Hc. destruct Hc as [Hq _]. congruence.
  - destruct (enterQueue lot) as [i l']. destruct (i =? -1); constructor.
  - apply sendUpdate_flags; [|discriminate]. intros _.
    split; [apply Hl; congruence|].
    apply willPark_eligible, Hpk. rewrite Hp. reflexivity.
  - destruct (waitForSpot lot queueIdx) as [[s l']|]; constructor.
  - apply sendUpdate_flags.
    + intros _. split; [apply Hl; congruence|].
      apply willPark_eligible, Hpk. rewrite Hp. reflexivity.
    + intros _. unfold actor_coherent in Hc. rewrite Hp in Hc. apply Hc.
  - apply sendUpdate_flags; [|discriminate].
    intros [H|H]; [discriminate|]. cbn in H.
    unfold actor_coherent in Hc. rewrite Hp in Hc. destruct Hc as [Hq _]. congruence.
Qed.

(** In every run of every thread function from a spawned vehicle, the
    flags of each VEHICLE_UPDATE written agree with one another: a frame
    reporting the vehicle parked, or queued, reports it active and a CAR
    or BIKE, and no frame reports it both parked and queued. *)
Theorem frames_flags_coherent f id ty pipeFd lot x y endX endY stopLine commuter l sched :
  Forall (fun s => Forall frame_flags_ok (snd s))
         (actor_run (spawn f id ty pipeFd lot x y endX endY stopLine commuter) l sched).
Proof.
  eapply Forall_impl.
  - apply (actor_run_invariant
             (fun a => actor_coherent a /\ park_inv a /\ live_inv a)
             (Forall frame_flags_ok)).
    + intros a state lot0 (Hc & Hp & Hl).
      split; [|apply actor_step_flags; assumption].
      split; [apply (actor_step_coherent a state lot0 Hc)|].
      split; [apply actor_step_park_inv, Hp | apply actor_step_live, Hl].
    + split; [apply spawn_coherent|]. split; [intros H; discriminate H | intros _; reflexivity].
  - intros s [_ H]. exact H.
Qed.

Lemma sendUpdate_frame_of f id ty v lot parked :
  Vehicle.id v = id -> Vehicle.type v = ty ->
  Vehicle.isLeftParking v = uses_left_lot f ->
  Forall (frame_of f id ty) (sendUpdate v lot parked).
Proof.
  intros Hid Hty Hleft. unfold sendUpdate. constructor.
  - unfold frame_of, vehicle_frame. rewrite Hty.
    destruct (getColor ty) as [[r g] b]. cbn. repeat split; assumption.
  - destruct (Vehicle.parkingLot v); constructor; [|constructor].
    unfold frame_of, parking_frame. cbn. rewrite Hleft. repeat split.
Qed.

Lemma actor_step_identity f id ty a state lot :
  identity_inv f id ty a ->
  identity_inv f id ty (fst (fst (actor_step a state lot))) /\
  Forall (frame_of f id ty) (snd (actor_step a state lot)).
Proof.
  intros (Hf & Hid & Hty & Hleft).
  assert (Hdrive : forall target next,
            identity_inv f id ty (fst (fst (drive a lot target next))) /\
            Forall (frame_of f id ty) (snd (drive a lot target next))).
  { intros target next.
    destruct (drive_cases a lot target next) as (x' & y' & [[_ ->] | [_ ->]]); cbn [fst snd].
    - split; [repeat split; assumption | constructor].
    - split; [repeat split; assumption|].
      apply sendUpdate_frame_of; assumption. }
  assert (Hsame : identity_inv f id ty a) by (repeat split; assumption).
  unfold actor_step. destruct (phase a) eqn:Hp; try apply Hdrive; cbn [fst snd].
  - split; [exact Hsame | constructor].
  - destruct (may_pass state (vehicle a)); cbn [fst snd];
      [split; [exact Hsame | constructor]|].
    split; [repeat split; assumption|].
    destruct (func a); try solve [constructor].
    apply sendUpdate_frame_of; assumption.
  - destruct (enterQueue lot) as [i l']. destruct (i =? -1); cbn [fst snd];
      (split; [exact Hsame | constructor]).
  - split; [exact Hsame | apply sendUpdate_frame_of; assumption].
  - destruct (waitForSpot lot queueIdx) as [[s l']|]; cbn [fst snd];
      (split; [repeat split; assumption | constructor]).
  - split; [exact Hsame | apply sendUpdate_frame_of; assumption].
  - split; [exact Hsame | constructor].
  - split; [exact Hsame | apply sendUpdate_frame_of; assumption].
  - split; [repeat split; assumption | constructor].
Qed.

(** Every frame a thread writes names its own vehicle: a VEHICLE_UPDATE
    carries the id and type the vehicle was spawned with, the colour of
    that type and the side of its lot, and each PARKING_UPDATE carries
    intersection id 10 from F10's thread functions and 11 from F11's.
    No thread writes a LIGHT_UPDATE, and every frame has the frame
    magic. *)
Theorem frames_name_their_sender f id ty pipeFd lot x y endX endY stopLine commuter
        l sched :
  Forall (fun s => Forall (frame_of f id ty) (snd s))
         (actor_run (spawn f id ty pipeFd lot x y endX endY stopLine commuter) l sched).
Proof.
  eapply Forall_impl.
  - apply (actor_run_invariant (identity_inv f id ty) (Forall (frame_of f id ty))).
    + intros a state lot0. apply actor_step_identity.
    + repeat split.
  - intros s [_ H]. exact H.
Qed.

(** *** C10: the frames of [sendUpdate] *)

Lemma sendUpdate_telemetry v lot parked :
  Vehicle.parkingLot v = controller_lot ->
  telemetry_pair (Vehicle.id v) (if Vehicle.isLeftParking v then 11 else 10)
                 (getWaitingCount lot) (sendUpdate v lot parked).
Proof.
  intros Hlot. unfold sendUpdate. rewrite Hlot.
  eexists _, _, (state_of v parked). split; [reflexivity|].
  rewrite vehicle_frame_data. cbn. repeat split.
  unfold state_of, vehicle_frame.
  destruct (getColor (Vehicle.type v)) as [[r g] b]. reflexivity.
Qed.

Lemma actor_step_telemetry f id ty a state lot :
  identity_inv f id ty a -> has_lot a ->
  snd (actor_step a state lot) = [] \/
  telemetry_pair id (lot_id f) (getWaitingCount lot) (snd (actor_step a state lot)).
Proof.
  intros (Hf & Hid & Hty & Hleft) Hlot. unfold lot_id. rewrite <- Hleft, <- Hid.
  assert (Hsend : forall v parked,
            Vehicle.parkingLot v = controller_lot ->
            Vehicle.id v = Vehicle.id (vehicle a) ->
            Vehicle.isLeftParking v = Vehicle.isLeftParking (vehicle a) ->
            telemetry_pair (Vehicle.id (vehicle a))
              (if Vehicle.isLeftParking (vehicle a) then 11 else 10)
              (getWaitingCount lot) (sendUpdate v lot parked)).
  { intros v parked H1 H2 H3. rewrite <- H2, <- H3. apply sendUpdate_telemetry, H1. }
  assert (Hdrive : forall target next,
            snd (drive a lot target next) = [] \/
            telemetry_pair (Vehicle.id (vehicle a))
              (if Vehicle.isLeftParking (vehicle a) then 11 else 10)
              (getWaitingCount lot) (snd (drive a lot target next))).
  { intros target next.
    destruct (drive_cases a lot target next) as (x' & y' & [[_ ->] | [_ ->]]); cbn [snd];
      [left; reflexivity | right]. apply Hsend; [exact Hlot | reflexivity | reflexivity]. }
  unfold actor_step. destruct (phase a); try apply Hdrive; cbn [snd];
    try (left; reflexivity);
    try (right; apply Hsend; [exact Hlot | reflexivity | reflexivity]).
  - destruct (may_pass state (vehicle a)); cbn [snd]; [left; reflexivity|].
    destruct (func a); first [left; reflexivity
                             | right; apply Hsend; [exact Hlot | reflexivity | reflexivity]].
  - destruct (enterQueue lot) as [i l']. destruct (i =? -1); left; reflexivity.
  - destruct (waitForSpot lot queueIdx) as [[s l']|]; left; reflexivity.
Qed.

Lemma actor_run_telemetry f id ty sched : forall a lot,
  identity_inv f id ty a -> has_lot a ->
  Forall2 (fun found s =>
             snd s = [] \/
             telemetry_pair id (lot_id f) (getWaitingCount (fst found)) (snd s))
          (actor_lots a lot sched) (actor_run a lot sched).
Proof.
  induction sched as [|e rest IH]; intros a lot Hid Hlot; cbn [actor_lots actor_run];
    [constructor|].
  pose proof (actor_step_telemetry f id ty a (env_light e)
                (match env_lot e with Some l => l | None => lot end) Hid Hlot) as Hfr.
  pose proof (actor_step_identity f id ty a (env_light e)
                (match env_lot e with Some l => l | None => lot end) Hid) as [Hid' _].
  pose proof (actor_step_update_pair a (env_light e)
                (match env_lot e with Some l => l | None => lot end) Hlot) as [Hlot' _].
  destruct (actor_step a (env_light e) _) as [[a' lot'] frames]. cbn [fst snd] in *.
  constructor; [exact Hfr | apply IH; assumption].
Qed.

(** C10.  A [sendUpdate] by a vehicle with a lot writes exactly two
    frames, both under the frame magic: the VEHICLE_UPDATE of the
    vehicle, with the [parked] flag it was called with, then a
    PARKING_UPDATE whose [waitingCount] is the lot's current
    [getWaitingCount()] and whose [intersectionId] is 11 for the left
    lot and 10 otherwise.  Hence every iteration of a drive loop that has
    not reached its target writes this pair, and along every run of
    every thread function a step writes either nothing or this pair, for
    the vehicle's id, the intersection of its thread function and the
    count of the lot as the step found it. *)
Theorem sendUpdate_with_lot :
  (forall v lot parked,
     Vehicle.parkingLot v = controller_lot ->
     exists m1 m2 vs,
       sendUpdate v lot parked = [m1; m2] /\
       PipeMessage.magic m1 = MSG_MAGIC /\
       PipeMessage.type m1 = PipeMessage.VEHICLE_UPDATE /\
       PipeMessage.data m1 = PipeMessage.vehicle vs /\
       VehicleState.id vs = Vehicle.id v /\
       VehicleState.isParked vs = parked /\
       PipeMessage.magic m2 = MSG_MAGIC /\
       PipeMessage.type m2 = PipeMessage.PARKING_UPDATE /\
       PipeMessage.data m2 =
         PipeMessage.parking
           {| ParkingUpdate.intersectionId := if Vehicle.isLeftParking v then 11 else 10;
              ParkingUpdate.waitingCount := getWaitingCount lot |}) /\
  (forall a lot target next x' y',
     Vehicle.parkingLot (vehicle a) = controller_lot ->
     moveTowards (Vehicle.x (vehicle a)) (Vehicle.y (vehicle a))
                 (fst target) (snd target) (Vehicle.speed (vehicle a))
       = (false, (x', y')) ->
     telemetry_pair (Vehicle.id (vehicle a))
       (if Vehicle.isLeftParking (vehicle a) then 11 else 10)
       (getWaitingCount lot) (snd (drive a lot target next))) /\
  (forall f id type pipeFd x y endX endY stopLine commuter lot sched,
     Forall2 (fun found s =>
                snd s = [] \/
                telemetry_pair id (lot_id f) (getWaitingCount (fst found)) (snd s))
       (actor_lots (spawn f id type pipeFd controller_lot x y endX endY
                          stopLine commuter) lot sched)
       (actor_run (spawn f id type pipeFd controller_lot x y endX endY
                         stopLine commuter) lot sched)).
Proof.
  split; [|split].
  - intros v lot parked Hlot. unfold sendUpdate. rewrite Hlot.
    eexists _, _, (state_of v parked). split; [reflexivity|].
    rewrite vehicle_frame_data. cbn.
    assert (Hst : VehicleState.id (state_of v parked) = Vehicle.id v /\
                  VehicleState.isParked (state_of v parked) = parked).
    { unfold state_of, vehicle_frame.
      destruct (getColor (Vehicle.type v)) as [[r g] b]. split; reflexivity. }
    destruct Hst as [H1 H2]. repeat split; assumption.
  - intros a lot target next x' y' Hlot Hmove. unfold drive. rewrite Hmove.
    cbn [snd]. apply (sendUpdate_telemetry (Vehicle.set_pos (vehicle a) x' y')), Hlot.
  - intros. apply (actor_run_telemetry f id type); [repeat split | reflexivity].
Qed.

Lemma sendUpdate_with_lot_witness :
  Vehicle.parkingLot car_at_stop_line = controller_lot /\
  exists m1 m2,
    sendUpdate car_at_stop_line lot_queue_full false = [m1; m2] /\
    PipeMessage.data m2 = PipeMessage.parking (ParkingUpdate.mk 10 5).
Proof.
  split; [reflexivity|].
  destruct sendUpdate_with_lot as [Hsend _].
  destruct (Hsend car_at_stop_line lot_queue_full false eq_refl)
    as (m1 & m2 & vs & Heq & _ & _ & _ & _ & _ & _ & _ & Hdata).
  exists m1, m2. split; [exact Heq | exact Hdata].
Defined.

Lemma actor_run_finished sched : forall a lot,
  phase a = Finished ->
  Forall (fun s => snd s = []) (actor_run a lot sched).
Proof.
  induction sched as [|e rest IH]; intros a lot Hp; cbn [actor_run]; [constructor|].
  unfold actor_step. rewrite Hp. constructor; [reflexivity | apply IH, Hp].
Qed.

Lemma sendUpdate_active v lot parked :
  Vehicle.active v = true ->
  Forall (fun m => is_inactive_frame m = false) (sendUpdate v lot parked).
Proof.
  intros Ha. unfold sendUpdate. constructor.
  - unfold is_inactive_frame, vehicle_frame.
    destruct (getColor (Vehicle.type v)) as [[r g] b]. cbn. rewrite Ha. reflexivity.
  - destruct (Vehicle.parkingLot v); repeat constructor.
Qed.

(** A step that writes a frame reporting the vehicle inactive ends the
    thread function. *)
Lemma actor_step_inactive_frame a state lot :
  live_inv a ->
  Exists (fun m => is_inactive_frame m = true) (snd (actor_step a state lot)) ->
  phase (fst (fst (actor_step a state lot))) = Finished.
Proof.
  intros Hl.
  assert (Hno : forall frames : list PipeMessage.t,
            Forall (fun m => is_inactive_frame m = false) frames ->
            Exists (fun m => is_inactive_frame m = true) frames -> False).
  { intros frames Hall Hex. rewrite Forall_forall in Hall. rewrite Exists_exists in Hex.
    destruct Hex as (m & Hin & Hm). rewrite (Hall _ Hin) in Hm. discriminate. }
  assert (Hdrive : forall target next,
            phase a <> Finished ->
            Forall (fun m => is_inactive_frame m = false) (snd (drive a lot target next))).
  { intros target next Hnf.
    destruct (drive_cases a lot target next) as (x' & y' & [[_ ->] | [_ ->]]);
      [constructor|]. apply sendUpdate_active. cbn. apply Hl, Hnf. }
  unfold actor_step. destruct (phase a) eqn:Hp;
    try (intros Hex; exfalso; revert Hex; apply Hno, Hdrive; congruence);
    cbn [fst snd]; try (intros Hex; exfalso; revert Hex; apply Hno; constructor; fail).
  - destruct (may_pass state (vehicle a)); cbn [fst snd];
      intros Hex; exfalso; revert Hex; apply Hno; [constructor|].
    destruct (func a); try solve [constructor].
    apply sendUpdate_active, Hl. congruence.
  - destruct (enterQueue lot) as [i l']. destruct (i =? -1); cbn [fst snd];
      intros Hex; exfalso; revert Hex; apply Hno; constructor.
  - intros Hex; exfalso; revert Hex; apply Hno, sendUpdate_active, Hl. congruence.
  - destruct (waitForSpot lot queueIdx) as [[s l']|]; cbn [fst snd];
      intros Hex; exfalso; revert Hex; apply Hno; constructor.
  - intros Hex; exfalso; revert Hex; apply Hno, sendUpdate_active, Hl. congruence.
  - reflexivity.
Qed.

Lemma actor_run_inactive_last sched : forall a lot pre s post,
  live_inv a ->
  actor_run a lot sched = pre ++ s :: post ->
  Exists (fun m => is_inactive_frame m = true) (snd s) ->
  Forall (fun s' => snd s' = []) post.
Proof.
  induction sched as [|e rest IH]; intros a lot pre s post Hl Hrun Hex;
    cbn [actor_run] in Hrun.
  - destruct pre; discriminate Hrun.
  - pose proof (actor_step_live a (env_light e)
                  (match env_lot e with Some l => l | None => lot end) Hl) as Hl'.
    pose proof (actor_step_inactive_frame a (env_light e)
                  (match env_lot e with Some l => l | None => lot end) Hl) as Hfin.
    destruct (actor_step a (env_light e) _) as [[a' lot'] frames]. cbn [fst snd] in *.
    destruct pre as [|p pre]; cbn in Hrun; injection Hrun as Hhd Htl.
    + subst s. cbn [snd] in Hex. rewrite <- Htl.
      apply actor_run_finished, Hfin, Hex.
    + exact (IH a' lot' pre s post Hl' Htl Hex).
Qed.

(** The frame that reports a vehicle inactive is the last thing its
    thread ever writes: in every run from a spawned vehicle, no step
    after the one that wrote such a frame writes anything. *)
Theorem inactive_frame_is_last f id ty pipeFd lot x y endX endY stopLine commuter
        l sched pre s post :
  actor_run (spawn f id ty pipeFd lot x y endX endY stopLine commuter) l sched
    = pre ++ s :: post ->
  Exists (fun m => is_inactive_frame m = true) (snd s) ->
  Forall (fun s' => snd s' = []) post.
Proof.
  intros Hrun Hex. eapply actor_run_inactive_last; [|exact Hrun | exact Hex].
  intros _. reflexivity.
Qed.

Lemma inactive_frame_is_last_witness :
  let run := actor_run standing_bus ParkingLot_new (replicate 6 (mkStepEnv GREEN None)) in
  exists s, run !! 3%nat = Some s /\
    Exists (fun m => is_inactive_frame m = true) (snd s) /\
    Forall (fun s' => snd s' = []) (drop 4 run).
Proof.
  intros run.
  destruct (run !! 3%nat) as [s|] eqn:Hs; [|vm_compute in Hs; discriminate Hs].
  assert (Hrun : run = take 3 run ++ s :: drop 4 run).
  { vm_compute in Hs. injection Hs as <-. vm_compute. reflexivity. }
  assert (Hex : Exists (fun m => is_inactive_frame m = true) (snd s)).
  { vm_compute in Hs. injection Hs as <-. apply Exists_cons_hd. reflexivity. }
  exists s. split; [reflexivity|]. split; [exact Hex|].
  exact (inactive_frame_is_last vehicleThreadFunc 7 BUS 1 controller_lot 240 400 240 400
           (float_of_int 240) false ParkingLot_new (replicate 6 (mkStepEnv GREEN None))
           (take 3 run) s (drop 4 run) Hrun Hex).
Defined.

(** ** Vehicle threads: the gate *)

Lemma actor_run_held_at_red sched : forall a lot,
  phase a = CheckLight ->
  is_emergency (Vehicle.type (vehicle a)) = false ->
  all_red sched ->
  Forall (fun s => fst s = a) (actor_run a lot sched).
Proof.
  induction sched as [|e rest IH]; intros a lot Hp He Hred; cbn [actor_run]; [constructor|].
  inversion Hred as [|e' rest' Hr Hrest]; subst.
  unfold actor_step. rewrite Hp, Hr. unfold may_pass. rewrite He.
  constructor; [reflexivity|]. apply IH; assumption.
Qed.

(** At the gate, while every reading is RED: a vehicle that is not an
    AMBULANCE or FIRETRUCK stays where it is for the whole run, and
    changes neither its own fields nor the lot; an AMBULANCE or FIRETRUCK
    passes on its first reading and heads for its end point without
    entering the parking path. *)
Theorem gate_at_red a lot sched :
  phase a = CheckLight ->
  all_red sched ->
  (is_emergency (Vehicle.type (vehicle a)) = false ->
   Forall (fun s => fst s = a) (actor_run a lot sched) /\
   Forall (fun p => snd p = fst p) (actor_lots a lot sched)) /\
  (is_emergency (Vehicle.type (vehicle a)) = true ->
   actor_step a RED lot = (goto a ToEnd, lot, [])).
Proof.
  intros Hp Hred. split; intros He.
  - split; [apply actor_run_held_at_red; assumption|].
    revert lot. induction Hred as [|e rest Hr Hrest IH]; intros lot;
      cbn [actor_lots]; [constructor|].
    unfold actor_step. rewrite Hp, Hr. unfold may_pass. rewrite He.
    constructor; [reflexivity | apply IH].
  - unfold actor_step. rewrite Hp. unfold may_pass. rewrite He.
    assert (Hw : willPark (vehicle a) = false).
    { unfold willPark. destruct (Vehicle.parkingLot (vehicle a)); [reflexivity|].
      destruct (Vehicle.type (vehicle a)); try discriminate He; reflexivity. }
    rewrite Hw. reflexivity.
Qed.

Lemma gate_at_red_witness :
  let a := goto local_car CheckLight in
  let sched := [mkStepEnv RED None; mkStepEnv RED (Some lot_queue_full); mkStepEnv RED None] in
  Forall (fun s => fst s = a) (actor_run a lot_one_parked sched).
Proof.
  intros a sched.
  assert (Hred : all_red sched) by (repeat constructor).
  exact (proj1 (proj1 (gate_at_red a lot_one_parked sched eq_refl Hred) eq_refl)).
Defined.

(** ** [moveTowards] on a NaN *)

Lemma fadd_nan_l x : fadd S754_nan x = S754_nan.
Proof. reflexivity. Qed.
Lemma fadd_nan_r x : fadd x S754_nan = S754_nan.
Proof. destruct x; reflexivity. Qed.
Lemma fsub_nan_l x : fsub S754_nan x = S754_nan.
Proof. reflexivity. Qed.
Lemma fsub_nan_r x : fsub x S754_nan = S754_nan.
Proof. destruct x; reflexivity. Qed.
Lemma fmul_nan_l x : fmul S754_nan x = S754_nan.
Proof. reflexivity. Qed.
Lemma fmul_nan_r x : fmul x S754_nan = S754_nan.
Proof. destruct x; reflexivity. Qed.
Lemma fdiv_nan_l x : fdiv S754_nan x = S754_nan.
Proof. reflexivity. Qed.
Lemma fdiv_nan_r x : fdiv x S754_nan = S754_nan.
Proof. destruct x; reflexivity. Qed.
Lemma fltb_nan_l x : fltb S754_nan x = false.
Proof. reflexivity. Qed.
Lemma fltb_nan_r x : fltb x S754_nan = false.
Proof. destruct x as [s|s| |s m e]; try reflexivity; destruct s; reflexivity. Qed.

(** A NaN in any argument of [moveTowards] (a coordinate of the vehicle
    or of the target, or the speed) makes the call report that the
    target is not reached and turns both coordinates into NaN: the
    drive loop that called it can never end. *)
Theorem moveTowards_nan currX currY targetX targetY speed :
  is_nan currX || is_nan currY || is_nan targetX || is_nan targetY || is_nan speed = true ->
  moveTowards currX currY targetX targetY speed = (false, (S754_nan, S754_nan)).
Proof.
  intros H. unfold moveTowards.
  assert (Hcase : currX = S754_nan \/ currY = S754_nan \/ targetX = S754_nan \/
                  targetY = S754_nan \/ speed = S754_nan).
  { destruct currX, currY, targetX, targetY, speed; cbn in H; try discriminate H; tauto. }
  assert (Hdist : speed = S754_nan \/
            fsqrt (fadd (fmul (fsub targetX currX) (fsub targetX currX))
                        (fmul (fsub targetY currY) (fsub targetY currY))) = S754_nan).
  { destruct Hcase as [-> | [-> | [-> | [-> | ->]]]]; [right | right | right | right | left; reflexivity];
      rewrite ?fsub_nan_l, ?fsub_nan_r, ?fmul_nan_l, ?fadd_nan_l, ?fadd_nan_r; reflexivity. }
  destruct Hdist as [-> | ->].
  - rewrite fltb_nan_r, fdiv_nan_l, !fmul_nan_r, !fadd_nan_r. reflexivity.
  - rewrite fltb_nan_l, fdiv_nan_r, !fmul_nan_r, !fadd_nan_r. reflexivity.
Qed.

Lemma moveTowards_nan_witness :
  moveTowards (float_of_int 240) S754_nan (float_of_int 300) (float_of_int 320)
              (float_of_int 2) = (false, (S754_nan, S754_nan)).
Proof. apply moveTowards_nan. reflexivity. Defined.

(** ** The reading loops *)

Lemma le32_length z : length (le32 z) = 4%nat.
Proof. reflexivity. Qed.

(** One [read] that returns a whole LIGHT_UPDATE frame: the light of the
    pipe's own intersection takes the state in the frame, whatever
    intersection id the frame carries. *)
Theorem on_read_light_frame p pad id s st :
  int_range id ->
  on_read p (frame_bytes pad (light_frame id s)) st = show_light p s st.
Proof.
  intros Hid. unfold on_read.
  rewrite frame_bytes_length, Nat.eqb_refl. cbn [negb].
  unfold frame_bytes, light_frame.
  cbn [PipeMessage.magic PipeMessage.type PipeMessage.data tag_of_Type data_bytes
       TrafficLightUpdate.intersectionId TrafficLightUpdate.state].
  rewrite get_u32_le32 by (unfold MSG_MAGIC; lia).
  rewrite Z.eqb_refl. cbn [negb].
  rewrite get_u32_le32 by lia.
  change (1 =? 0) with false. change (1 =? 1) with true. cbv iota.
  unfold read_light.
  rewrite (get_int_le32 _ _ Hid).
  replace (le32 (tag_of_light s)) with (le32 (u32_of_int (tag_of_light s)))
    by (destruct s; reflexivity).
  rewrite get_int_le32 by (destruct s; cbn; lot_lia).
  destruct p; reflexivity.
Qed.

Lemma on_read_light_frame_witness :
  on_read pipeF11 (frame_bytes no_pad (light_frame 11 GREEN)) Visualizer_init
    = show_light pipeF11 GREEN Visualizer_init.
Proof. apply on_read_light_frame. unfold int_range, INT_MIN, INT_MAX. lia. Defined.

Lemma on_read_parking p pad id waiting st :
  int_range id -> int_range waiting ->
  on_read p (frame_bytes pad (parking_frame id waiting)) st =
    if id =? intersection_of p then show_queue_count p waiting st else st.
Proof.
  intros Hid Hw. unfold on_read.
  rewrite frame_bytes_length, Nat.eqb_refl. cbn [negb].
  unfold frame_bytes, parking_frame.
  cbn [PipeMessage.magic PipeMessage.type PipeMessage.data tag_of_Type data_bytes
       ParkingUpdate.intersectionId ParkingUpdate.waitingCount].
  rewrite get_u32_le32 by (unfold MSG_MAGIC; lia).
  rewrite Z.eqb_refl. cbn [negb].
  rewrite get_u32_le32 by lia.
  change (2 =? 0) with false. change (2 =? 1) with false. change (2 =? 2) with true.
  cbv iota.
  unfold read_ParkingUpdate.
  rewrite (get_int_le32 _ _ Hid), (get_int_le32 _ _ Hw).
  cbn [ParkingUpdate.intersectionId ParkingUpdate.waitingCount].
  destruct p; reflexivity.
Qed.

(** One [read] that returns a whole PARKING_UPDATE frame: the queue
    count of the pipe's intersection takes the count in the frame when
    the frame carries that intersection's id (10 on [pipeF10], 11 on
    [pipeF11]); a frame carrying any other id is dropped. *)
Theorem on_read_parking_frame p pad id waiting st :
  int_range id -> int_range waiting ->
  (id = intersection_of p ->
   on_read p (frame_bytes pad (parking_frame id waiting)) st
     = show_queue_count p waiting st) /\
  (id <> intersection_of p ->
   on_read p (frame_bytes pad (parking_frame id waiting)) st = st).
Proof.
  intros Hid Hw. rewrite (on_read_parking p pad id waiting st Hid Hw).
  destruct (Z.eqb_spec id (intersection_of p)) as [Heq|Hne]; split; intros H;
    first [reflexivity | contradiction].
Qed.

Lemma on_read_parking_frame_witness :
  on_read pipeF10 (frame_bytes no_pad (parking_frame 10 3)) Visualizer_init
    = show_queue_count pipeF10 3 Visualizer_init /\
  on_read pipeF10 (frame_bytes no_pad (parking_frame 11 3)) Visualizer_init
    = Visualizer_init.
Proof.
  assert (H10 : int_range 10) by (unfold int_range, INT_MIN, INT_MAX; lia).
  assert (H11 : int_range 11) by (unfold int_range, INT_MIN, INT_MAX; lia).
  assert (H3 : int_range 3) by (unfold int_range, INT_MIN, INT_MAX; lia).
  split.
  - apply (proj1 (on_read_parking_frame pipeF10 no_pad 10 3 Visualizer_init H10 H3)).
    reflexivity.
  - apply (proj2 (on_read_parking_frame pipeF10 no_pad 11 3 Visualizer_init H11 H3)).
    discriminate.
Defined.

Lemma drain_concat p bufs : forall st,
  Forall (fun buf => length buf = sizeof_PipeMessage) bufs ->
  drain p (concat bufs) st = fold_left (fun s buf => on_read p buf s) bufs st.
Proof.
  induction bufs as [|buf rest IH]; intros st Hall; [reflexivity|].
  inversion Hall as [|b r Hlen Hrest]; subst.
  cbn [concat fold_left]. rewrite (drain_frame p buf _ st Hlen). apply IH, Hrest.
Qed.

(** A burst of whole frames in the pipe, with or without the beginning
    of a further frame behind them, is taken apart frame by frame: the
    loop applies its body to each 48-byte buffer in arrival order
    (skipping, one by one, those it does not accept), and the incomplete
    last read changes nothing. *)
Theorem drain_whole_frames p bufs : forall fragment st,
  Forall (fun buf => length buf = sizeof_PipeMessage) bufs ->
  (length fragment < sizeof_PipeMessage)%nat ->
  drain p (concat bufs ++ fragment) st
    = fold_left (fun s buf => on_read p buf s) bufs st.
Proof.
  induction bufs as [|buf rest IH]; intros fragment st Hall Hfrag.
  - cbn [concat app fold_left]. apply drain_short, Hfrag.
  - apply Forall_cons in Hall as [Hlen Hrest].
    cbn [concat fold_left]. rewrite <- app_assoc.
    rewrite (drain_frame p buf _ st Hlen). apply IH; assumption.
Qed.

Lemma drain_whole_frames_witness :
  drain pipeF10 (concat [frame_bus; 0 :: take 47 frame_car; frame_car] ++ take 20 frame_bus)
        Visualizer_init
    = register (state_of car_at_stop_line false)
        (register (state_of bus_42 false) Visualizer_init).
Proof.
  rewrite drain_whole_frames; [vm_compute; reflexivity | repeat constructor |].
  vm_compute. lia.
Defined.

(** From a thread's [sendUpdate] to the screen state: the two frames a
    thread with a lot writes, read back from the pipe of the thread's
    controller, register the vehicle as sent and set that intersection's
    queue count to the lot's [waitingCount] at the time of the call. *)
Theorem sendUpdate_reaches_visualizer f v lot parked pad st :
  vehicle_well_formed v ->
  Vehicle.parkingLot v = controller_lot ->
  Vehicle.isLeftParking v = uses_left_lot f ->
  int_range (getWaitingCount lot) ->
  drain (pipe_of f) (concat (map (frame_bytes pad) (sendUpdate v lot parked))) st =
    show_queue_count (pipe_of f) (getWaitingCount lot) (register (state_of v parked) st).
Proof.
  intros Hwf Hlot Hleft Hw.
  rewrite drain_concat.
  - unfold sendUpdate. rewrite Hlot, Hleft. cbn [map fold_left].
    rewrite (on_read_vehicle_frame _ _ _ _ _ Hwf).
    rewrite on_read_parking; [|destruct (uses_left_lot f); lot_lia | exact Hw].
    unfold pipe_of. destruct (uses_left_lot f); reflexivity.
  - unfold sendUpdate. rewrite Hlot. repeat constructor; apply frame_bytes_length.
Qed.

Lemma sendUpdate_reaches_visualizer_witness :
  parkingQueueCountF10
    (drain pipeF10
       (concat (map (frame_bytes no_pad) (sendUpdate car_at_stop_line lot_queue_full false)))
       Visualizer_init) = 5.
Proof.
  change pipeF10 with (pipe_of vehicleThreadFunc).
  rewrite (sendUpdate_reaches_visualizer vehicleThreadFunc car_at_stop_line lot_queue_full
             false no_pad Visualizer_init).
  - reflexivity.
  - unfold vehicle_well_formed, int_range. vm_compute. repeat split; discriminate.
  - reflexivity.
  - reflexivity.
  - unfold int_range. vm_compute. split; discriminate.
Defined.

(** What one [read] can do to the state, whatever the bytes. *)
Lemma on_read_keeps p buf st :
  other_light p (on_read p buf st) = other_light p st /\
  other_queue_count p (on_read p buf st) = other_queue_count p st /\
  (forall id, is_Some (table st !! id) -> is_Some (table (on_read p buf st) !! id)).
Proof.
  unfold on_read.
  destruct (negb _); [auto|].
  destruct (get_u32 buf) as [[magic r]|]; [|auto].
  destruct (negb _); [auto|].
  destruct (get_u32 r) as [[type payload]|]; [|auto].
  destruct (type =? 0).
  { destruct (read_stored payload) as [e|]; [|auto].
    split; [destruct p; reflexivity|]. split; [destruct p; reflexivity|].
    intros id Hid. cbn [table].
    destruct (decide (Stored.id e = id)) as [<-|Hne].
    - rewrite lookup_insert_eq. eauto.
    - rewrite lookup_insert_ne by exact Hne. exact Hid. }
  destruct (type =? 1).
  { destruct (read_light payload) as [[i t]|]; [|auto].
    destruct p; auto. }
  destruct (type =? 2); [|auto].
  destruct (read_ParkingUpdate payload) as [u|]; [|auto].
  destruct p; destruct (ParkingUpdate.intersectionId u =? _); auto.
Qed.

Lemma drain_loop_keeps p fuel : forall avail st,
  other_light p (snd (drain_loop fuel p avail st)) = other_light p st /\
  other_queue_count p (snd (drain_loop fuel p avail st)) = other_queue_count p st /\
  (forall id, is_Some (table st !! id) ->
              is_Some (table (snd (drain_loop fuel p avail st)) !! id)).
Proof.
  induction fuel as [|fuel IH]; intros avail st; [cbn; auto|].
  destruct avail as [|b rest]; [cbn; auto|].
  cbn [drain_loop].
  destruct (IH (drop sizeof_PipeMessage (b :: rest))
               (on_read p (take sizeof_PipeMessage (b :: rest)) st)) as (H1 & H2 & H3).
  destruct (on_read_keeps p (take sizeof_PipeMessage (b :: rest)) st) as (K1 & K2 & K3).
  split; [congruence|]. split; [congruence|]. intros id Hid. apply H3, K3, Hid.
Qed.

(** A whole frame with the magic intact is stored without a look at its
    payload: a VEHICLE_UPDATE whose flag bytes are not 0 or 1 and whose
    type names no [VehicleType] still takes its id's place in the table,
    and a LIGHT_UPDATE sets the light to whatever [int] it carries. *)
Lemma on_read_stores_unchecked :
  let garbled :=
    le32 MSG_MAGIC ++ le32 0 ++
    le32 7 ++ le32 0 ++ le32 0 ++ le32 1 ++ le32 2 ++ le32 3 ++
    [2; 3; 4; 0] ++ le32 9 ++ [5; 0; 0; 0] ++ le32 77 in
  let st := on_read pipeF10 garbled Visualizer_init in
  length garbled = sizeof_PipeMessage /\
  table st !! 7 = Some (Stored.mk 7 (S754_zero false) (S754_zero false) 1 2 3 2 3 4 9 5 77) /\
  vehicles st !! 7 = None /\
  lightF10 (on_read pipeF10 (le32 MSG_MAGIC ++ le32 1 ++ le32 10 ++ le32 5 ++
                             replicate 32 0) Visualizer_init) = 5.
Proof. repeat split; vm_compute; reflexivity. Qed.

(** Whatever bytes a pipe delivers (frames, fragments, frames whose
    payload holds no value of its type, foreign data), its reading loop
    leaves the other intersection's light and queue count alone and
    never removes an entry from the table: an id once stored stays
    (its entry may be overwritten, by any frame that carries the id). *)
Theorem drain_keeps_other_side p avail st :
  other_light p (drain p avail st) = other_light p st /\
  other_queue_count p (drain p avail st) = other_queue_count p st /\
  (forall id, is_Some (table st !! id) -> is_Some (table (drain p avail st) !! id)).
Proof. apply drain_loop_keeps. Qed.

(** ** The F11 controller over whole iterations *)

Lemma check_emergency_quiet w : coord_quiet_until (clock w) w -> check_emergency w = w.
Proof.
  unfold coord_quiet_until, check_emergency, read_coord.
  destruct (coordIn w) as [|[t m] rest]; [reflexivity|]. intros Ht.
  destruct (Z.leb_spec t (clock w)); [lia | reflexivity].
Qed.

Lemma check_commands_quiet w : cmd_quiet w -> check_commands w = w.
Proof.
  unfold cmd_quiet, check_commands, read_cmd.
  destruct (cmdIn w) as [|[t c] rest]; [reflexivity|]. intros Ht.
  destruct (Z.leb_spec t (clock w)); [lia | reflexivity].
Qed.

Lemma red_polls_quiet n : forall w,
  coord_quiet_until (clock w + 500000 * Z.of_nat n) w ->
  red_polls n w = repeat_n n (usleep 500000) w.
Proof.
  induction n as [|n IH]; intros w Hq; [reflexivity|].
  cbn [red_polls repeat_n]. unfold read_coord.
  unfold coord_quiet_until in Hq.
  change (coordIn (usleep 500000 w)) with (coordIn w).
  change (clock (usleep 500000 w)) with (clock w + 500000).
  destruct (coordIn w) as [|[t m] rest] eqn:Hin.
  - apply IH. unfold coord_quiet_until.
    change (coordIn (usleep 500000 w)) with (coordIn w). rewrite Hin. exact I.
  - destruct (Z.leb_spec t (clock w + 500000)); [lia|].
    apply IH. unfold coord_quiet_until.
    change (coordIn (usleep 500000 w)) with (coordIn w). rewrite Hin.
    change (clock (usleep 500000 w)) with (clock w + 500000). lia.
Qed.

(** An iteration during which nothing arrives (no command in the pipe at
    its start, no coordination frame before its RED phase is over) is
    the plain cycle: RED is written and published, six half-second
    sleeps, GREEN is written and published, six half-second sleeps, then
    the PARKING_UPDATE of intersection 11; it takes exactly 6 s and
    starts no thread. *)
Theorem f11_quiet_iteration w :
  emergencyMode w = false ->
  cmd_quiet w ->
  coord_quiet_until (clock w + 3000000) w ->
  let c := clock w in
  let w' := f11_iteration w in
  clock w' = c + 6000000 /\
  lightState w' = GREEN /\
  vehicleIdCounter w' = vehicleIdCounter w /\
  localIdCounter w' = localIdCounter w /\
  log w' =
    log w ++
    [(c, EvGate RED); (c, EvSend (light_frame 11 RED));
     (c, EvSleep 500000); (c + 500000, EvSleep 500000);
     (c + 1000000, EvSleep 500000); (c + 1500000, EvSleep 500000);
     (c + 2000000, EvSleep 500000); (c + 2500000, EvSleep 500000);
     (c + 3000000, EvGate GREEN); (c + 3000000, EvSend (light_frame 11 GREEN));
     (c + 3000000, EvSleep 500000); (c + 3500000, EvSleep 500000);
     (c + 4000000, EvSleep 500000); (c + 4500000, EvSleep 500000);
     (c + 5000000, EvSleep 500000); (c + 5500000, EvSleep 500000);
     (c + 6000000, EvSend (parking_frame 11 (getWaitingCount (parkingLot w))))].
Proof.
  intros Hem Hcmd Hcoord c w'. subst w'. unfold f11_iteration.
  assert (Hq0 : coord_quiet_until (clock w) w).
  { unfold coord_quiet_until in *. destruct (coordIn w) as [|[t m] rest]; [exact I | lia]. }
  rewrite (check_emergency_quiet w Hq0), (check_commands_quiet w Hcmd), Hem.
  cbn [negb]. unfold red_phase.
  rewrite red_polls_quiet by exact Hcoord.
  subst c. destruct w as [c ls em ci cm vc lc rd pl fd lg].
  cbn. rewrite <- !app_assoc. cbn. rewrite <- !Z.add_assoc.
  repeat (split; [reflexivity|]). reflexivity.
Qed.

Lemma f11_quiet_iteration_witness :
  clock (f11_iteration f11_idle) = 6000000 /\
  lightState (f11_iteration f11_idle) = GREEN.
Proof.
  destruct (f11_quiet_iteration f11_idle) as (Hc & Hl & _);
    [reflexivity | exact I | exact I |].
  split; [exact Hc | exact Hl].
Defined.

Lemma red_polls_emergencyMode n : forall w,
  emergencyMode (red_polls n w) = emergencyMode w.
Proof.
  induction n as [|n IH]; intros w; [reflexivity|].
  cbn [red_polls]. unfold read_coord.
  change (coordIn (usleep 500000 w)) with (coordIn w).
  destruct (coordIn w) as [|[t m] rest]; [rewrite IH; reflexivity|].
  destruct (t <=? _); [|rewrite IH; reflexivity].
  destruct (is_emergency_msg m); [reflexivity | rewrite IH; reflexivity].
Qed.

Lemma check_emergency_emergencyMode w :
  emergencyMode w = false -> emergencyMode (check_emergency w) = false.
Proof.
  intros Hem. unfold check_emergency, read_coord.
  destruct (coordIn w) as [|[t m] rest]; [exact Hem|].
  destruct (t <=? clock w); [|exact Hem].
  destruct (is_emergency_msg m); [reflexivity | exact Hem].
Qed.

Lemma green_phase_emergencyMode w : emergencyMode (green_phase w) = emergencyMode w.
Proof. reflexivity. Qed.

Lemma red_phase_emergencyMode w : emergencyMode (red_phase w) = emergencyMode w.
Proof. unfold red_phase. rewrite red_polls_emergencyMode. reflexivity. Qed.

(** [emergencyMode] is never seen set where the loop tests it: it is
    raised and lowered again inside the preemption block.  So every
    iteration, preempted or not, goes on through the RED and the GREEN
    phase, and ends with the gate GREEN and the PARKING_UPDATE of
    intersection 11 as its last write. *)
Theorem f11_iteration_always_cycles w :
  emergencyMode w = false ->
  let w' := f11_iteration w in
  w' = green_phase (red_phase (check_commands (check_emergency w))) /\
  emergencyMode w' = false /\
  lightState w' = GREEN /\
  exists earlier waiting,
    log w' = earlier ++ [(clock w', EvSend (parking_frame 11 waiting))].
Proof.
  intros Hem w'.
  assert (Hem2 : emergencyMode (check_commands (check_emergency w)) = false).
  { destruct (check_commands_neutral (check_emergency w)) as (_ & -> & _).
    apply check_emergency_emergencyMode, Hem. }
  assert (Heq : w' = green_phase (red_phase (check_commands (check_emergency w)))).
  { subst w'. unfold f11_iteration. rewrite Hem2. reflexivity. }
  split; [exact Heq|]. rewrite Heq.
  split.
  { rewrite green_phase_emergencyMode, red_phase_emergencyMode. exact Hem2. }
  generalize (red_phase (check_commands (check_emergency w))). intros x.
  split; [reflexivity|].
  eexists _, _. unfold green_phase. cbn. reflexivity.
Qed.

Lemma f11_iteration_always_cycles_witness :
  lightState (f11_iteration f11_two_signals) = GREEN /\
  emergencyMode (f11_iteration f11_two_signals) = false.
Proof.
  destruct (f11_iteration_always_cycles f11_two_signals eq_refl) as (_ & Hm & Hl & _).
  split; [exact Hl | exact Hm].
Defined.

(** Input the controller does not act on is still taken out of its
    pipe: a CLEAR_INTERSECTION frame, a command whose magic is wrong,
    and the commands NONE and GREEN_WAVE are read, and that is all that
    happens. *)
Theorem f11_ignored_input w :
  (forall m w', read_coord w = (Some m, w') ->
     CoordinationMessage.type m = CoordinationMessage.CLEAR_INTERSECTION ->
     check_emergency w = w' /\ coordIn w' = tail (coordIn w)) /\
  (forall c w', read_cmd w = (Some c, w') ->
     CommandMessage.magic c <> CMD_MAGIC \/
     CommandMessage.command c = NONE \/ CommandMessage.command c = GREEN_WAVE ->
     check_commands w = w' /\ cmdIn w' = tail (cmdIn w)).
Proof.
  split.
  - intros m w' Hr Hty. unfold check_emergency. rewrite Hr.
    unfold is_emergency_msg. rewrite Hty. split; [reflexivity|].
    unfold read_coord in Hr. destruct (coordIn w) as [|[t m'] rest]; [discriminate|].
    destruct (t <=? clock w); [|discriminate]. injection Hr as _ <-. reflexivity.
  - intros c w' Hr Hc. unfold check_commands. rewrite Hr. split.
    + destruct (Z.eqb_spec (CommandMessage.magic c) CMD_MAGIC) as [Hm|Hm]; cbn [negb];
        [|reflexivity].
      destruct Hc as [Hc | [-> | ->]]; [contradiction | reflexivity | reflexivity].
    + unfold read_cmd in Hr. destruct (cmdIn w) as [|[t c'] rest]; [discriminate|].
      destruct (t <=? clock w); [|discriminate]. injection Hr as _ <-. reflexivity.
Qed.

Lemma f11_ignored_input_witness :
  coordIn (check_emergency f11_foreign_input) = [] /\
  lightState (check_emergency f11_foreign_input) = RED /\
  cmdIn (check_commands f11_foreign_input) = [] /\
  spawned (log (check_commands f11_foreign_input)) = [].
Proof.
  destruct (f11_ignored_input f11_foreign_input) as [Hcoord Hcmd].
  destruct (Hcoord _ _ eq_refl eq_refl) as [-> _].
  destruct (Hcmd _ _ eq_refl (or_intror (or_intror eq_refl))) as [-> _].
  repeat split.
Defined.

Lemma spawned_app l1 l2 : spawned (l1 ++ l2) = spawned l1 ++ spawned l2.
Proof. unfold spawned. apply flat_map_app. Qed.

Lemma consecutive_lower start n : Forall (fun i => start <= i) (consecutive start n).
Proof.
  revert start. induction n as [|n IH]; intros start; cbn [consecutive]; constructor; [lia|].
  eapply Forall_impl; [apply IH|]. intros i Hi. cbn in Hi. lia.
Qed.

Lemma consecutive_NoDup start n : NoDup (consecutive start n).
Proof.
  revert start. induction n as [|n IH]; intros start; cbn [consecutive];
    [apply NoDup_nil_2|].
  apply NoDup_cons_2; [|apply IH].
  intros Hin. pose proof (consecutive_lower (start + 1) n) as Hlow.
  rewrite Forall_forall in Hlow. specialize (Hlow _ Hin). lia.
Qed.

(** [n] rounds of "spawn from the right, then sleep". *)
Lemma spawnVehicle_burst ty d n : forall w,
  INT_MIN <= vehicleIdCounter w ->
  vehicleIdCounter w + Z.of_nat n <= INT_MAX ->
  let w' := repeat_n n (fun w => usleep d (spawnVehicle ty w)) w in
  clock w' = clock w + Z.of_nat n * d /\
  vehicleIdCounter w' = vehicleIdCounter w + Z.of_nat n /\
  localIdCounter w' = localIdCounter w /\
  writePipeFd w' = writePipeFd w /\
  spawned (log w') =
    spawned (log w) ++
    map (fun id => spawn f11VehicleThreadFunc id ty (writePipeFd w) controller_lot
                     1200 400 0 400 (float_of_int 960) false)
        (consecutive (vehicleIdCounter w) n).
Proof.
  induction n as [|n IH]; intros w Hlo Hhi w'; subst w'.
  - cbn [repeat_n consecutive map]. rewrite app_nil_r.
    repeat split; lia.
  - cbn [repeat_n consecutive map].
    set (w1 := usleep d (spawnVehicle ty w)).
    assert (Hid : vehicleIdCounter w1 = vehicleIdCounter w + 1).
    { subst w1. cbn. apply int_incr_exact. lot_lia. }
    destruct (IH w1) as (Hc & Hv & Hl & Hf & Hs); [lia | lia |].
    rewrite Hc, Hv, Hl, Hf, Hs, Hid.
    split; [subst w1; cbn; lia|]. split; [lia|].
    split; [reflexivity|]. split; [reflexivity|].
    subst w1. cbn [usleep spawnVehicle record log writePipeFd].
    rewrite !spawned_app. cbn. rewrite <- !app_assoc. reflexivity.
Qed.

(** A PARKING_FULL command: sixteen threads are started from the right,
    0.2 s apart (3.2 s in all, during which the gate is not touched and
    no pipe is read), all CARs running [f11VehicleThreadFunc] with the
    controller's lot, under sixteen consecutive, pairwise different ids
    counting up from [vehicleIdCounter]. *)
Theorem f11_parking_full_burst w c w1 :
  read_cmd w = (Some c, w1) ->
  CommandMessage.magic c = CMD_MAGIC ->
  CommandMessage.command c = PARKING_FULL ->
  INT_MIN <= vehicleIdCounter w ->
  vehicleIdCounter w + 16 <= INT_MAX ->
  let w' := check_commands w in
  let ids := consecutive (vehicleIdCounter w) 16 in
  clock w' = clock w + 3200000 /\
  lightState w' = lightState w /\
  coordIn w' = coordIn w /\
  vehicleIdCounter w' = vehicleIdCounter w + 16 /\
  localIdCounter w' = localIdCounter w /\
  NoDup ids /\
  spawned (log w') =
    spawned (log w) ++
    map (fun id => spawn f11VehicleThreadFunc id CAR (writePipeFd w) controller_lot
                     1200 400 0 400 (float_of_int 960) false) ids.
Proof.
  intros Hr Hm Hc Hlo Hhi w' ids.
  pose proof (check_commands_neutral w) as (Hn1 & _ & Hn3 & _).
  subst w'. fold ids in Hn1. unfold check_commands in *. rewrite Hr in *.
  rewrite Hm, Z.eqb_refl, Hc in *. cbn [negb] in *.
  assert (Hw1 : clock w1 = clock w /\ vehicleIdCounter w1 = vehicleIdCounter w /\
                localIdCounter w1 = localIdCounter w /\ writePipeFd w1 = writePipeFd w /\
                spawned (log w1) = spawned (log w)).
  { unfold read_cmd in Hr. destruct (cmdIn w) as [|[t c'] rest]; [discriminate|].
    destruct (t <=? clock w); [|discriminate]. injection Hr as _ <-.
    cbn. rewrite spawned_app. cbn. rewrite app_nil_r. repeat split. }
  destruct Hw1 as (Hc1 & Hv1 & Hl1 & Hf1 & Hs1).
  destruct (spawnVehicle_burst CAR 200000 16 w1) as (Hck & Hv & Hl & _ & Hs);
    [lia | lia |].
  rewrite Hck, Hv, Hl, Hs, Hc1, Hv1, Hl1, Hf1, Hs1.
  split; [lia|]. split; [exact Hn3|]. split; [exact Hn1|]. split; [lia|].
  split; [reflexivity|]. split; [apply consecutive_NoDup | reflexivity].
Qed.

Lemma f11_parking_full_burst_witness :
  clock (check_commands f11_parking_full) = 3200000 /\
  vehicleIdCounter (check_commands f11_parking_full) = 116 /\
  length (spawned (log (check_commands f11_parking_full))) = 16%nat.
Proof.
  destruct (f11_parking_full_burst f11_parking_full _ _ eq_refl eq_refl eq_refl)
    as (Hc & _ & _ & Hv & _ & _ & Hs).
  - vm_compute. discriminate.
  - vm_compute. discriminate.
  - split; [exact Hc|]. split; [exact Hv|]. rewrite Hs. reflexivity.
Defined.

(** *** What the controller spawns *)

Lemma VehicleType_of_draw_ordinary r :
  0 <= r -> is_emergency (VehicleType_of_draw r) = false.
Proof.
  intros Hr. unfold VehicleType_of_draw.
  assert (H : Z.rem r 4 = 0 \/ Z.rem r 4 = 1 \/ Z.rem r 4 = 2 \/ Z.rem r 4 = 3).
  { pose proof (Z.rem_bound_pos r 4 Hr ltac:(lia)). lia. }
  destruct H as [-> | [-> | [-> | ->]]]; reflexivity.
Qed.

Lemma no_emergency_same w w' :
  rand_draws w' = rand_draws w ->
  spawned (log w') = spawned (log w) ->
  no_emergency_spawned w -> no_emergency_spawned w'.
Proof. unfold no_emergency_spawned. intros -> ->. auto. Qed.

Lemma spawned_record_other e w :
  (forall a, e <> EvSpawn a) -> spawned (log (record e w)) = spawned (log w).
Proof.
  intros He. cbn [record log]. rewrite spawned_app. cbn.
  destruct e; try (rewrite app_nil_r; reflexivity). exfalso. eapply He. reflexivity.
Qed.

Lemma no_emergency_usleep d w : no_emergency_spawned w -> no_emergency_spawned (usleep d w).
Proof.
  apply no_emergency_same; [reflexivity|].
  apply (spawned_record_other (EvSleep d) w). discriminate.
Qed.

Lemma no_emergency_send m w : no_emergency_spawned w -> no_emergency_spawned (send m w).
Proof.
  apply no_emergency_same; [reflexivity|].
  apply (spawned_record_other (EvSend m) w). discriminate.
Qed.

Lemma no_emergency_set_light s w :
  no_emergency_spawned w -> no_emergency_spawned (set_light s w).
Proof.
  apply no_emergency_same; [reflexivity|].
  apply (spawned_record_other (EvGate s) w). discriminate.
Qed.

Lemma no_emergency_set_emergencyMode b w :
  no_emergency_spawned w -> no_emergency_spawned (set_emergencyMode b w).
Proof. apply no_emergency_same; reflexivity. Qed.

Lemma no_emergency_read_coord w :
  no_emergency_spawned w -> no_emergency_spawned (snd (read_coord w)).
Proof.
  unfold read_coord. destruct (coordIn w) as [|[t m] rest]; [auto|].
  destruct (t <=? clock w); [|auto]. cbn [snd].
  apply no_emergency_same; [reflexivity|].
  cbn [record log]. rewrite spawned_app. cbn. apply app_nil_r.
Qed.

Lemma no_emergency_read_cmd w :
  no_emergency_spawned w -> no_emergency_spawned (snd (read_cmd w)).
Proof.
  unfold read_cmd. destruct (cmdIn w) as [|[t c] rest]; [auto|].
  destruct (t <=? clock w); [|auto]. cbn [snd].
  apply no_emergency_same; [reflexivity|].
  cbn [record log]. rewrite spawned_app. cbn. apply app_nil_r.
Qed.

Lemma no_emergency_rand w :
  no_emergency_spawned w ->
  0 <= fst (rand w) /\ no_emergency_spawned (snd (rand w)).
Proof.
  unfold rand, no_emergency_spawned. intros [Hr Hs].
  destruct (rand_draws w) as [|r rest] eqn:Hd; cbn [fst snd].
  - split; [lia|]. rewrite Hd. split; assumption.
  - apply Forall_cons in Hr as [Hr0 Hrest]. split; [exact Hr0|]. cbn. split; assumption.
Qed.

Lemma no_emergency_spawnVehicle ty w :
  is_emergency ty = false ->
  no_emergency_spawned w -> no_emergency_spawned (spawnVehicle ty w).
Proof.
  unfold no_emergency_spawned. intros Hty [Hr Hs]. split; [exact Hr|].
  cbn [spawnVehicle record log]. rewrite spawned_app. apply Forall_app. split; [exact Hs|].
  cbn. constructor; [exact Hty | constructor].
Qed.

Lemma no_emergency_spawnLocalVehicle ty w :
  is_emergency ty = false ->
  no_emergency_spawned w -> no_emergency_spawned (spawnLocalVehicle ty w).
Proof.
  unfold no_emergency_spawned. intros Hty [Hr Hs]. split; [exact Hr|].
  cbn [spawnLocalVehicle record log]. rewrite spawned_app. apply Forall_app.
  split; [exact Hs|]. cbn. constructor; [exact Hty | constructor].
Qed.

Lemma repeat_n_keeps (P : F11 -> Prop) (body : F11 -> F11) :
  (forall w, P w -> P (body w)) -> forall n w, P w -> P (repeat_n n body w).
Proof.
  intros Hb n. induction n as [|n IH]; intros w Hw; cbn [repeat_n]; auto.
Qed.

Lemma no_emergency_check_emergency w :
  no_emergency_spawned w -> no_emergency_spawned (check_emergency w).
Proof.
  intros Hw. unfold check_emergency.
  pose proof (no_emergency_read_coord w Hw) as Hr.
  destruct (read_coord w) as [[m|] w1]; cbn [snd] in Hr; [|exact Hr].
  destruct (is_emergency_msg m); [|exact Hr].
  apply no_emergency_set_emergencyMode, no_emergency_usleep, no_emergency_send,
    no_emergency_set_light, no_emergency_set_emergencyMode, Hr.
Qed.

Lemma no_emergency_check_commands w :
  no_emergency_spawned w -> no_emergency_spawned (check_commands w).
Proof.
  intros Hw. unfold check_commands.
  pose proof (no_emergency_read_cmd w Hw) as Hr.
  destruct (read_cmd w) as [[c|] w1]; cbn [snd] in Hr; [|exact Hr].
  destruct (negb _); [exact Hr|].
  destruct (CommandMessage.command c); try exact Hr.
  - apply repeat_n_keeps; [|exact Hr]. intros w' Hw'.
    apply no_emergency_usleep, no_emergency_spawnVehicle; [reflexivity | exact Hw'].
  - apply repeat_n_keeps.
    + intros w' Hw'. destruct (no_emergency_rand w' Hw') as [Hr0 Hw''].
      destruct (rand w') as [r w'']. cbn [fst snd] in *.
      apply no_emergency_usleep, no_emergency_spawnLocalVehicle;
        [apply VehicleType_of_draw_ordinary, Hr0 | exact Hw''].
    + apply repeat_n_keeps; [|exact Hr].
      intros w' Hw'. destruct (no_emergency_rand w' Hw') as [Hr0 Hw''].
      destruct (rand w') as [r w'']. cbn [fst snd] in *.
      apply no_emergency_usleep, no_emergency_spawnVehicle;
        [apply VehicleType_of_draw_ordinary, Hr0 | exact Hw''].
Qed.

Lemma no_emergency_red_polls n : forall w,
  no_emergency_spawned w -> no_emergency_spawned (red_polls n w).
Proof.
  induction n as [|n IH]; intros w Hw; [exact Hw|].
  cbn [red_polls].
  pose proof (no_emergency_read_coord _ (no_emergency_usleep 500000 w Hw)) as Hr.
  destruct (read_coord (usleep 500000 w)) as [[m|] w1]; cbn [snd] in Hr; [|apply IH, Hr].
  destruct (is_emergency_msg m); [|apply IH, Hr].
  apply no_emergency_usleep, no_emergency_send, no_emergency_set_light, Hr.
Qed.

Lemma no_emergency_iteration w :
  no_emergency_spawned w -> no_emergency_spawned (f11_iteration w).
Proof.
  intros Hw. unfold f11_iteration.
  pose proof (no_emergency_check_commands _ (no_emergency_check_emergency w Hw)) as H1.
  destruct (negb _); [|exact H1].
  unfold green_phase, red_phase.
  apply no_emergency_send, repeat_n_keeps;
    [intros w'; apply no_emergency_usleep|].
  apply no_emergency_send, no_emergency_set_light, no_emergency_red_polls,
    no_emergency_send, no_emergency_set_light, H1.
Qed.

(** Once its loop runs, the controller never starts a thread for an
    AMBULANCE or a FIRETRUCK: whatever commands and coordination frames
    arrive over any number of iterations, each vehicle it spawns is a
    BUS, CAR, BIKE or TRACTOR.  ([rand()] returns non-negative values;
    on a negative one the cast [(VehicleType)(rand() % 4 + 2)] could
    yield an emergency type.) *)
Theorem f11_loop_spawns_no_emergency n w :
  no_emergency_spawned w ->
  no_emergency_spawned (repeat_n n f11_iteration w).
Proof. apply repeat_n_keeps. exact no_emergency_iteration. Qed.

Lemma f11_loop_spawns_no_emergency_witness :
  map (fun a => Vehicle.type (vehicle a))
      (spawned (log (repeat_n 2 f11_iteration f11_gridlock)))
    = [TRACTOR; TRACTOR; BIKE; BIKE; CAR; CAR; BUS; TRACTOR] /\
  no_emergency_spawned (repeat_n 2 f11_iteration f11_gridlock).
Proof.
  split; [vm_compute; reflexivity|].
  apply f11_loop_spawns_no_emergency. split.
  - vm_compute. repeat constructor; discriminate.
  - vm_compute. constructor.
Defined.

(** *** Every gate change is published *)

Lemma published_app_aux l2 (H2 : published l2) : forall l1,
  (published l1 -> published (l1 ++ l2)) /\
  (forall x, published (x :: l1) -> published (x :: l1 ++ l2)).
Proof.
  induction l1 as [|y l1 [IH1 IH2]].
  - split; [intros _; exact H2|].
    intros [t e] H. destruct e; try exact H2. destruct H.
  - split; [apply IH2|].
    intros [t e] H. destruct e; try (apply IH2, H).
    destruct y as [t' e']. cbn in H |- *.
    destruct e'; try (destruct H; fail).
    destruct H as (Ht & Hm & Hrest). auto.
Qed.

Lemma published_app l1 l2 : published l1 -> published l2 -> published (l1 ++ l2).
Proof. intros H1 H2. apply (published_app_aux l2 H2 l1), H1. Qed.

Lemma grows_published_refl w : grows_published w w.
Proof. exists []. rewrite app_nil_r. split; [reflexivity | exact I]. Qed.

Lemma grows_published_trans w1 w2 w3 :
  grows_published w1 w2 -> grows_published w2 w3 -> grows_published w1 w3.
Proof.
  intros (d1 & E1 & P1) (d2 & E2 & P2). exists (d1 ++ d2).
  rewrite E2, E1, app_assoc. split; [reflexivity | apply published_app; assumption].
Qed.

Lemma grows_published_same w w' : log w' = log w -> grows_published w w'.
Proof. intros E. exists []. rewrite app_nil_r. split; [exact E | exact I]. Qed.

Lemma grows_published_record e w :
  (forall s, e <> EvGate s) -> grows_published w (record e w).
Proof.
  intros He. exists [(clock w, e)]. split; [reflexivity|].
  destruct e; try exact I. exfalso. eapply He. reflexivity.
Qed.

Lemma grows_published_usleep d w : grows_published w (usleep d w).
Proof. exists [(clock w, EvSleep d)]. split; [reflexivity | exact I]. Qed.

Lemma grows_published_send m w : grows_published w (send m w).
Proof. apply grows_published_record. discriminate. Qed.

(** The gate is written and the frame sent. *)
Lemma grows_published_announce s w :
  grows_published w (send (light_frame 11 s) (set_light s w)).
Proof.
  exists [(clock w, EvGate s); (clock w, EvSend (light_frame 11 s))].
  split; [cbn; rewrite <- app_assoc; reflexivity|].
  cbn. auto.
Qed.

Lemma grows_published_read_coord w : grows_published w (snd (read_coord w)).
Proof.
  unfold read_coord. destruct (coordIn w) as [|[t m] rest]; [apply grows_published_refl|].
  destruct (t <=? clock w); [|apply grows_published_refl].
  exists [(clock w, EvCoord m)]. split; [reflexivity | exact I].
Qed.

Lemma grows_published_read_cmd w : grows_published w (snd (read_cmd w)).
Proof.
  unfold read_cmd. destruct (cmdIn w) as [|[t c] rest]; [apply grows_published_refl|].
  destruct (t <=? clock w); [|apply grows_published_refl].
  exists [(clock w, EvCommand c)]. split; [reflexivity | exact I].
Qed.

Lemma grows_published_rand w : grows_published w (snd (rand w)).
Proof.
  unfold rand. destruct (rand_draws w); [apply grows_published_refl|].
  apply grows_published_same. reflexivity.
Qed.

Lemma grows_published_spawnVehicle ty w : grows_published w (spawnVehicle ty w).
Proof. eexists [_]. split; [reflexivity | exact I]. Qed.

Lemma grows_published_spawnLocalVehicle ty w : grows_published w (spawnLocalVehicle ty w).
Proof. eexists [_]. split; [reflexivity | exact I]. Qed.

Lemma grows_published_repeat_n (body : F11 -> F11) :
  (forall w, grows_published w (body w)) ->
  forall n w, grows_published w (repeat_n n body w).
Proof.
  intros Hb n. induction n as [|n IH]; intros w; cbn [repeat_n].
  - apply grows_published_refl.
  - eapply grows_published_trans; [apply Hb | apply IH].
Qed.

Lemma grows_published_check_emergency w : grows_published w (check_emergency w).
Proof.
  unfold check_emergency.
  pose proof (grows_published_read_coord w) as Hr.
  destruct (read_coord w) as [[m|] w1]; cbn [snd] in Hr; [|exact Hr].
  destruct (is_emergency_msg m); [|exact Hr].
  eapply grows_published_trans; [exact Hr|].
  exists [(clock w1, EvGate GREEN); (clock w1, EvSend (light_frame 11 GREEN));
          (clock w1, EvSleep 5000000)].
  split; [cbn; rewrite <- !app_assoc; reflexivity | cbn; auto].
Qed.

Lemma grows_published_check_commands w : grows_published w (check_commands w).
Proof.
  unfold check_commands.
  pose proof (grows_published_read_cmd w) as Hr.
  destruct (read_cmd w) as [[c|] w1]; cbn [snd] in Hr; [|exact Hr].
  destruct (negb _); [exact Hr|].
  destruct (CommandMessage.command c); try exact Hr.
  - eapply grows_published_trans; [exact Hr|].
    apply grows_published_repeat_n. intros w'.
    eapply grows_published_trans;
      [apply grows_published_spawnVehicle | apply grows_published_usleep].
  - eapply grows_published_trans; [exact Hr|].
    eapply grows_published_trans; cycle 1.
    + apply grows_published_repeat_n. intros w'.
      pose proof (grows_published_rand w') as Hrand.
      destruct (rand w') as [r w'']. cbn [snd] in Hrand.
      eapply grows_published_trans; [exact Hrand|].
      eapply grows_published_trans;
        [apply grows_published_spawnLocalVehicle | apply grows_published_usleep].
    + apply grows_published_repeat_n. intros w'.
      pose proof (grows_published_rand w') as Hrand.
      destruct (rand w') as [r w'']. cbn [snd] in Hrand.
      eapply grows_published_trans; [exact Hrand|].
      eapply grows_published_trans;
        [apply grows_published_spawnVehicle | apply grows_published_usleep].
Qed.

Lemma grows_published_red_polls n : forall w, grows_published w (red_polls n w).
Proof.
  induction n as [|n IH]; intros w; [apply grows_published_refl|].
  cbn [red_polls].
  eapply grows_published_trans; [apply (grows_published_usleep 500000)|].
  pose proof (grows_published_read_coord (usleep 500000 w)) as Hr.
  destruct (read_coord (usleep 500000 w)) as [[m|] w1]; cbn [snd] in Hr;
    [|eapply grows_published_trans; [exact Hr | apply IH]].
  destruct (is_emergency_msg m);
    [|eapply grows_published_trans; [exact Hr | apply IH]].
  eapply grows_published_trans; [exact Hr|].
  eapply grows_published_trans;
    [apply grows_published_announce | apply grows_published_usleep].
Qed.

Lemma grows_published_iteration w : grows_published w (f11_iteration w).
Proof.
  unfold f11_iteration.
  assert (H1 : grows_published w (check_commands (check_emergency w))).
  { eapply grows_published_trans;
      [apply grows_published_check_emergency | apply grows_published_check_commands]. }
  destruct (negb _); [|exact H1].
  eapply grows_published_trans; [exact H1|].
  unfold green_phase, red_phase.
  eapply grows_published_trans; [apply (grows_published_announce RED)|].
  eapply grows_published_trans; [apply grows_published_red_polls|].
  eapply grows_published_trans; [apply (grows_published_announce GREEN)|].
  eapply grows_published_trans; [|apply grows_published_send].
  apply grows_published_repeat_n. intros w'. apply grows_published_usleep.
Qed.

(** Over any number of iterations, under any commands and coordination
    frames, every write of the gate (normal phase change or preemption)
    is followed at once, before any sleep or read, by the write of the
    LIGHT_UPDATE frame with intersection id 11 and the state just set:
    the gate and what the visualizer is told never drift apart by more
    than the frame in flight. *)
Theorem f11_gate_changes_published n w :
  published (log w) ->
  published (log (repeat_n n f11_iteration w)).
Proof.
  intros Hw.
  destruct (grows_published_repeat_n f11_iteration grows_published_iteration n w)
    as (delta & -> & Hd).
  apply published_app; assumption.
Qed.

Lemma f11_gate_changes_published_witness :
  published (log (repeat_n 3 f11_iteration f11_two_signals)).
Proof. apply f11_gate_changes_published. exact I. Defined.

(** ** The F10 controller *)

Lemma f10_spawned_app l1 l2 : F10.spawned (l1 ++ l2) = F10.spawned l1 ++ F10.spawned l2.
Proof. unfold F10.spawned. apply flat_map_app. Qed.

Lemma f10_coord_sent_app l1 l2 :
  F10.coord_sent (l1 ++ l2) = F10.coord_sent l1 ++ F10.coord_sent l2.
Proof. unfold F10.coord_sent. apply flat_map_app. Qed.

Lemma f10_read_next cmd w :
  f10_next_command cmd w ->
  exists w1,
    F10.read_cmd w = (Some (CommandMessage.mk CMD_MAGIC cmd), w1) /\
    F10.clock w1 = F10.clock w /\
    F10.lightState w1 = F10.lightState w /\
    F10.vehicleIdCounter w1 = F10.vehicleIdCounter w /\
    F10.commuterIdCounter w1 = F10.commuterIdCounter w /\
    F10.writePipeFd w1 = F10.writePipeFd w /\
    F10.log w1 = F10.log w ++ [(F10.clock w, F10.EvCommand (CommandMessage.mk CMD_MAGIC cmd))].
Proof.
  intros (tm & rest & Hin & Ht). unfold F10.read_cmd. rewrite Hin.
  destruct (Z.leb_spec tm (F10.clock w)); [|lia].
  eexists. split; [reflexivity|]. repeat split.
Qed.

(** A GREEN_WAVE command, at the top of the loop or in a poll of the RED
    phase alike: one thread is started, for an AMBULANCE entering from
    the left under the next local id, and one EMERGENCY_APPROACHING
    frame with source 10 is written to the coordination pipe; no time
    passes and the gate is not touched. *)
Theorem f10_green_wave w :
  f10_next_command GREEN_WAVE w ->
  let w' := F10.check_commands w in
  F10.poll_commands w = w' /\
  F10.clock w' = F10.clock w /\
  F10.lightState w' = F10.lightState w /\
  F10.vehicleIdCounter w' = int_incr (F10.vehicleIdCounter w) /\
  F10.commuterIdCounter w' = F10.commuterIdCounter w /\
  F10.log w' =
    F10.log w ++
    [(F10.clock w, F10.EvCommand (CommandMessage.mk CMD_MAGIC GREEN_WAVE));
     (F10.clock w,
      F10.EvSpawn (spawn vehicleThreadFunc (F10.vehicleIdCounter w) AMBULANCE
                         (F10.writePipeFd w) controller_lot 0 400 1200 400
                         (float_of_int 240) false));
     (F10.clock w, F10.EvCoordSend emergency_from_F10)].
Proof.
  intros Hnext w'. subst w'.
  destruct (f10_read_next _ _ Hnext) as (w1 & Hr & Hc & Hl & Hv & Hcm & Hfd & Hlog).
  unfold F10.check_commands, F10.poll_commands. rewrite Hr.
  cbn [CommandMessage.magic CommandMessage.command]. rewrite Z.eqb_refl. cbn [negb].
  split; [reflexivity|].
  unfold F10.green_wave. cbn. rewrite Hc, Hl, Hv, Hcm, Hfd, Hlog, <- !app_assoc.
  repeat split.
Qed.

Lemma f10_green_wave_witness :
  let w := F10.start [(0, CommandMessage.mk CMD_MAGIC GREEN_WAVE)] [] 3 in
  F10.coord_sent (F10.log (F10.check_commands w)) = [(0, emergency_from_F10)] /\
  map (fun a => Vehicle.type (vehicle a)) (F10.spawned (F10.log (F10.check_commands w)))
    = [AMBULANCE].
Proof.
  intros w.
  assert (Hnext : f10_next_command GREEN_WAVE w).
  { exists 0, []. split; [reflexivity | vm_compute; discriminate]. }
  destruct (f10_green_wave w Hnext) as (_ & _ & _ & _ & _ & Hlog).
  rewrite Hlog. split; reflexivity.
Defined.

(** From the button to the peer's gate: the frame F10 writes on a
    GREEN_WAVE command (with no earlier frame of its own still in the
    pipe), found by F11 in its coordination pipe at the top of its loop,
    makes F11 write its gate GREEN, publish it and hold it for 5 s;
    found instead at a poll of F11's RED phase, it ends that phase the
    same way. *)
Theorem green_wave_preempts_F11 w10 w11 :
  F10.coord_sent (F10.log w10) = [] ->
  f10_next_command GREEN_WAVE w10 ->
  f11_fed_by (F10.check_commands w10) w11 ->
  (F10.clock w10 <= clock w11 ->
   lightState (check_emergency w11) = GREEN /\
   clock (check_emergency w11) = clock w11 + 5000000 /\
   coordIn (check_emergency w11) = []) /\
  (F10.clock w10 <= clock w11 + 500000 ->
   forall n,
   lightState (red_polls (S n) w11) = GREEN /\
   clock (red_polls (S n) w11) = clock w11 + 5500000 /\
   coordIn (red_polls (S n) w11) = []).
Proof.
  intros Hempty Hnext Hfed.
  destruct (f10_read_next _ _ Hnext) as (w1 & Hr & Hc & Hl & Hv & Hcm & Hfd & Hlog).
  assert (Hin : coordIn w11 = [(F10.clock w10, emergency_from_F10)]).
  { unfold f11_fed_by in Hfed. rewrite Hfed.
    unfold F10.check_commands. rewrite Hr.
    cbn [CommandMessage.magic CommandMessage.command]. rewrite Z.eqb_refl. cbn [negb].
    unfold F10.green_wave. cbn [F10.send_coord F10.spawnLocalVehicle F10.record F10.log
                                F10.clock].
    rewrite Hlog, Hc, !f10_coord_sent_app, Hempty. reflexivity. }
  split.
  - intros Ht.
    destruct (check_emergency_preempts w11 _ _ _ Hin Ht eq_refl) as (H1 & H2 & _ & H4 & _).
    auto.
  - intros Ht n.
    destruct (red_polls_preempts n w11 _ _ _ Hin Ht eq_refl) as (H1 & H2 & H3 & _).
    split; [exact H1|]. split; [lia | exact H3].
Qed.

Lemma green_wave_preempts_F11_witness :
  let w10 := F10.start [(0, CommandMessage.mk CMD_MAGIC GREEN_WAVE)] [] 3 in
  let w11 := mkF11 1000000 RED false [(0, emergency_from_F10)] [] 100 150 []
                   ParkingLot_new 4 [] in
  lightState (check_emergency w11) = GREEN /\
  clock (check_emergency w11) = 6000000.
Proof.
  intros w10 w11.
  assert (Hnext : f10_next_command GREEN_WAVE w10).
  { exists 0, []. split; [reflexivity | vm_compute; discriminate]. }
  destruct (green_wave_preempts_F11 w10 w11 eq_refl Hnext eq_refl) as [Htop _].
  destruct Htop as (Hl & Hc & _); [vm_compute; discriminate|].
  split; [exact Hl | exact Hc].
Defined.

(** *** What F10 spawns *)

Lemma commuters_park_same w w' :
  F10.spawned (F10.log w') = F10.spawned (F10.log w) ->
  F10.commuters_park w -> F10.commuters_park w'.
Proof. unfold F10.commuters_park. intros ->. auto. Qed.

Lemma commuters_park_usleep d w : F10.commuters_park w -> F10.commuters_park (F10.usleep d w).
Proof.
  apply commuters_park_same. cbn. rewrite f10_spawned_app. apply app_nil_r.
Qed.

Lemma commuters_park_send m w : F10.commuters_park w -> F10.commuters_park (F10.send m w).
Proof.
  apply commuters_park_same. cbn. rewrite f10_spawned_app. apply app_nil_r.
Qed.

Lemma commuters_park_send_coord m w :
  F10.commuters_park w -> F10.commuters_park (F10.send_coord m w).
Proof.
  apply commuters_park_same. cbn. rewrite f10_spawned_app. apply app_nil_r.
Qed.

Lemma commuters_park_set_light s w :
  F10.commuters_park w -> F10.commuters_park (F10.set_light s w).
Proof.
  apply commuters_park_same. cbn. rewrite f10_spawned_app. apply app_nil_r.
Qed.

Lemma commuters_park_rand w : F10.commuters_park w -> F10.commuters_park (snd (F10.rand w)).
Proof.
  unfold F10.rand. destruct (F10.rand_draws w); [auto|].
  apply commuters_park_same. reflexivity.
Qed.

Lemma commuters_park_read_cmd w :
  F10.commuters_park w -> F10.commuters_park (snd (F10.read_cmd w)).
Proof.
  unfold F10.read_cmd. destruct (F10.cmdIn w) as [|[tm c] rest]; [auto|].
  destruct (tm <=? F10.clock w); [|auto].
  apply commuters_park_same. cbn. rewrite f10_spawned_app. apply app_nil_r.
Qed.

Lemma commuters_park_spawnLocalVehicle ty w :
  F10.commuters_park w -> F10.commuters_park (F10.spawnLocalVehicle ty w).
Proof.
  unfold F10.commuters_park. intros Hw.
  cbn [F10.spawnLocalVehicle F10.record F10.log]. rewrite f10_spawned_app.
  apply Forall_app. split; [exact Hw|]. cbn. constructor; [|constructor].
  cbn. discriminate.
Qed.

Lemma commuters_park_spawnCommuterVehicle r w :
  F10.commuters_park w ->
  F10.commuters_park (F10.spawnCommuterVehicle (F10.commuter_type_of_draw r) w).
Proof.
  unfold F10.commuters_park. intros Hw.
  cbn [F10.spawnCommuterVehicle F10.record F10.log]. rewrite f10_spawned_app.
  apply Forall_app. split; [exact Hw|]. cbn. constructor; [|constructor].
  intros _. unfold F10.commuter_type_of_draw. destruct (Z.rem r 2 =? 0); reflexivity.
Qed.

Lemma f10_repeat_n_keeps (P : F10.t -> Prop) (body : F10.t -> F10.t) :
  (forall w, P w -> P (body w)) -> forall n w, P w -> P (F10.repeat_n n body w).
Proof.
  intros Hb n. induction n as [|n IH]; intros w Hw; cbn [F10.repeat_n]; auto.
Qed.

Lemma commuters_park_init w : F10.commuters_park w -> F10.commuters_park (F10.init w).
Proof.
  intros Hw. unfold F10.init.
  apply f10_repeat_n_keeps.
  - intros w' Hw'. pose proof (commuters_park_rand w' Hw') as H1.
    destruct (F10.rand w') as [r w1]. cbn [snd] in H1.
    pose proof (commuters_park_rand _ (commuters_park_spawnCommuterVehicle r w1 H1)) as H2.
    destruct (F10.rand _) as [d w2]. cbn [snd] in H2.
    apply commuters_park_usleep, H2.
  - apply f10_repeat_n_keeps; [|exact Hw].
    intros w' Hw'. pose proof (commuters_park_rand w' Hw') as H1.
    destruct (F10.rand w') as [r w1]. cbn [snd] in H1.
    pose proof (commuters_park_rand _
                  (commuters_park_spawnLocalVehicle (F10.any_type_of_draw r) w1 H1)) as H2.
    destruct (F10.rand _) as [d w2]. cbn [snd] in H2.
    apply commuters_park_usleep, H2.
Qed.

Lemma commuters_park_parking_full w :
  F10.commuters_park w -> F10.commuters_park (F10.parking_full w).
Proof.
  apply f10_repeat_n_keeps. intros w' Hw'.
  apply commuters_park_usleep, commuters_park_spawnLocalVehicle, Hw'.
Qed.

Lemma commuters_park_check_commands w :
  F10.commuters_park w -> F10.commuters_park (F10.check_commands w).
Proof.
  intros Hw. unfold F10.check_commands.
  pose proof (commuters_park_read_cmd w Hw) as Hr.
  destruct (F10.read_cmd w) as [[c|] w1]; cbn [snd] in Hr; [|exact Hr].
  destruct (negb _); [exact Hr|].
  destruct (CommandMessage.command c); [exact Hr | | |].
  - apply commuters_park_send_coord, commuters_park_spawnLocalVehicle, Hr.
  - apply commuters_park_parking_full, Hr.
  - apply f10_repeat_n_keeps.
    + intros w' Hw'. unfold F10.gridlock_commuter.
      pose proof (commuters_park_rand w' Hw') as H1.
      destruct (F10.rand w') as [r w2]. cbn [snd] in H1.
      apply commuters_park_usleep, commuters_park_spawnCommuterVehicle, H1.
    + apply f10_repeat_n_keeps; [|exact Hr].
      intros w' Hw'. unfold F10.gridlock_local.
      pose proof (commuters_park_rand w' Hw') as H1.
      destruct (F10.rand w') as [r w2]. cbn [snd] in H1.
      apply commuters_park_usleep, commuters_park_spawnLocalVehicle, H1.
Qed.

Lemma commuters_park_poll_commands w :
  F10.commuters_park w -> F10.commuters_park (F10.poll_commands w).
Proof.
  intros Hw. unfold F10.poll_commands.
  pose proof (commuters_park_read_cmd w Hw) as Hr.
  destruct (F10.read_cmd w) as [[c|] w1]; cbn [snd] in Hr; [|exact Hr].
  destruct (negb _); [exact Hr|].
  destruct (CommandMessage.command c); [exact Hr | | |].
  - apply commuters_park_send_coord, commuters_park_spawnLocalVehicle, Hr.
  - apply commuters_park_parking_full, Hr.
  - apply f10_repeat_n_keeps; [|exact Hr].
    intros w' Hw'. unfold F10.gridlock_pair.
    pose proof (commuters_park_rand w' Hw') as H1.
    destruct (F10.rand w') as [r1 w2]. cbn [snd] in H1.
    pose proof (commuters_park_rand _
                  (commuters_park_spawnLocalVehicle (VehicleType_of_draw r1) w2 H1)) as H2.
    destruct (F10.rand _) as [r2 w3]. cbn [snd] in H2.
    apply commuters_park_usleep, commuters_park_spawnCommuterVehicle, H2.
Qed.

Lemma commuters_park_iteration w :
  F10.commuters_park w -> F10.commuters_park (F10.iteration w).
Proof.
  intros Hw. unfold F10.iteration, F10.green_phase, F10.red_phase.
  apply commuters_park_send, f10_repeat_n_keeps;
    [intros w'; apply commuters_park_usleep|].
  apply commuters_park_send, commuters_park_set_light, f10_repeat_n_keeps.
  - intros w' Hw'. apply commuters_park_poll_commands, commuters_park_usleep, Hw'.
  - apply commuters_park_send, commuters_park_set_light, commuters_park_check_commands, Hw.
Qed.

(** Every commuter F10 ever starts, in its initial spawns or on a
    GRIDLOCK command at either place it is handled, is a CAR or a BIKE
    holding the controller's lot: whatever [rand()] returns and whatever
    commands arrive, each commuter thread takes the parking branch at
    F10's gate. *)
Theorem f10_commuters_always_park cmds draws fd n :
  F10.commuters_park (F10.repeat_n n F10.iteration (F10.init (F10.start cmds draws fd))).
Proof.
  apply f10_repeat_n_keeps; [exact commuters_park_iteration|].
  apply commuters_park_init. constructor.
Qed.

(** *** The two copies of F10's command handler *)

Lemma f10_repeat_n_fields (body : F10.t -> F10.t) d (fv fc : Z -> Z) :
  (forall w, F10.clock (body w) = F10.clock w + d /\
             F10.vehicleIdCounter (body w) = fv (F10.vehicleIdCounter w) /\
             F10.commuterIdCounter (body w) = fc (F10.commuterIdCounter w)) ->
  forall n w,
    F10.clock (F10.repeat_n n body w) = F10.clock w + Z.of_nat n * d /\
    F10.vehicleIdCounter (F10.repeat_n n body w) = Nat.iter n fv (F10.vehicleIdCounter w) /\
    F10.commuterIdCounter (F10.repeat_n n body w) = Nat.iter n fc (F10.commuterIdCounter w).
Proof.
  intros Hb n. induction n as [|n IH]; intros w.
  - cbn. repeat split. lia.
  - cbn [F10.repeat_n]. destruct (IH (body w)) as (Hc & Hv & Hcm).
    destruct (Hb w) as (Bc & Bv & Bcm).
    rewrite Hc, Hv, Hcm, Bc, Bv, Bcm, !Nat.iter_succ_r.
    repeat split. lia.
Qed.

Lemma iter_same n (x : Z) : Nat.iter n (fun z => z) x = x.
Proof. induction n as [|n IH]; [reflexivity|]. rewrite Nat.iter_succ. exact IH. Qed.

Lemma f10_rand_fields w :
  F10.clock (snd (F10.rand w)) = F10.clock w /\
  F10.vehicleIdCounter (snd (F10.rand w)) = F10.vehicleIdCounter w /\
  F10.commuterIdCounter (snd (F10.rand w)) = F10.commuterIdCounter w.
Proof. unfold F10.rand. destruct (F10.rand_draws w); repeat split. Qed.

(** The command handler exists twice, at the top of the loop and inside
    the RED phase's polling loop.  The two copies do the same on every
    input but an accepted GRIDLOCK; there both start five local vehicles
    and five commuters, but the copy in the polling loop sleeps once per
    pair, so it takes 0.5 s where the copy at the top takes 1 s. *)
Theorem f10_command_handlers w :
  (~ f10_next_command GRIDLOCK w -> F10.poll_commands w = F10.check_commands w) /\
  (f10_next_command GRIDLOCK w ->
   F10.clock (F10.check_commands w) = F10.clock w + 1000000 /\
   F10.clock (F10.poll_commands w) = F10.clock w + 500000 /\
   F10.vehicleIdCounter (F10.check_commands w) = Nat.iter 5 int_incr (F10.vehicleIdCounter w) /\
   F10.vehicleIdCounter (F10.poll_commands w) = Nat.iter 5 int_incr (F10.vehicleIdCounter w) /\
   F10.commuterIdCounter (F10.check_commands w)
     = Nat.iter 5 int_incr (F10.commuterIdCounter w) /\
   F10.commuterIdCounter (F10.poll_commands w)
     = Nat.iter 5 int_incr (F10.commuterIdCounter w)).
Proof.
  split.
  - intros Hno. unfold F10.poll_commands, F10.check_commands.
    destruct (F10.read_cmd w) as [[c|] w1] eqn:Hr; [|reflexivity].
    destruct (Z.eqb_spec (CommandMessage.magic c) CMD_MAGIC) as [Hm|Hm]; cbn [negb];
      [|reflexivity].
    destruct (CommandMessage.command c) eqn:Hc; try reflexivity.
    exfalso. apply Hno. unfold F10.read_cmd in Hr.
    destruct (F10.cmdIn w) as [|[tm c'] rest] eqn:Hin; [discriminate|].
    destruct (Z.leb_spec tm (F10.clock w)); [|discriminate].
    injection Hr as -> _. exists tm, rest. split; [|assumption].
    destruct c as [m cmd]. cbn in Hm, Hc. subst. exact Hin.
  - intros Hnext.
    destruct (f10_read_next _ _ Hnext) as (w1 & Hr & Hc & Hl & Hv & Hcm & Hfd & Hlog).
    unfold F10.poll_commands, F10.check_commands. rewrite Hr.
    cbn [CommandMessage.magic CommandMessage.command]. rewrite Z.eqb_refl. cbn [negb].
    assert (Hlocal : forall w0,
              F10.clock (F10.gridlock_local w0) = F10.clock w0 + 100000 /\
              F10.vehicleIdCounter (F10.gridlock_local w0)
                = int_incr (F10.vehicleIdCounter w0) /\
              F10.commuterIdCounter (F10.gridlock_local w0)
                = (fun z => z) (F10.commuterIdCounter w0)).
    { intros w0. unfold F10.gridlock_local.
      destruct (f10_rand_fields w0) as (R1 & R2 & R3).
      destruct (F10.rand w0) as [r w2]. cbn in *. rewrite R1, R2, R3. repeat split. }
    assert (Hcomm : forall w0,
              F10.clock (F10.gridlock_commuter w0) = F10.clock w0 + 100000 /\
              F10.vehicleIdCounter (F10.gridlock_commuter w0)
                = (fun z => z) (F10.vehicleIdCounter w0) /\
              F10.commuterIdCounter (F10.gridlock_commuter w0)
                = int_incr (F10.commuterIdCounter w0)).
    { intros w0. unfold F10.gridlock_commuter.
      destruct (f10_rand_fields w0) as (R1 & R2 & R3).
      destruct (F10.rand w0) as [r w2]. cbn in *. rewrite R1, R2, R3. repeat split. }
    assert (Hpair : forall w0,
              F10.clock (F10.gridlock_pair w0) = F10.clock w0 + 100000 /\
              F10.vehicleIdCounter (F10.gridlock_pair w0)
                = int_incr (F10.vehicleIdCounter w0) /\
              F10.commuterIdCounter (F10.gridlock_pair w0)
                = int_incr (F10.commuterIdCounter w0)).
    { intros w0. unfold F10.gridlock_pair.
      destruct (f10_rand_fields w0) as (R1 & R2 & R3).
      destruct (F10.rand w0) as [r1 w2]. cbn [snd] in *.
      destruct (f10_rand_fields (F10.spawnLocalVehicle (VehicleType_of_draw r1) w2))
        as (S1 & S2 & S3).
      destruct (F10.rand _) as [r2 w3]. cbn in *. rewrite S1, S2, S3, R1, R2, R3.
      repeat split. }
    destruct (f10_repeat_n_fields F10.gridlock_local _ _ _ Hlocal 5 w1) as (A1 & A2 & A3).
    destruct (f10_repeat_n_fields F10.gridlock_commuter _ _ _ Hcomm 5
                (F10.repeat_n 5 F10.gridlock_local w1)) as (B1 & B2 & B3).
    destruct (f10_repeat_n_fields F10.gridlock_pair _ _ _ Hpair 5 w1) as (C1 & C2 & C3).
    rewrite B1, B2, B3, A1, A2, A3, C1, C2, C3, Hc, Hv, Hcm.
    split; [lia|]. split; [lia|]. rewrite !iter_same.
    repeat (split; [reflexivity|]). reflexivity.
Qed.

Lemma f10_command_handlers_witness :
  let w := F10.start [(0, CommandMessage.mk CMD_MAGIC GRIDLOCK)] [3; 1; 4; 1; 5; 9; 2; 6] 3 in
  F10.clock (F10.check_commands w) = 1000000 /\
  F10.clock (F10.poll_commands w) = 500000.
Proof.
  intros w.
  assert (Hnext : f10_next_command GRIDLOCK w).
  { exists 0, []. split; [reflexivity | vm_compute; discriminate]. }
  destruct (proj2 (f10_command_handlers w) Hnext) as (H1 & H2 & _).
  split; [exact H1 | exact H2].
Defined.

(** ** Emergency vehicles and the gate *)

Lemma actor_step_type a state lot :
  Vehicle.type (vehicle (fst (fst (actor_step a state lot)))) = Vehicle.type (vehicle a).
Proof.
  unfold actor_step.
  destruct (phase a);
    try (match goal with
         | |- context [drive ?a ?l ?t ?n] =>
             destruct (drive_vehicle a l t n) as (x' & y' & ->); reflexivity
         end);
    try reflexivity.
  - destruct (may_pass state (vehicle a)); reflexivity.
  - destruct (enterQueue lot) as [i l']. destruct (i =? -1); reflexivity.
  - destruct (waitForSpot lot queueIdx) as [[s l']|]; reflexivity.
Qed.

Lemma actor_step_emergency a s1 s2 lot :
  is_emergency (Vehicle.type (vehicle a)) = true ->
  actor_step a s1 lot = actor_step a s2 lot.
Proof.
  intros He. unfold actor_step. destruct (phase a); try reflexivity.
  unfold may_pass. rewrite He. destruct s1, s2; reflexivity.
Qed.

(** An AMBULANCE or FIRETRUCK never looks at the gate in a way that
    matters: two runs of its thread whose schedules differ only in the
    gate readings go through the same states and write the same frames.
    In particular the GREEN that a preemption forces changes nothing in
    the run of the vehicle it was forced for. *)
Theorem emergency_run_ignores_gate s1 : forall s2 a lot,
  is_emergency (Vehicle.type (vehicle a)) = true ->
  same_lots s1 s2 ->
  actor_run a lot s1 = actor_run a lot s2.
Proof.
  unfold same_lots.
  induction s1 as [|e1 r1 IH]; intros s2 a lot He Hs; destruct s2 as [|e2 r2];
    try discriminate Hs; [reflexivity|].
  cbn [map] in Hs. injection Hs as Hlot Hrest.
  cbn [actor_run]. rewrite Hlot.
  rewrite (actor_step_emergency a (env_light e1) (env_light e2) _ He).
  pose proof (actor_step_type a (env_light e2)
                (match env_lot e2 with Some l => l | None => lot end)) as Hty.
  destruct (actor_step a (env_light e2) _) as [[a' lot'] frames]. cbn [fst] in Hty.
  f_equal. apply IH; [rewrite Hty; exact He | exact Hrest].
Qed.

Lemma emergency_run_ignores_gate_witness :
  let a := spawn vehicleThreadFunc 5 AMBULANCE 3 controller_lot 238 400 1200 400
                 (float_of_int 240) false in
  actor_run a ParkingLot_new (replicate 4 (mkStepEnv RED None))
    = actor_run a ParkingLot_new (replicate 4 (mkStepEnv GREEN None)).
Proof.
  intros a. apply emergency_run_ignores_gate; reflexivity.
Defined.

(** ** Drawing *)

Lemma queued_position_exact (side : bool) (q : Z) :
  0 <= q <= 4 ->
  (if side
   then (fsub (float_of_int 777) (fmul (float_of_int q) (float_of_int 40)), float_of_int 325)
   else (fadd (float_of_int 427) (fmul (float_of_int q) (float_of_int 40)), float_of_int 325))
  = (float_of_int (fst (queued_at side q)), float_of_int (snd (queued_at side q))).
Proof.
  intros Hq.
  assert (H : q = 0 \/ q = 1 \/ q = 2 \/ q = 3 \/ q = 4) by lia.
  destruct H as [-> | [-> | [-> | [-> | ->]]]]; destruct side; vm_compute; reflexivity.
Qed.

Lemma drawn_in_slot_frame m :
  frame_flags_ok m -> frame_coherent m -> drawn_in_slot m.
Proof.
  unfold frame_flags_ok, frame_coherent, drawn_in_slot.
  destruct (PipeMessage.data m) as [vs| |]; [|auto|auto].
  intros [_ Hq] [_ Hrange] Hin.
  destruct (Hq Hin) as (Hact & _ & _). specialize (Hrange Hin).
  unfold draw_vehicle. rewrite Hact, Hin.
  generalize dependent (VehicleState.queueIndex vs). intros q Hrange.
  generalize (VehicleState.isLeftParking vs). intros side.
  split; [exact Hrange|]. split.
  - cbn [negb andb].
    destruct (Z.leb_spec 0 q); [|lia].
    destruct (Z.ltb_spec q PARKING_QUEUE_SIZE); [|lot_lia]. cbn [andb].
    rewrite (queued_position_exact side q Hrange). reflexivity.
  - unfold rect_inside, shape_box, queue_rect, queued_at. destruct side; cbn; lia.
Qed.

(** What a thread reports about a queued vehicle and what the screen
    shows fit together: in every run from a spawned vehicle, each frame
    that reports the vehicle queued passes the visualizer's range check
    on [queueIndex], so the vehicle is drawn (30 x 18, unrotated) at the
    slot position of its index on its own side, wherever its own
    coordinates are, and the shape lies inside the rectangle painted for
    that queue slot. *)
Theorem queued_vehicle_drawn_in_slot f id ty pipeFd lot x y endX endY stopLine commuter
        l sched :
  Forall (fun s => Forall drawn_in_slot (snd s))
         (actor_run (spawn f id ty pipeFd lot x y endX endY stopLine commuter) l sched).
Proof.
  eapply Forall_impl.
  - apply (actor_run_invariant
             (fun a => actor_coherent a /\ park_inv a /\ live_inv a)
             (fun frames => Forall frame_flags_ok frames /\ Forall frame_coherent frames)).
    + intros a state lot0 (Hc & Hp & Hl).
      destruct (actor_step_coherent a state lot0 Hc) as [Hc' Hfc].
      split; [|split; [apply actor_step_flags; assumption | exact Hfc]].
      split; [exact Hc'|].
      split; [apply actor_step_park_inv, Hp | apply actor_step_live, Hl].
    + split; [apply spawn_coherent|]. split; [intros H; discriminate H | intros _; reflexivity].
  - intros s [_ [Hfl Hco]]. rewrite Forall_forall in *.
    intros m Hm. apply drawn_in_slot_frame; auto.
Qed.

Lemma moveTowards_true cx cy tx ty speed p :
  moveTowards cx cy tx ty speed = (true, p) -> p = (tx, ty).
Proof.
  unfold moveTowards. destruct (fltb _ _); intros H; [|discriminate H].
  injection H as <-. reflexivity.
Qed.

Lemma spot_position_centre f s :
  0 <= s < PARKING_CAPACITY ->
  spot_position f s =
    (float_of_int (fst (rect_centre (spot_rect (uses_left_lot f) s))),
     float_of_int (snd (rect_centre (spot_rect (uses_left_lot f) s)))).
Proof.
  intros Hs.
  assert (H : s = 0 \/ s = 1 \/ s = 2 \/ s = 3 \/ s = 4 \/
              s = 5 \/ s = 6 \/ s = 7 \/ s = 8 \/ s = 9) by lot_lia.
  destruct H as [-> | [-> | [-> | [-> | [-> | [-> | [-> | [-> | [-> | ->]]]]]]]]];
    destruct f; vm_compute; reflexivity.
Qed.

Lemma sendUpdate_unparked f v lot :
  Forall (parked_on_spot f) (sendUpdate v lot false).
Proof.
  unfold sendUpdate. constructor.
  - unfold parked_on_spot, vehicle_frame.
    destruct (getColor (Vehicle.type v)) as [[r g] b]. cbn. discriminate.
  - destruct (Vehicle.parkingLot v); repeat constructor.
Qed.

Lemma actor_step_parked_at f a state lot :
  func a = f -> parked_at a -> lot_coherent lot ->
  func (fst (fst (actor_step a state lot))) = f /\
  parked_at (fst (fst (actor_step a state lot))) /\
  Forall (parked_on_spot f) (snd (actor_step a state lot)).
Proof.
  intros Hf Hp Hlot.
  assert (Hdrive : forall target next,
            (forall x' y',
               parked_at (with_vehicle a (Vehicle.set_pos (vehicle a) x' y'))) ->
            (forall x' y', (x', y') = target ->
               parked_at (goto (with_vehicle a (Vehicle.set_pos (vehicle a) x' y')) next)) ->
            func (fst (fst (drive a lot target next))) = f /\
            parked_at (fst (fst (drive a lot target next))) /\
            Forall (parked_on_spot f) (snd (drive a lot target next))).
  { intros target next Hstay Hnext.
    destruct (drive_cases a lot target next) as (x' & y' & [[Hm ->] | [_ ->]]); cbn [fst snd].
    - split; [exact Hf|]. split; [|constructor].
      apply Hnext. apply moveTowards_true in Hm. rewrite Hm. destruct target; reflexivity.
    - split; [exact Hf|]. split; [apply Hstay | apply sendUpdate_unparked]. }
  assert (Hstay : forall p, phase a = p ->
            match p with ToSpot _ | AnnounceParked _ => False | _ => True end ->
            forall x' y', parked_at (with_vehicle a (Vehicle.set_pos (vehicle a) x' y'))).
  { intros p Hph Hk x' y'. unfold parked_at. cbn [phase with_vehicle]. rewrite Hph.
    destruct p; first [exact I | destruct Hk]. }
  unfold actor_step. destruct (phase a) eqn:Hph.
  - apply Hdrive; [apply (Hstay _ eq_refl I) | intros; destruct (func a); exact I].
  - repeat split; [exact Hf | constructor].
  - apply Hdrive; [apply (Hstay _ eq_refl I) | intros; exact I].
  - destruct (may_pass state (vehicle a)); cbn [fst snd].
    + split; [exact Hf|]. split; [destruct (willPark (vehicle a)); exact I | constructor].
    + split; [exact Hf|]. split; [unfold parked_at; rewrite Hph; exact I|].
      destruct (func a); first [apply sendUpdate_unparked | constructor].
  - apply Hdrive; [apply (Hstay _ eq_refl I) | intros; exact I].
  - destruct (enterQueue lot) as [i l']. destruct (i =? -1); cbn [fst snd];
      (split; [exact Hf|]; split; [exact I | constructor]).
  - apply Hdrive; [apply (Hstay _ eq_refl I) | intros; exact I].
  - split; [exact Hf|]. split; [exact I | apply sendUpdate_unparked].
  - destruct (waitForSpot lot queueIdx) as [[s l']|] eqn:Hw; cbn [fst snd].
    + split; [exact Hf|]. split; [|constructor].
      unfold parked_at. cbn [phase goto].
      assert (Hpos : 0 < spots lot).
      { unfold waitForSpot, sem_wait in Hw.
        destruct (Z.ltb_spec 0 (spots lot)); [assumption | discriminate Hw]. }
      destruct (waitForSpot_granted lot queueIdx Hlot Hpos) as (k & Hk & _ & _ & Heq).
      rewrite Heq in Hw. injection Hw as <- _.
      change (Z.to_nat PARKING_CAPACITY) with 10%nat in Hk. lot_lia.
    + split; [exact Hf|]. split; [unfold parked_at; rewrite Hph; exact I | constructor].
  - unfold parked_at in Hp. rewrite Hph in Hp.
    apply Hdrive.
    + intros x' y'. unfold parked_at. cbn [phase with_vehicle]. rewrite Hph. exact Hp.
    + intros x' y' Heq. unfold parked_at. cbn. split; [exact Hp | exact Heq].
  - unfold parked_at in Hp. rewrite Hph in Hp. destruct Hp as [Hs Hxy].
    split; [exact Hf|]. split; [exact I|].
    unfold sendUpdate. constructor.
    + unfold parked_on_spot, vehicle_frame.
      destruct (getColor (Vehicle.type (vehicle a))) as [[r g] b]. cbn. intros _.
      exists spotIndex. split; [exact Hs|].
      rewrite Hxy, <- Hf. apply spot_position_centre, Hs.
    + destruct (Vehicle.parkingLot (vehicle a)); repeat constructor.
  - repeat split; [exact Hf | constructor].
  - apply Hdrive; [apply (Hstay _ eq_refl I) | intros; exact I].
  - apply Hdrive; [apply (Hstay _ eq_refl I) | intros; exact I].
  - split; [exact Hf|]. split; [exact I | apply sendUpdate_unparked].
  - cbn [fst snd].
    split; [exact Hf|]. split; [unfold parked_at; rewrite Hph; exact I | constructor].
Qed.

Lemma actor_run_parked_on_spot f sched : forall a lot,
  func a = f -> parked_at a -> lots_coherent a lot sched ->
  Forall (fun s => Forall (parked_on_spot f) (snd s)) (actor_run a lot sched).
Proof.
  unfold lots_coherent.
  induction sched as [|e rest IH]; intros a lot Hf Hp Hlots; cbn [actor_run actor_lots] in *;
    [constructor|].
  pose proof (actor_step_parked_at f a (env_light e)
                (match env_lot e with Some l => l | None => lot end) Hf Hp) as Hstep.
  destruct (actor_step a (env_light e) _) as [[a' lot'] frames]. cbn [fst snd] in *.
  apply Forall_cons in Hlots as [Hlot Hrest].
  destruct (Hstep Hlot) as (Hf' & Hp' & Hfr).
  constructor; [exact Hfr | apply IH; assumption].
Qed.

(** Where a parked vehicle is shown: in every run from a spawned vehicle
    during which the lot is coherent whenever a step finds it, each
    frame that reports the vehicle parked carries, as its coordinates,
    exactly the centre of one of the ten spot rectangles the visualizer
    paints for the lot on the thread's side. *)
Theorem parked_vehicle_on_painted_spot f id ty pipeFd lot x y endX endY stopLine commuter
        l sched :
  lots_coherent (spawn f id ty pipeFd lot x y endX endY stopLine commuter) l sched ->
  Forall (fun s => Forall (parked_on_spot f) (snd s))
         (actor_run (spawn f id ty pipeFd lot x y endX endY stopLine commuter) l sched).
Proof. apply actor_run_parked_on_spot; [reflexivity | exact I]. Qed.

Lemma parked_vehicle_on_painted_spot_witness :
  let sched := replicate 240 (mkStepEnv GREEN None) in
  let run := actor_run car_on_stop_line ParkingLot_new sched in
  lots_coherent car_on_stop_line ParkingLot_new sched /\
  Forall (fun s => Forall (parked_on_spot vehicleThreadFunc) (snd s)) run /\
  snd <$> run !! 239%nat =
    Some (sendUpdate (Vehicle.set_pos (vehicle car_on_stop_line)
                        (float_of_int 230) (float_of_int 185))
                     lot_one_parked true).
Proof.
  intros sched run.
  assert (Hc : lots_coherent car_on_stop_line ParkingLot_new sched).
  { unfold lots_coherent, lot_coherent. vm_compute. repeat constructor. }
  split; [exact Hc|]. split.
  - exact (parked_vehicle_on_painted_spot vehicleThreadFunc 1 CAR 3 controller_lot
             240 400 1200 400 (float_of_int 240) false ParkingLot_new sched Hc).
  - vm_compute. reflexivity.
Defined.

(** *** F10's gate *)

Lemma f10_gates_app l1 l2 : f10_gates (l1 ++ l2) = f10_gates l1 ++ f10_gates l2.
Proof. unfold f10_gates. apply flat_map_app. Qed.

Lemma f10_untouched_refl w : f10_gate_untouched w w.
Proof. split; reflexivity. Qed.

Lemma f10_untouched_trans w1 w2 w3 :
  f10_gate_untouched w1 w2 -> f10_gate_untouched w2 w3 -> f10_gate_untouched w1 w3.
Proof. intros [A1 A2] [B1 B2]. split; congruence. Qed.

Lemma f10_untouched_record e w :
  (forall s, e <> F10.EvGate s) -> f10_gate_untouched w (F10.record e w).
Proof.
  intros He. split; [|reflexivity].
  cbn [F10.record F10.log]. rewrite f10_gates_app. cbn.
  destruct e; try apply app_nil_r. exfalso. eapply He. reflexivity.
Qed.

Lemma f10_untouched_usleep d w : f10_gate_untouched w (F10.usleep d w).
Proof.
  split; [|reflexivity]. cbn. rewrite f10_gates_app. apply app_nil_r.
Qed.

Lemma f10_untouched_rand w : f10_gate_untouched w (snd (F10.rand w)).
Proof. unfold F10.rand. destruct (F10.rand_draws w); split; reflexivity. Qed.

Lemma f10_untouched_read_cmd w : f10_gate_untouched w (snd (F10.read_cmd w)).
Proof.
  unfold F10.read_cmd. destruct (F10.cmdIn w) as [|[tm c] rest]; [apply f10_untouched_refl|].
  destruct (tm <=? F10.clock w); [|apply f10_untouched_refl].
  split; [|reflexivity]. cbn. rewrite f10_gates_app. apply app_nil_r.
Qed.

Lemma f10_untouched_spawnLocalVehicle ty w :
  f10_gate_untouched w (F10.spawnLocalVehicle ty w).
Proof. split; [|reflexivity]. cbn. rewrite f10_gates_app. apply app_nil_r. Qed.

Lemma f10_untouched_spawnCommuterVehicle ty w :
  f10_gate_untouched w (F10.spawnCommuterVehicle ty w).
Proof. split; [|reflexivity]. cbn. rewrite f10_gates_app. apply app_nil_r. Qed.

Lemma f10_untouched_repeat_n (body : F10.t -> F10.t) :
  (forall w, f10_gate_untouched w (body w)) ->
  forall n w, f10_gate_untouched w (F10.repeat_n n body w).
Proof.
  intros Hb n. induction n as [|n IH]; intros w; cbn [F10.repeat_n].
  - apply f10_untouched_refl.
  - eapply f10_untouched_trans; [apply Hb | apply IH].
Qed.

Lemma f10_untouched_gridlock_local w : f10_gate_untouched w (F10.gridlock_local w).
Proof.
  unfold F10.gridlock_local. pose proof (f10_untouched_rand w) as H.
  destruct (F10.rand w) as [r w1]. cbn [snd] in H.
  eapply f10_untouched_trans; [exact H|].
  eapply f10_untouched_trans;
    [apply f10_untouched_spawnLocalVehicle | apply f10_untouched_usleep].
Qed.

Lemma f10_untouched_gridlock_commuter w : f10_gate_untouched w (F10.gridlock_commuter w).
Proof.
  unfold F10.gridlock_commuter. pose proof (f10_untouched_rand w) as H.
  destruct (F10.rand w) as [r w1]. cbn [snd] in H.
  eapply f10_untouched_trans; [exact H|].
  eapply f10_untouched_trans;
    [apply f10_untouched_spawnCommuterVehicle | apply f10_untouched_usleep].
Qed.

Lemma f10_untouched_gridlock_pair w : f10_gate_untouched w (F10.gridlock_pair w).
Proof.
  unfold F10.gridlock_pair. pose proof (f10_untouched_rand w) as H1.
  destruct (F10.rand w) as [r1 w1]. cbn [snd] in H1.
  pose proof (f10_untouched_rand (F10.spawnLocalVehicle (VehicleType_of_draw r1) w1)) as H2.
  destruct (F10.rand _) as [r2 w2]. cbn [snd] in H2.
  eapply f10_untouched_trans; [exact H1|].
  eapply f10_untouched_trans; [apply f10_untouched_spawnLocalVehicle|].
  eapply f10_untouched_trans; [exact H2|].
  eapply f10_untouched_trans;
    [apply f10_untouched_spawnCommuterVehicle | apply f10_untouched_usleep].
Qed.

Lemma f10_untouched_green_wave w : f10_gate_untouched w (F10.green_wave w).
Proof.
  unfold F10.green_wave, F10.send_coord.
  eapply f10_untouched_trans; [apply f10_untouched_spawnLocalVehicle|].
  apply f10_untouched_record. discriminate.
Qed.

Lemma f10_untouched_parking_full w : f10_gate_untouched w (F10.parking_full w).
Proof.
  apply f10_untouched_repeat_n. intros w'.
  eapply f10_untouched_trans;
    [apply f10_untouched_spawnLocalVehicle | apply f10_untouched_usleep].
Qed.

Lemma f10_untouched_check_commands w : f10_gate_untouched w (F10.check_commands w).
Proof.
  unfold F10.check_commands. pose proof (f10_untouched_read_cmd w) as Hr.
  destruct (F10.read_cmd w) as [[c|] w1]; cbn [snd] in Hr; [|exact Hr].
  destruct (negb _); [exact Hr|].
  eapply f10_untouched_trans; [exact Hr|].
  destruct (CommandMessage.command c).
  - apply f10_untouched_refl.
  - apply f10_untouched_green_wave.
  - apply f10_untouched_parking_full.
  - eapply f10_untouched_trans;
      apply f10_untouched_repeat_n;
      [apply f10_untouched_gridlock_local | apply f10_untouched_gridlock_commuter].
Qed.

Lemma f10_untouched_poll_commands w : f10_gate_untouched w (F10.poll_commands w).
Proof.
  unfold F10.poll_commands. pose proof (f10_untouched_read_cmd w) as Hr.
  destruct (F10.read_cmd w) as [[c|] w1]; cbn [snd] in Hr; [|exact Hr].
  destruct (negb _); [exact Hr|].
  eapply f10_untouched_trans; [exact Hr|].
  destruct (CommandMessage.command c).
  - apply f10_untouched_refl.
  - apply f10_untouched_green_wave.
  - apply f10_untouched_parking_full.
  - apply f10_untouched_repeat_n, f10_untouched_gridlock_pair.
Qed.

Lemma f10_iteration_gates w :
  f10_gates (F10.log (F10.iteration w)) = f10_gates (F10.log w) ++ [RED; GREEN] /\
  F10.lightState (F10.iteration w) = GREEN.
Proof.
  unfold F10.iteration.
  destruct (f10_untouched_check_commands w) as [Hc _].
  generalize dependent (F10.check_commands w). intros w1 Hc.
  unfold F10.red_phase.
  assert (Hpolls : forall x,
            f10_gate_untouched x
              (F10.repeat_n 6 (fun w => F10.poll_commands (F10.usleep 500000 w)) x)).
  { apply f10_untouched_repeat_n. intros w'.
    eapply f10_untouched_trans; [apply f10_untouched_usleep | apply f10_untouched_poll_commands]. }
  destruct (Hpolls (F10.send (light_frame 10 RED) (F10.set_light RED w1))) as [Hp _].
  generalize dependent (F10.repeat_n 6 (fun w => F10.poll_commands (F10.usleep 500000 w))
                          (F10.send (light_frame 10 RED) (F10.set_light RED w1))).
  intros w2 Hp.
  split; [|reflexivity].
  unfold F10.green_phase. cbn. rewrite !f10_gates_app. cbn. rewrite !app_nil_r.
  rewrite Hp. cbn. rewrite !f10_gates_app. cbn. rewrite app_nil_r, Hc, <- app_assoc.
  reflexivity.
Qed.

(** F10 has no preemption: whatever commands arrive, GREEN_WAVE
    included, and whatever [rand()] returns, its gate is written exactly
    twice per iteration, RED then GREEN.  The ambulance a GREEN_WAVE
    starts at F10 finds F10's own light in whatever phase the plain
    cycle has reached. *)
Theorem f10_gate_alternates n : forall w,
  f10_gates (F10.log (F10.repeat_n n F10.iteration w))
    = f10_gates (F10.log w) ++ concat (replicate n [RED; GREEN]).
Proof.
  induction n as [|n IH]; intros w.
  - cbn. rewrite app_nil_r. reflexivity.
  - cbn [F10.repeat_n replicate concat]. rewrite IH.
    destruct (f10_iteration_gates w) as [-> _]. rewrite <- !app_assoc. reflexivity.
Qed.

(** ** The constructor's speeds *)

(** Whatever its type, a vehicle as the constructor builds it has a
    speed (4, 1 or 2) for which standing on the target counts as having
    reached it: [moveTowards] returns [true] and leaves the position
    where it is, so no drive loop divides zero by zero. *)
Theorem constructed_vehicle_arrives_on_target id ty pipeFd lot x y :
  is_finite x = true -> is_finite y = true ->
  moveTowards x y x y (Vehicle.speed (Vehicle_new id ty pipeFd lot)) = (true, (x, y)).
Proof.
  intros Hx Hy. apply moveTowards_at_target; [exact Hx | exact Hy|].
  destruct ty; reflexivity.
Qed.

Lemma constructed_vehicle_arrives_on_target_witness :
  moveTowards (float_of_int 240) (float_of_int 400) (float_of_int 240) (float_of_int 400)
              (Vehicle.speed (Vehicle_new 9 TRACTOR 3 controller_lot))
    = (true, (float_of_int 240, float_of_int 400)).
Proof. apply constructed_vehicle_arrives_on_target; reflexivity. Defined.
